(** * ExaDG, fluid-structure interaction: the quasi-Newton helpers of [driver.h]

    A shallow embedding of the free functions and of the [Matrix] class of
    [include/exadg/fluid_structure_interaction/driver.h]:

    - [Matrix<Number>]: [Matrix.new], [Matrix.init], [Matrix.get], [Matrix.set];
    - [compute_QR_decomposition] (modified Gram-Schmidt with dropping);
    - [backward_substitution] and [backward_substitution_multiple_rhs];
    - [inv_jacobian_times_residual].

    Numbers.  [Number] is read as the field of real numbers [R]: every
    statement below is a statement in exact arithmetic, unless it names
    [Template.binary64].  Rounding, NaN and Inf of [double] are outside the
    exact model; a division executed with divisor [0] is its counterpart of
    a NaN/Inf being produced.  Module [Template] has [Matrix] and the two
    back substitutions over the operations of [Number], to be read in the
    real numbers or in IEEE 754 binary64.

    Integers.  [unsigned int] values are elements of [N], and the
    arithmetic the class does on them ([M * M], [i * M + j]) is reduced
    modulo [2^32].  Loop counters that range over the size of a
    [std::vector] are natural numbers (container sizes below [2^31], for
    which the conversion to [int] in the source is the identity).

    Failure.  A call either returns, or throws (the [AssertThrow] of
    [Matrix::get] and [Matrix::set]), or indexes a [std::vector] outside
    its size, which C++ leaves undefined: see [outcome].  Memory is taken
    to be available: the [std::bad_alloc] that [std::vector::resize] or a
    copy of a vector can throw is not modelled. *)

From Stdlib Require Import PrimFloat.
From Stdlib Require Import Reals Lra Lia NArith String.
From stdpp Require Import base list functions.

(** [Number], the template parameter, in exact arithmetic. *)
Abbreviation Number := R (only parsing).

(** ** Outcomes of a call *)

Inductive outcome (A : Type) : Type :=
| Ret (a : A)            (* normal return *)
| Throw (msg : string)   (* AssertThrow(cond, dealii::ExcMessage(msg)) with cond false *)
| Undef.                 (* std::vector::operator[] outside [0, size()) *)

Arguments Ret {A} a.
Arguments Throw {A} msg.
Arguments Undef {A}.

Definition bind {A B : Type} (m : outcome A) (k : A -> outcome B) : outcome B :=
  match m with
  | Ret a => k a
  | Throw msg => Throw msg
  | Undef => Undef
  end.

Notation "'let*' x ':=' m 'in' k" := (bind m (fun x => k))
  (at level 10, x pattern, m at level 100, k at level 200).

Definition omap {A B : Type} (f : A -> B) (m : outcome A) : outcome B :=
  let* a := m in Ret (f a).

(** [v[i]] as an rvalue and [v[i] = x] for a [std::vector]. *)
Definition vec_get {A : Type} (v : list A) (i : nat) : outcome A :=
  match v !! i with
  | Some x => Ret x
  | None => Undef
  end.

Definition vec_put {A : Type} (v : list A) (i : nat) (x : A) : outcome (list A) :=
  if decide (i < length v)%nat then Ret (<[i:=x]> v) else Undef.

(** [for (k = lo; k < lo + count; ++k) body]. *)
Fixpoint for_up {St : Type} (body : nat -> St -> outcome St) (lo count : nat) (s : St)
  : outcome St :=
  match count with
  | O => Ret s
  | S count' => let* s' := body lo s in for_up body (S lo) count' s'
  end.

(** [for (int k = n - 1; k >= 0; --k) body]. *)
Fixpoint for_down {St : Type} (body : nat -> St -> outcome St) (n : nat) (s : St)
  : outcome St :=
  match n with
  | O => Ret s
  | S k => let* s' := body k s in for_down body k s'
  end.

(** ** [unsigned int] *)

Definition uint_modulus : N := 2 ^ 32.

Definition uint (x : N) : N := (x mod uint_modulus)%N.

Definition uint_mul (x y : N) : N := uint (x * y).

Definition uint_add (x y : N) : N := uint (x + y).

(** ** [class Matrix] *)

Module Matrix.

Record t : Type := mk { M : N; data : list R }.

Definition index_message : string := "Index exceeds matrix dimensions.".

(** [i * M + j], the subscript of [data]. *)
Definition subscript (m : t) (i j : N) : nat :=
  N.to_nat (uint_add (uint_mul i (M m)) j).

Definition store (m : t) (k : nat) (value : R) : outcome t :=
  let* d := vec_put (data m) k value in Ret (mk (M m) d).

Definition init (m : t) : outcome t :=
  for_up (fun i m1 =>
            for_up (fun j m2 => store m2 (subscript m2 (N.of_nat i) (N.of_nat j)) 0%R)
                   0 (N.to_nat (M m1)) m1)
         0 (N.to_nat (M m)) m.

(** The constructor: [data.resize(M * M)] value-initialises, then [init()].
    The allocation of [resize] is taken to succeed: a [std::bad_alloc] out
    of it is not an outcome of [new]. *)
Definition new (size : N) : outcome t :=
  init (mk size (replicate (N.to_nat (uint_mul size size)) 0%R)).

Definition in_range (m : t) (i j : N) : bool := ((i <? M m) && (j <? M m))%N.

Definition get (m : t) (i j : N) : outcome R :=
  if in_range m i j then vec_get (data m) (subscript m i j)
  else Throw index_message.

Definition set (m : t) (value : R) (i j : N) : outcome t :=
  if in_range m i j then store m (subscript m i j) value
  else Throw index_message.

(** The public member functions, as calls on an object: [init] (declared
    before [get] and [set], under the same [public:]), [get] and [set].
    [get] is a [const] member: the object after the call is the object
    before it. *)
Inductive call : Type :=
| call_init
| call_get (i j : N)
| call_set (value : R) (i j : N).

Definition invoke (m : t) (c : call) : outcome (t * option R) :=
  match c with
  | call_init => let* m' := init m in Ret (m', None)
  | call_get i j => let* x := get m i j in Ret (m, Some x)
  | call_set value i j => let* m' := set m value i j in Ret (m', None)
  end.

(** The objects a program can hold: constructed, then used through the
    public members. *)
Inductive reachable (size : N) : t -> Prop :=
| reach_new m : new size = Ret m -> reachable size m
| reach_invoke m c m' r :
    reachable size m -> invoke m c = Ret (m', r) -> reachable size m'.

End Matrix.

(** ** Field vectors

    [VectorType] is [dealii::LinearAlgebra::distributed::Vector<Number>].
    The members the functions below call are those of deal.II, elementwise
    over the entries of the object they are called on; deal.II requires the
    argument vector to have the size of that object. *)

Abbreviation VectorType := (list R) (only parsing).

(** [v * w], the inner product. *)
Fixpoint dot (v w : VectorType) : R :=
  match v, w with
  | x :: v', y :: w' => x * y + dot v' w'
  | _, _ => 0
  end.

(** [v.l2_norm()]. *)
Definition l2_norm (v : VectorType) : R := sqrt (dot v v).

(** [this.add(a, V)]: [this += a * V]. *)
Definition add (this : VectorType) (a : R) (V : VectorType) : VectorType :=
  zip_with (fun x y => (x + a * y)%R) this V.

(** [this = 0.0]: every entry becomes zero, the size stays. *)
Definition assign_zero (this : VectorType) : VectorType :=
  map (fun _ => 0%R) this.

(** [this *= a]. *)
Definition scale (this : VectorType) (a : R) : VectorType :=
  map (fun x => (x * a)%R) this.

(** [this.equ(a, V)]: [this = a * V]. *)
Definition equ (this : VectorType) (a : R) (V : VectorType) : VectorType :=
  zip_with (fun _ y => (a * y)%R) this V.

(** ** [compute_QR_decomposition] *)

Definition QR_state : Type := list VectorType * Matrix.t.

(** Body of the loop "orthogonalize", lines 111-116. *)
Definition orthogonalize (i j : nat) (s : QR_state) : outcome QR_state :=
  let* Qj := vec_get s.1 j in
  let* Qi := vec_get s.1 i in
  let r_ji := dot Qj Qi in
  let* R1 := Matrix.set s.2 r_ji (N.of_nat j) (N.of_nat i) in
  let* Q1 := vec_put s.1 i (add Qi (- r_ji) Qj) in
  Ret (Q1, R1).

(** Body of the loop over the columns, lines 107-132. *)
Definition QR_column (eps : R) (i : nat) (s : QR_state) : outcome QR_state :=
  let* Qi := vec_get s.1 i in
  let norm_initial := l2_norm Qi in
  let* s1 := for_up (orthogonalize i) 0 i s in
  let* Qi1 := vec_get s1.1 i in
  let r_ii := l2_norm Qi1 in
  if Rlt_dec r_ii (eps * norm_initial) then
    let* Q2 := vec_put s1.1 i (assign_zero Qi1) in
    let* R2 := for_up (fun j R' => Matrix.set R' 0 (N.of_nat j) (N.of_nat i)) 0 i s1.2 in
    let* R3 := Matrix.set R2 1 (N.of_nat i) (N.of_nat i) in
    Ret (Q2, R3)
  else
    let* R2 := Matrix.set s1.2 r_ii (N.of_nat i) (N.of_nat i) in
    let* Q2 := vec_put s1.1 i (scale Qi1 (1 / r_ii)) in
    Ret (Q2, R2).

Definition compute_QR_decomposition (Q : list VectorType) (R : Matrix.t) (eps : Number)
  : outcome QR_state :=
  for_up (QR_column eps) 0 (length Q) (Q, R).

(** The default argument [eps = 1.e-2]. *)
Definition eps_default : R := 1 / 100.

(** ** [backward_substitution] *)

Definition backward_substitution (matrix : Matrix.t) (dst rhs : list R)
  : outcome (list R) :=
  let n := length dst in
  for_down (fun i dst =>
    let* rhs_i := vec_get rhs i in
    let* value :=
      for_up (fun j value =>
                let* m_ij := Matrix.get matrix (N.of_nat i) (N.of_nat j) in
                let* dst_j := vec_get dst j in
                Ret (value - m_ij * dst_j)%R)
             (i + 1) (n - (i + 1)) rhs_i in
    let* m_ii := Matrix.get matrix (N.of_nat i) (N.of_nat i) in
    vec_put dst i (value / m_ii)%R) n dst.

Definition backward_substitution_multiple_rhs
  (matrix : Matrix.t) (dst rhs : list VectorType) : outcome (list VectorType) :=
  let n := length dst in
  for_down (fun i dst =>
    let* rhs_i := vec_get rhs i in
    let* value :=
      for_up (fun j value =>
                let* m_ij := Matrix.get matrix (N.of_nat i) (N.of_nat j) in
                let* dst_j := vec_get dst j in
                Ret (add value (- m_ij) dst_j))
             (i + 1) (n - (i + 1)) rhs_i in
    let* m_ii := Matrix.get matrix (N.of_nat i) (N.of_nat i) in
    let* dst_i := vec_get dst i in
    vec_put dst i (equ dst_i (1 / m_ii) value)) n dst.

(** ** [inv_jacobian_times_residual]

    [b] and [residual] are references: the objects they name live in a
    [memory], and the two references may name the same object.  The
    vectors of the histories are objects different from [b]. *)

Abbreviation ref := nat (only parsing).

Abbreviation memory := (ref -> VectorType) (only parsing).

Definition history : Type := list (list VectorType).

(** Body of the loop over the history, lines 192-209. *)
Definition history_entry (b : ref) (D_history R_history Z_history : history)
  (idx : nat) (s : memory * VectorType) : outcome (memory * VectorType) :=
  let* D := vec_get D_history idx in
  let* R := vec_get R_history idx in
  let* Z := vec_get Z_history idx in
  let k := length Z in
  let* Z_times_a :=
    for_up (fun i zta => let* Zi := vec_get Z i in vec_put zta i (dot Zi s.2))
           0 k (replicate k 0%R) in
  let* mem1 :=
    for_up (fun i (mem : memory) =>
              let* p := vec_get Z_times_a i in
              let* Di := vec_get D i in
              Ret (<[b := add (mem b) p Di]> mem))
           0 k s.1 in
  let* a1 :=
    for_up (fun i a =>
              let* p := vec_get Z_times_a i in
              let* Ri := vec_get R i in
              Ret (add a (- p) Ri))
           0 k s.2 in
  Ret (mem1, a1).

Definition inv_jacobian_times_residual
  (b : ref) (D_history R_history Z_history : history) (residual : ref)
  (mem : memory) : outcome memory :=
  let a := mem residual in
  let mem0 : memory := <[b := assign_zero (mem b)]> mem in
  let* s := for_down (history_entry b D_history R_history Z_history)
                     (length Z_history) (mem0, a) in
  Ret s.1.

(** ** The recurrence of the specification

    Section 4.4 in its own words: [a = residual], [b = 0]; entries newest
    to oldest; per entry [p[i] = <Z[i], a>], then [b += sum_i p[i] * D[i]]
    and [a -= sum_i p[i] * R[i]]. *)

Definition vplus (v w : VectorType) : VectorType := zip_with Rplus v w.

Definition vminus (v w : VectorType) : VectorType := zip_with Rminus v w.

Definition vsmul (c : R) (v : VectorType) : VectorType := map (Rmult c) v.

(** [sum_i p[i] * V[i]], a vector of the size of [zero]. *)
Definition weighted_sum (zero : VectorType) (p : list R) (V : list VectorType)
  : VectorType :=
  foldr vplus zero (zip_with vsmul p V).

Fixpoint reference_newest_first
  (entries : list (list VectorType * list VectorType * list VectorType))
  (a b : VectorType) : VectorType :=
  match entries with
  | [] => b
  | (D, R, Z) :: older =>
      let p := map (fun z => dot z a) Z in
      let zero := assign_zero a in
      reference_newest_first older
        (vminus a (weighted_sum zero p R)) (vplus b (weighted_sum zero p D))
  end.

Definition reference_recurrence
  (D_history R_history Z_history : history) (residual : VectorType) : VectorType :=
  reference_newest_first
    (rev (zip (zip D_history R_history) Z_history))
    residual (assign_zero residual).

(** ** The template parameter [Number]

    [Matrix<Number>] and the two back substitutions once more, over a type
    of numbers with the operations their bodies use.  [exact] reads the
    operations in the real numbers, and the definitions above are what
    results (lemmas [exact_get], [exact_set], [exact_backward_substitution],
    [exact_backward_substitution_multiple_rhs]); [binary64] reads them in
    IEEE 754 double precision, rounding to nearest: [Number = double]. *)

Module Template.

Record arithmetic (F : Type) : Type := Arithmetic {
  zero : F;                 (* Number(0.0) *)
  one : F;                  (* 1.0 *)
  plus : F -> F -> F;
  minus : F -> F -> F;
  times : F -> F -> F;
  divide : F -> F -> F;
  negate : F -> F;
}.

Arguments zero {F} _.
Arguments one {F} _.
Arguments plus {F} _ _ _.
Arguments minus {F} _ _ _.
Arguments times {F} _ _ _.
Arguments divide {F} _ _ _.
Arguments negate {F} _ _.

Definition exact : arithmetic R :=
  Arithmetic R 0%R 1%R Rplus Rminus Rmult Rdiv Ropp.


Section Number.

Context {F : Type} (ops : arithmetic F).

Record Matrix : Type := mk { M : N; data : list F }.

Definition subscript (m : Matrix) (i j : N) : nat :=
  N.to_nat (uint_add (uint_mul i (M m)) j).

Definition store (m : Matrix) (k : nat) (value : F) : outcome Matrix :=
  let* d := vec_put (data m) k value in Ret (mk (M m) d).

Definition init (m : Matrix) : outcome Matrix :=
  for_up (fun i m1 =>
            for_up (fun j m2 => store m2 (subscript m2 (N.of_nat i) (N.of_nat j)) (zero ops))
                   0 (N.to_nat (M m1)) m1)
         0 (N.to_nat (M m)) m.

Definition new (size : N) : outcome Matrix :=
  init (mk size (replicate (N.to_nat (uint_mul size size)) (zero ops))).

Definition in_range (m : Matrix) (i j : N) : bool := ((i <? M m) && (j <? M m))%N.

Definition get (m : Matrix) (i j : N) : outcome F :=
  if in_range m i j then vec_get (data m) (subscript m i j)
  else Throw Matrix.index_message.

Definition set (m : Matrix) (value : F) (i j : N) : outcome Matrix :=
  if in_range m i j then store m (subscript m i j) value
  else Throw Matrix.index_message.

(** [this.add(a, V)] and [this.equ(a, V)] of a field vector. *)
Definition add (this : list F) (a : F) (V : list F) : list F :=
  zip_with (fun x y => plus ops x (times ops a y)) this V.

Definition equ (this : list F) (a : F) (V : list F) : list F :=
  zip_with (fun _ y => times ops a y) this V.

(** Line 154: [dst[i] = value / matrix.get(i, i)]. *)
Definition backward_substitution (matrix : Matrix) (dst rhs : list F)
  : outcome (list F) :=
  let n := length dst in
  for_down (fun i dst =>
    let* rhs_i := vec_get rhs i in
    let* value :=
      for_up (fun j value =>
                let* m_ij := get matrix (N.of_nat i) (N.of_nat j) in
                let* dst_j := vec_get dst j in
                Ret (minus ops value (times ops m_ij dst_j)))
             (i + 1) (n - (i + 1)) rhs_i in
    let* m_ii := get matrix (N.of_nat i) (N.of_nat i) in
    vec_put dst i (divide ops value m_ii)) n dst.

(** Line 174: [dst[i].equ(1.0 / matrix.get(i, i), value)]. *)
Definition backward_substitution_multiple_rhs
  (matrix : Matrix) (dst rhs : list (list F)) : outcome (list (list F)) :=
  let n := length dst in
  for_down (fun i dst =>
    let* rhs_i := vec_get rhs i in
    let* value :=
      for_up (fun j value =>
                let* m_ij := get matrix (N.of_nat i) (N.of_nat j) in
                let* dst_j := vec_get dst j in
                Ret (add value (negate ops m_ij) dst_j))
             (i + 1) (n - (i + 1)) rhs_i in
    let* m_ii := get matrix (N.of_nat i) (N.of_nat i) in
    let* dst_i := vec_get dst i in
    vec_put dst i (equ dst_i (divide ops (one ops) m_ii) value)) n dst.

End Number.

Arguments Matrix F : clear implicits.

(** A [Matrix<Number>] of the exact model, as an object of the template. *)
Definition of_exact (m : Matrix.t) : Matrix R := mk (Matrix.M m) (Matrix.data m).

End Template.

(** * The vocabulary of the statements *)

Local Open Scope R_scope.

(** ** Matrices *)

(** The invariant of the storage: [M * M] did not wrap around and [data]
    has that many entries. *)
Definition Matrix_wf (m : Matrix.t) : Prop :=
  (Matrix.M m * Matrix.M m < uint_modulus)%N
  /\ length (Matrix.data m) = N.to_nat (Matrix.M m * Matrix.M m).

(** The order of a matrix, as a [nat]. *)
Definition order (m : Matrix.t) : nat := N.to_nat (Matrix.M m).

(** The entry in row [i] and column [j]: what [get(i, j)] returns on a
    matrix in its invariant (lemma [get_entry]). *)
Definition entry (m : Matrix.t) (i j : nat) : R :=
  nth (i * order m + j) (Matrix.data m) 0%R.

(** The matrix after [set(v, i, j)], on a matrix in its invariant (lemma
    [set_upd]). *)
Definition Matrix_upd (m : Matrix.t) (i j : nat) (v : R) : Matrix.t :=
  Matrix.mk (Matrix.M m) (<[(i * order m + j)%nat := v]> (Matrix.data m)).

(** The matrix the constructor builds when [M * M] fits an [unsigned int]
    (lemma [new_spec]). *)
Definition zero_matrix (size : N) : Matrix.t :=
  Matrix.mk size (replicate (N.to_nat (size * size)) 0%R).

(** [sum_{j = lo}^{lo + count - 1} f j]. *)
Fixpoint sum_range (f : nat -> R) (lo count : nat) : R :=
  match count with
  | O => 0
  | S count' => f lo + sum_range f (S lo) count'
  end.

(** The part of row [i] of [matrix * x] right of the diagonal. *)
Definition row_tail (matrix : Matrix.t) (x : list R) (n i : nat) : R :=
  sum_range (fun j => entry matrix i j * nth j x 0) (i + 1) (n - (i + 1)).

(** Row [i] of [matrix * x], over the leading [n] columns. *)
Definition row_times (matrix : Matrix.t) (x : list R) (n i : nat) : R :=
  sum_range (fun j => entry matrix i j * nth j x 0) 0 n.

(** ** Field vectors *)

(** Component [c] of a field vector. *)
Definition component (c : nat) (v : VectorType) : R := nth c v 0.

(** A list of vectors of size [d] is linearly independent: only the zero
    coefficients combine them to the zero vector. *)
Definition linearly_independent (d : nat) (V : list VectorType) : Prop :=
  forall coef : list R,
    length coef = length V ->
    weighted_sum (replicate d 0) coef V = replicate d 0 ->
    Forall (fun x => x = 0) coef.

(** ** Two calls side by side *)


(** ** A run of [compute_QR_decomposition], column by column *)

(** Column [i] after [j] steps of the loop "orthogonalize", lines 111-116,
    from the vectors [Q] that enter iteration [i]. *)
Fixpoint orth_col (Q : list VectorType) (i j : nat) : VectorType :=
  match j with
  | O => nth i Q []
  | S j' => let q := orth_col Q i j' in add q (- dot (nth j' Q []) q) (nth j' Q [])
  end.

(** The coefficient [r_ji] of step [j] of that loop, stored in [R[j][i]]. *)
Definition orth_coef (Q : list VectorType) (i j : nat) : R :=
  dot (nth j Q []) (orth_col Q i j).

(** The test of line 120 for column [i], on the vectors [Q] that enter
    iteration [i]. *)
Definition drops (eps : R) (Q : list VectorType) (i : nat) : Prop :=
  l2_norm (orth_col Q i i) < eps * l2_norm (nth i Q []).

(** The vectors after iteration [i] (lemma [QR_column_spec]). *)
Definition QR_next (eps : R) (i : nat) (Q : list VectorType) : list VectorType :=
  let q := orth_col Q i i in
  <[i := if Rlt_dec (l2_norm q) (eps * l2_norm (nth i Q []))
         then assign_zero q else scale q (1 / l2_norm q)]> Q.

(** [R[k][i]], [k <= i], after iteration [i] (lemma [QR_column_spec]). *)
Definition column_entry (eps : R) (Q : list VectorType) (i k : nat) : R :=
  let q := orth_col Q i i in
  if Rlt_dec (l2_norm q) (eps * l2_norm (nth i Q []))
  then (if decide (k = i) then 1 else 0)
  else (if decide (k = i) then l2_norm q else orth_coef Q i k).

(** The vectors after the iterations for columns [0 .. k-1] (lemma
    [QR_columns_spec]). *)
Fixpoint QR_prefix (eps : R) (Q : list VectorType) (k : nat) : list VectorType :=
  match k with
  | O => Q
  | S k' => QR_next eps k' (QR_prefix eps Q k')
  end.

(** Column [i] meets the test [r_ii < eps * norm_initial] in the run on
    [(Q, R)]: [si] is the state that enters iteration [i], [so] the state
    after its loop "orthogonalize". *)
Definition drop_test (eps : R) (Q : list VectorType) (R_ : Matrix.t) (i : nat) : Prop :=
  exists si so : QR_state,
    for_up (QR_column eps) 0 i (Q, R_) = Ret si
    /\ for_up (orthogonalize i) 0 i si = Ret so
    /\ l2_norm (nth i so.1 []) < eps * l2_norm (nth i si.1 []).

(** ** Sample inputs *)

(** The matrix [[2, 1], [0, 4]]. *)
Definition upper_2x2 : Matrix.t :=
  Matrix_upd (Matrix_upd (Matrix_upd (zero_matrix 2) 0 0 2) 0 1 1) 1 1 4.

(** The 1-by-1 matrix [[1]]. *)
Definition unit_1x1 : Matrix.t := Matrix_upd (zero_matrix 1) 0 0 1.

(** A history of two entries, of one column each, over vectors of size 2. *)
Definition D_sample : history := [[[1; 0]]; [[0; 2]]].

Definition R_sample : history := [[[0; 1]]; [[1; 1]]].

Definition Z_sample : history := [[[1; 1]]; [[1; 0]]].

(** A memory: object [0] holds zeros, every other object holds [(2, 3)]. *)
Definition mem_sample : nat -> VectorType :=
  fun r => if decide (r = 0%nat) then [0; 0] else [2; 3].


(** Two vectors in the plane, the first one the unit vector [(1, 0)]. *)
Definition after_e1 (x y : R) : list VectorType := [[1; 0]; [x; y]].

(** The vectors [(1, 0)] and [(1, 1/1000)]: linearly independent, and
    nearly parallel. *)
Definition nearly_parallel : list VectorType := after_e1 1 (1 / 1000).

(** * Properties *)

(** ** Outcomes and loops *)

Lemma bind_Ret_inv {A B : Type} (m : outcome A) (k : A -> outcome B) (b : B) :
  bind m k = Ret b -> exists a, m = Ret a /\ k a = Ret b.
Proof. destruct m as [a| |]; simpl; intros H; [eauto | discriminate..]. Qed.

Lemma vec_get_Ret {A : Type} (v : list A) (i : nat) (x : A) :
  v !! i = Some x -> vec_get v i = Ret x.
Proof. unfold vec_get. intros ->. reflexivity. Qed.

Lemma vec_put_Ret {A : Type} (v : list A) (i : nat) (x : A) :
  (i < length v)%nat -> vec_put v i x = Ret (<[i:=x]> v).
Proof. unfold vec_put. intros H. destruct (decide _); [reflexivity | lia]. Qed.

(** Total correctness of an upward loop from an invariant. *)
Lemma for_up_inv {St : Type} (P : nat -> St -> Prop)
  (body : nat -> St -> outcome St) (count lo : nat) (s : St) :
  P lo s ->
  (forall k t, (lo <= k < lo + count)%nat -> P k t ->
               exists t', body k t = Ret t' /\ P (S k) t') ->
  exists s', for_up body lo count s = Ret s' /\ P (lo + count)%nat s'.
Proof.
  revert lo s. induction count as [|count IH]; intros lo s HP Hstep; simpl.
  - exists s. rewrite Nat.add_0_r. auto.
  - destruct (Hstep lo s ltac:(lia) HP) as (t & -> & Ht). simpl.
    destruct (IH (S lo) t Ht) as (s' & Hs' & HP').
    + intros k u Hk. apply Hstep. lia.
    + exists s'. split; [exact Hs'|]. replace (lo + S count)%nat with (S lo + count)%nat by lia.
      exact HP'.
Qed.

(** Partial correctness: what a returning upward loop establishes. *)
Lemma for_up_Ret_inv {St : Type} (P : nat -> St -> Prop)
  (body : nat -> St -> outcome St) (count lo : nat) (s s' : St) :
  for_up body lo count s = Ret s' ->
  P lo s ->
  (forall k t t', (lo <= k < lo + count)%nat -> P k t -> body k t = Ret t' -> P (S k) t') ->
  P (lo + count)%nat s'.
Proof.
  revert lo s. induction count as [|count IH]; intros lo s Hrun HP Hstep; simpl in Hrun.
  - inversion Hrun; subst. rewrite Nat.add_0_r. exact HP.
  - apply bind_Ret_inv in Hrun as (t & Hb & Hrun).
    replace (lo + S count)%nat with (S lo + count)%nat by lia.
    apply (IH (S lo) t Hrun).
    + apply (Hstep lo s t); [lia | exact HP | exact Hb].
    + intros k u u' Hk. apply Hstep. lia.
Qed.

Lemma for_up_split {St : Type} (body : nat -> St -> outcome St) (c1 c2 lo : nat) (s : St) :
  for_up body lo (c1 + c2) s
  = let* s1 := for_up body lo c1 s in for_up body (lo + c1) c2 s1.
Proof.
  revert lo s. induction c1 as [|c1 IH]; intros lo s; simpl.
  - rewrite Nat.add_0_r. reflexivity.
  - destruct (body lo s) as [t| |]; simpl; [|reflexivity..].
    rewrite IH. replace (S lo + c1)%nat with (lo + S c1)%nat by lia. reflexivity.
Qed.

(** A returning loop has executed each of its iterations. *)
Lemma for_up_Ret_at {St : Type} (body : nat -> St -> outcome St)
  (count lo : nat) (s s' : St) (k : nat) :
  for_up body lo count s = Ret s' -> (lo <= k < lo + count)%nat ->
  exists t t', for_up body lo (k - lo) s = Ret t /\ body k t = Ret t'.
Proof.
  intros Hrun Hk.
  replace count with ((k - lo) + S (count - S (k - lo)))%nat in Hrun by lia.
  rewrite for_up_split in Hrun.
  apply bind_Ret_inv in Hrun as (t & Ht & Hrun).
  simpl in Hrun. apply bind_Ret_inv in Hrun as (t' & Ht' & _).
  replace (lo + (k - lo))%nat with k in Ht' by lia. eauto.
Qed.

(** Total correctness of a downward loop from an invariant. *)
Lemma for_down_inv {St : Type} (P : nat -> St -> Prop)
  (body : nat -> St -> outcome St) (n : nat) (s : St) :
  P n s ->
  (forall k t, (k < n)%nat -> P (S k) t -> exists t', body k t = Ret t' /\ P k t') ->
  exists s', for_down body n s = Ret s' /\ P O s'.
Proof.
  revert s. induction n as [|n IH]; intros s HP Hstep; simpl.
  - eauto.
  - destruct (Hstep n s ltac:(lia) HP) as (t & -> & Ht). simpl.
    apply IH; [exact Ht|]. intros k u Hk. apply Hstep. lia.
Qed.

(** ** [Matrix]: the storage invariant *)

Lemma uint_small (x : N) : (x < uint_modulus)%N -> uint x = x.
Proof. intros H. unfold uint. apply N.mod_small. exact H. Qed.

Lemma subscript_in_range (m : Matrix.t) (i j : N) :
  Matrix_wf m -> (i < Matrix.M m)%N -> (j < Matrix.M m)%N ->
  Matrix.subscript m i j = (N.to_nat i * order m + N.to_nat j)%nat
  /\ (Matrix.subscript m i j < length (Matrix.data m))%nat.
Proof.
  intros [Hov Hlen] Hi Hj. unfold Matrix.subscript, uint_add, uint_mul, order.
  assert (Hij : (i * Matrix.M m + j < Matrix.M m * Matrix.M m)%N) by nia.
  assert (Hi' : (i * Matrix.M m < uint_modulus)%N) by nia.
  rewrite (uint_small (i * Matrix.M m)) by exact Hi'.
  rewrite uint_small by lia.
  split; [lia | rewrite Hlen; lia].
Qed.

Lemma in_range_true (m : Matrix.t) (i j : N) :
  Matrix.in_range m i j = true <-> (i < Matrix.M m)%N /\ (j < Matrix.M m)%N.
Proof.
  unfold Matrix.in_range. rewrite andb_true_iff, !N.ltb_lt. reflexivity.
Qed.

Lemma in_range_false (m : Matrix.t) (i j : N) :
  Matrix.in_range m i j = false <-> (Matrix.M m <= i)%N \/ (Matrix.M m <= j)%N.
Proof.
  unfold Matrix.in_range. rewrite andb_false_iff, !N.ltb_ge. reflexivity.
Qed.

Lemma store_wf (m : Matrix.t) (k : nat) (v : R) :
  Matrix_wf m -> (k < length (Matrix.data m))%nat ->
  Matrix.store m k v = Ret (Matrix.mk (Matrix.M m) (<[k:=v]> (Matrix.data m)))
  /\ Matrix_wf (Matrix.mk (Matrix.M m) (<[k:=v]> (Matrix.data m))).
Proof.
  intros [Hov Hlen] Hk. unfold Matrix.store. rewrite vec_put_Ret by exact Hk. simpl.
  split; [reflexivity|]. split; simpl; [exact Hov | rewrite length_insert; exact Hlen].
Qed.

Lemma order_lt (m : Matrix.t) (i : nat) :
  (i < order m)%nat <-> (N.of_nat i < Matrix.M m)%N.
Proof. unfold order. lia. Qed.

Lemma cell_lt (m : Matrix.t) (i j : nat) :
  Matrix_wf m -> (i < order m)%nat -> (j < order m)%nat ->
  (i * order m + j < length (Matrix.data m))%nat.
Proof. intros [_ Hlen] Hi Hj. rewrite Hlen. unfold order in *. nia. Qed.

Lemma cell_inj (n i j i' j' : nat) :
  (j < n)%nat -> (j' < n)%nat -> (i * n + j = i' * n + j')%nat -> i = i' /\ j = j'.
Proof.
  intros Hj Hj' H.
  assert (i = i') as ->; [|lia].
  destruct (Nat.lt_trichotomy i i') as [Hlt | [Heq | Hgt]]; [nia | exact Heq | nia].
Qed.

Lemma get_entry (m : Matrix.t) (i j : nat) :
  Matrix_wf m -> (i < order m)%nat -> (j < order m)%nat ->
  Matrix.get m (N.of_nat i) (N.of_nat j) = Ret (entry m i j).
Proof.
  intros Hwf Hi Hj. unfold Matrix.get.
  rewrite (proj2 (in_range_true m _ _)) by (rewrite <- !order_lt; auto).
  destruct (subscript_in_range m (N.of_nat i) (N.of_nat j) Hwf) as [-> _];
    [apply order_lt; exact Hi | apply order_lt; exact Hj |].
  rewrite !Nat2N.id. unfold entry, vec_get. rewrite nth_lookup.
  destruct (lookup_lt_is_Some_2 (Matrix.data m) (i * order m + j)%nat) as [x ->];
    [apply cell_lt; assumption | reflexivity].
Qed.

Lemma set_upd (m : Matrix.t) (v : R) (i j : nat) :
  Matrix_wf m -> (i < order m)%nat -> (j < order m)%nat ->
  Matrix.set m v (N.of_nat i) (N.of_nat j) = Ret (Matrix_upd m i j v).
Proof.
  intros Hwf Hi Hj. unfold Matrix.set.
  rewrite (proj2 (in_range_true m _ _)) by (rewrite <- !order_lt; auto).
  destruct (subscript_in_range m (N.of_nat i) (N.of_nat j) Hwf) as [-> _];
    [apply order_lt; exact Hi | apply order_lt; exact Hj |].
  rewrite !Nat2N.id.
  apply store_wf; [exact Hwf | apply cell_lt; assumption].
Qed.

Lemma upd_wf (m : Matrix.t) (i j : nat) (v : R) : Matrix_wf m -> Matrix_wf (Matrix_upd m i j v).
Proof.
  intros [Hov Hlen]. split; simpl; [exact Hov | rewrite length_insert; exact Hlen].
Qed.

Lemma order_upd (m : Matrix.t) (i j : nat) (v : R) : order (Matrix_upd m i j v) = order m.
Proof. reflexivity. Qed.

Lemma entry_upd_eq (m : Matrix.t) (i j : nat) (v : R) :
  Matrix_wf m -> (i < order m)%nat -> (j < order m)%nat ->
  entry (Matrix_upd m i j v) i j = v.
Proof.
  intros Hwf Hi Hj. unfold entry. rewrite order_upd, nth_lookup. simpl.
  rewrite list_lookup_insert_eq by (apply cell_lt; assumption). reflexivity.
Qed.

Lemma entry_upd_ne (m : Matrix.t) (i j i' j' : nat) (v : R) :
  (j < order m)%nat -> (j' < order m)%nat -> (i', j') <> (i, j) ->
  entry (Matrix_upd m i j v) i' j' = entry m i' j'.
Proof.
  intros Hj Hj' Hne. unfold entry. rewrite order_upd, !nth_lookup. simpl.
  rewrite list_lookup_insert_ne; [reflexivity|].
  intros Heq. apply cell_inj in Heq as [-> ->]; [|assumption..]. apply Hne. reflexivity.
Qed.

Lemma get_throw (m : Matrix.t) (i j : N) :
  (Matrix.M m <= i)%N \/ (Matrix.M m <= j)%N ->
  Matrix.get m i j = Throw Matrix.index_message.
Proof. intros H. unfold Matrix.get. rewrite (proj2 (in_range_false m i j) H). reflexivity. Qed.

Lemma set_throw (m : Matrix.t) (v : R) (i j : N) :
  (Matrix.M m <= i)%N \/ (Matrix.M m <= j)%N ->
  Matrix.set m v i j = Throw Matrix.index_message.
Proof. intros H. unfold Matrix.set. rewrite (proj2 (in_range_false m i j) H). reflexivity. Qed.

(** ** The constructor *)

Lemma zero_matrix_wf (size : N) :
  (size * size < uint_modulus)%N -> Matrix_wf (zero_matrix size).
Proof. intros H. split; simpl; [exact H | apply length_replicate]. Qed.

Lemma entry_zero_matrix (size : N) (i j : nat) : entry (zero_matrix size) i j = 0%R.
Proof.
  unfold entry. rewrite nth_lookup. simpl.
  destruct (replicate _ _ !! _) as [x|] eqn:E; [|reflexivity].
  apply lookup_replicate in E as [-> _]. reflexivity.
Qed.

Lemma new_fits (size : N) :
  (size * size < uint_modulus)%N -> Matrix.new size = Ret (zero_matrix size).
Proof.
  intros Hov. unfold Matrix.new, Matrix.init, uint_mul. rewrite uint_small by exact Hov.
  fold (zero_matrix size). simpl Matrix.M.
  pose proof (zero_matrix_wf size Hov) as Hwf.
  destruct (for_up_inv (fun _ m => m = zero_matrix size)
              (fun i m1 =>
                 for_up (fun j m2 => Matrix.store m2
                           (Matrix.subscript m2 (N.of_nat i) (N.of_nat j)) 0%R)
                        0 (N.to_nat (Matrix.M m1)) m1)
              (N.to_nat size) 0 (zero_matrix size) eq_refl) as (m & Hm & ->);
    [|exact Hm].
  intros i m1 Hi ->. simpl Matrix.M.
  destruct (for_up_inv (fun _ m => m = zero_matrix size)
              (fun j m2 => Matrix.store m2
                             (Matrix.subscript m2 (N.of_nat i) (N.of_nat j)) 0%R)
              (N.to_nat size) 0 (zero_matrix size) eq_refl) as (m & Hm & ->);
    [|eauto].
  intros j m2 Hj ->. exists (zero_matrix size). split; [|reflexivity].
  destruct (subscript_in_range (zero_matrix size) (N.of_nat i) (N.of_nat j) Hwf)
    as [_ Hlt]; [simpl; lia..|].
  destruct (store_wf (zero_matrix size) _ 0%R Hwf Hlt) as [-> _].
  unfold zero_matrix. simpl. rewrite insert_replicate. reflexivity.
Qed.

Lemma uint_modulus_value : uint_modulus = 4294967296%N.
Proof. reflexivity. Qed.

Lemma uint_lt (x : N) : (uint x < uint_modulus)%N.
Proof. unfold uint. apply N.mod_lt. rewrite uint_modulus_value. lia. Qed.

Lemma store_Ret_inv (m m' : Matrix.t) (k : nat) (v : R) :
  Matrix.store m k v = Ret m' ->
  Matrix.M m' = Matrix.M m
  /\ length (Matrix.data m') = length (Matrix.data m)
  /\ (k < length (Matrix.data m))%nat.
Proof.
  unfold Matrix.store, vec_put. destruct (decide _) as [Hk|Hk]; simpl; [|discriminate].
  intros H. inversion H; subst; simpl. rewrite length_insert. auto.
Qed.

Lemma init_row_shape (i : nat) (count lo : nat) (m m' : Matrix.t) :
  for_up (fun j m2 => Matrix.store m2 (Matrix.subscript m2 (N.of_nat i) (N.of_nat j)) 0%R)
         lo count m = Ret m' ->
  Matrix.M m' = Matrix.M m /\ length (Matrix.data m') = length (Matrix.data m).
Proof.
  intros Hrun.
  apply (for_up_Ret_inv
           (fun _ x => Matrix.M x = Matrix.M m
                       /\ length (Matrix.data x) = length (Matrix.data m)) _ _ _ _ _ Hrun);
    [auto|].
  intros k t t' _ [HM HL] Hst. apply store_Ret_inv in Hst as (-> & -> & _). auto.
Qed.

Lemma init_shape (m m' : Matrix.t) :
  Matrix.init m = Ret m' ->
  Matrix.M m' = Matrix.M m /\ length (Matrix.data m') = length (Matrix.data m).
Proof.
  intros Hrun. unfold Matrix.init in Hrun.
  apply (for_up_Ret_inv
           (fun _ x => Matrix.M x = Matrix.M m
                       /\ length (Matrix.data x) = length (Matrix.data m)) _ _ _ _ _ Hrun);
    [auto|].
  intros k u u' _ [HM HL] Hrow. apply init_row_shape in Hrow as [-> ->]. auto.
Qed.

(** When [M * M] wraps around, [init] writes outside [data]. *)
Lemma new_Ret_fits (size : N) (m : Matrix.t) :
  Matrix.new size = Ret m -> (size * size < uint_modulus)%N.
Proof.
  intros Hrun. destruct (N.lt_ge_cases (size * size) uint_modulus) as [H|H]; [exact H|].
  exfalso.
  pose proof uint_modulus_value as HV.
  assert (Hs : size <> 0%N) by (intros ->; lia).
  set (top := (uint_modulus - 1)%N).
  set (ib := (top / size)%N). set (jb := (top mod size)%N).
  assert (Hib : (ib < size)%N) by (apply N.Div0.div_lt_upper_bound; subst top; lia).
  assert (Hjb : (jb < size)%N) by (apply N.mod_lt; exact Hs).
  assert (Hsum : (ib * size + jb = top)%N).
  { subst ib jb. rewrite (N.div_mod top size Hs) at 3. lia. }
  unfold Matrix.new, Matrix.init in Hrun. simpl Matrix.M in Hrun.
  set (m0 := Matrix.mk size (replicate (N.to_nat (uint_mul size size)) 0%R)) in Hrun.
  assert (HL0 : length (Matrix.data m0) = N.to_nat (uint_mul size size))
    by (simpl; apply length_replicate).
  destruct (for_up_Ret_at _ _ _ _ _ (N.to_nat ib) Hrun ltac:(lia)) as (t & t' & Ht & Hbody).
  assert (Hshape : Matrix.M t = size /\ length (Matrix.data t) = length (Matrix.data m0)).
  { apply (for_up_Ret_inv
             (fun _ x => Matrix.M x = size
                         /\ length (Matrix.data x) = length (Matrix.data m0)) _ _ _ _ _ Ht);
      [auto|].
    intros k u u' _ [HM HL] Hrow. apply init_row_shape in Hrow as [-> ->]. auto. }
  destruct Hshape as [HMt HLt]. rewrite HMt in Hbody.
  destruct (for_up_Ret_at _ _ _ _ _ (N.to_nat jb) Hbody ltac:(lia)) as (u & u' & Hu & Hst).
  apply init_row_shape in Hu as [HMu HLu].
  apply store_Ret_inv in Hst as (_ & _ & Hlt).
  rewrite HLu, HLt, HL0 in Hlt.
  unfold Matrix.subscript in Hlt. rewrite HMu, HMt, !N2Nat.id in Hlt.
  unfold uint_add, uint_mul in Hlt.
  rewrite (uint_small (ib * size)) in Hlt by lia.
  rewrite (uint_small (ib * size + jb)) in Hlt by lia.
  pose proof (uint_lt (size * size)). lia.
Qed.

Lemma new_spec (size : N) (m : Matrix.t) :
  Matrix.new size = Ret m <-> (size * size < uint_modulus)%N /\ m = zero_matrix size.
Proof.
  split.
  - intros Hrun. pose proof (new_Ret_fits size m Hrun) as Hov.
    rewrite (new_fits size Hov) in Hrun. inversion Hrun. auto.
  - intros [Hov ->]. apply new_fits. exact Hov.
Qed.

(** Every object a program can hold satisfies the storage invariant and
    keeps the size it was constructed with. *)
Lemma reachable_wf (size : N) (m : Matrix.t) :
  Matrix.reachable size m -> Matrix_wf m /\ Matrix.M m = size.
Proof.
  induction 1 as [m Hnew | m c m' r Hreach [Hwf HM] Hcall].
  - apply new_spec in Hnew as [Hov ->]. split; [apply zero_matrix_wf; exact Hov | reflexivity].
  - destruct c as [| i j | v i j]; simpl in Hcall.
    + apply bind_Ret_inv in Hcall as (m1 & Hinit & Hx). inversion Hx; subst.
      apply init_shape in Hinit as [HM' HL']. destruct Hwf as [Hov Hlen].
      split; [split|]; [rewrite HM'; exact Hov | rewrite HL', HM'; exact Hlen | exact HM'].
    + apply bind_Ret_inv in Hcall as (x & _ & Hx). inversion Hx; subst. auto.
    + apply bind_Ret_inv in Hcall as (m1 & Hset & Hx). inversion Hx; subst.
      unfold Matrix.set in Hset. destruct (Matrix.in_range m i j) eqn:Hin; [|discriminate].
      apply in_range_true in Hin as [Hi Hj].
      destruct (subscript_in_range m i j Hwf Hi Hj) as [_ Hlt].
      destruct (store_wf m _ v Hwf Hlt) as [Hst Hwf']. rewrite Hst in Hset.
      inversion Hset; subst. split; [exact Hwf' | reflexivity].
Qed.

Lemma get_entry_N (m : Matrix.t) (i j : N) :
  Matrix_wf m -> (i < Matrix.M m)%N -> (j < Matrix.M m)%N ->
  Matrix.get m i j = Ret (entry m (N.to_nat i) (N.to_nat j)).
Proof.
  intros Hwf Hi Hj. rewrite <- (N2Nat.id i) at 1. rewrite <- (N2Nat.id j) at 1.
  apply get_entry; [exact Hwf | unfold order; lia..].
Qed.

Lemma set_upd_N (m : Matrix.t) (v : R) (i j : N) :
  Matrix_wf m -> (i < Matrix.M m)%N -> (j < Matrix.M m)%N ->
  Matrix.set m v i j = Ret (Matrix_upd m (N.to_nat i) (N.to_nat j) v).
Proof.
  intros Hwf Hi Hj. rewrite <- (N2Nat.id i) at 1. rewrite <- (N2Nat.id j) at 1.
  apply set_upd; [exact Hwf | unfold order; lia..].
Qed.

Lemma reachable_upd (size : N) (m : Matrix.t) (i j : nat) (v : R) :
  Matrix.reachable size m -> (i < order m)%nat -> (j < order m)%nat ->
  Matrix.reachable size (Matrix_upd m i j v).
Proof.
  intros Hreach Hi Hj. destruct (reachable_wf size m Hreach) as [Hwf _].
  apply (Matrix.reach_invoke size m (Matrix.call_set v (N.of_nat i) (N.of_nat j)) _ None);
    [exact Hreach|].
  simpl. rewrite set_upd by assumption. reflexivity.
Qed.

Lemma two_by_two_reachable : Matrix.reachable 2 (zero_matrix 2).
Proof. apply Matrix.reach_new, new_fits. rewrite uint_modulus_value. lia. Qed.

Lemma upper_2x2_reachable : Matrix.reachable 2 upper_2x2.
Proof.
  unfold upper_2x2.
  repeat (apply reachable_upd; [| unfold order; simpl; lia..]).
  exact two_by_two_reachable.
Qed.

Lemma upper_2x2_entries :
  entry upper_2x2 0 0 = 2 /\ entry upper_2x2 0 1 = 1
  /\ entry upper_2x2 1 0 = 0 /\ entry upper_2x2 1 1 = 4.
Proof. unfold entry, upper_2x2. simpl. auto. Qed.

(** ** C8 and C10: the bounds check and the effect of [set] *)

(** C8, with [init()] among the members that change the object. For a
    matrix constructed with size [M] (and used through its public members
    [init], [get] and [set] since): [get(i,j)] and [set(value,i,j)] throw
    the index error exactly when [i >= M] or [j >= M]; for [i < M] and
    [j < M] both return; every in-range [get] on the freshly constructed
    matrix returns [0]; [get] leaves the object as it is, and a call that
    changes the object is a call of [set] or of [init]. *)
Theorem Matrix_bounds_check (size : N) (m : Matrix.t) (i j : N) (value : R) :
  Matrix.reachable size m ->
  (Matrix.get m i j = Throw Matrix.index_message <-> (size <= i)%N \/ (size <= j)%N)
  /\ (Matrix.set m value i j = Throw Matrix.index_message
      <-> (size <= i)%N \/ (size <= j)%N)
  /\ ((i < size)%N /\ (j < size)%N ->
      (exists x, Matrix.get m i j = Ret x) /\ (exists m', Matrix.set m value i j = Ret m'))
  /\ (forall m0, Matrix.new size = Ret m0 -> (i < size)%N -> (j < size)%N ->
                 Matrix.get m0 i j = Ret 0%R)
  /\ (forall i' j' m' r, Matrix.invoke m (Matrix.call_get i' j') = Ret (m', r) -> m' = m)
  /\ (forall c m' r, Matrix.invoke m c = Ret (m', r) -> m' <> m ->
                     c = Matrix.call_init \/ exists v i' j', c = Matrix.call_set v i' j').
Proof.
  intros Hreach. destruct (reachable_wf size m Hreach) as [Hwf HM].
  assert (Hin : (i < size)%N /\ (j < size)%N ->
                Matrix.get m i j = Ret (entry m (N.to_nat i) (N.to_nat j))
                /\ Matrix.set m value i j
                   = Ret (Matrix_upd m (N.to_nat i) (N.to_nat j) value)).
  { intros [Hi Hj]. rewrite <- HM in Hi, Hj.
    split; [apply get_entry_N | apply set_upd_N]; assumption. }
  assert (Hconst : forall i' j' m' r,
             Matrix.invoke m (Matrix.call_get i' j') = Ret (m', r) -> m' = m).
  { intros i' j' m' r Hcall. simpl in Hcall.
    apply bind_Ret_inv in Hcall as (x & _ & Hx). inversion Hx; subst. reflexivity. }
  split; [split|].
  { intros Hthrow. destruct (N.lt_ge_cases i size) as [Hi|Hi]; [|auto].
    destruct (N.lt_ge_cases j size) as [Hj|Hj]; [|auto].
    destruct (Hin (conj Hi Hj)) as [Hget _]. rewrite Hget in Hthrow. discriminate. }
  { intros H. apply get_throw. rewrite HM. exact H. }
  split; [split|].
  { intros Hthrow. destruct (N.lt_ge_cases i size) as [Hi|Hi]; [|auto].
    destruct (N.lt_ge_cases j size) as [Hj|Hj]; [|auto].
    destruct (Hin (conj Hi Hj)) as [_ Hset]. rewrite Hset in Hthrow. discriminate. }
  { intros H. apply set_throw. rewrite HM. exact H. }
  split.
  { intros H. destruct (Hin H) as [Hget Hset]. eauto. }
  split.
  { intros m0 Hnew Hi Hj. apply new_spec in Hnew as [Hov ->].
    rewrite get_entry_N; [|apply zero_matrix_wf; exact Hov|exact Hi|exact Hj].
    rewrite entry_zero_matrix. reflexivity. }
  split; [exact Hconst|].
  intros c m' r Hcall Hne. destruct c as [| i' j' | v i' j']; [auto | | eauto].
  apply Hconst in Hcall. contradiction.
Qed.

Lemma Matrix_bounds_check_witness :
  Matrix.reachable 2 (zero_matrix 2)
  /\ (Matrix.get (zero_matrix 2) 1 2 = Throw Matrix.index_message
      <-> (2 <= 1)%N \/ (2 <= 2)%N).
Proof.
  split; [exact two_by_two_reachable|].
  exact (proj1 (Matrix_bounds_check 2 (zero_matrix 2) 1 2 0%R two_by_two_reachable)).
Defined.

(** C8, the sentence that nothing but [set] changes the matrix: [init()] is
    a public member, and a call of it on the matrix [[2, 1], [0, 4]], which
    the constructor and three calls of [set] build, returns the zero
    matrix: [get(0, 0)] is [2] before the call and [0] after it. *)
Lemma Matrix_init_mutates :
  Matrix.reachable 2 upper_2x2
  /\ Matrix.invoke upper_2x2 Matrix.call_init = Ret (zero_matrix 2, None)
  /\ Matrix.get upper_2x2 0 0 = Ret 2
  /\ Matrix.get (zero_matrix 2) 0 0 = Ret 0
  /\ ~ (forall c m' r,
          Matrix.invoke upper_2x2 c = Ret (m', r) -> m' <> upper_2x2 ->
          exists v i j, c = Matrix.call_set v i j).
Proof.
  assert (Hcall : Matrix.invoke upper_2x2 Matrix.call_init = Ret (zero_matrix 2, None))
    by reflexivity.
  assert (Hget : Matrix.get upper_2x2 0 0 = Ret 2) by reflexivity.
  assert (Hget0 : Matrix.get (zero_matrix 2) 0 0 = Ret 0) by reflexivity.
  split; [exact upper_2x2_reachable|].
  split; [exact Hcall|]. split; [exact Hget|]. split; [exact Hget0|].
  intros Hall. destruct (Hall _ _ _ Hcall) as (v & i & j & Hc); [|discriminate Hc].
  intros Heq. rewrite Heq, Hget in Hget0. inversion Hget0. lra.
Qed.

(** C10. On a matrix of size [M], for in-range [(i,j)]: [set(v,i,j)]
    returns, a following [get(i,j)] returns [v], [get(i',j')] is unchanged
    for every other in-range pair, and no other entry of the storage is
    touched. *)
Theorem Matrix_set_get (size : N) (m : Matrix.t) (i j : N) (v : R) :
  Matrix.reachable size m -> (i < size)%N -> (j < size)%N ->
  exists m',
    Matrix.set m v i j = Ret m'
    /\ Matrix.get m' i j = Ret v
    /\ (forall i' j', (i' < size)%N -> (j' < size)%N -> (i', j') <> (i, j) ->
                      Matrix.get m' i' j' = Matrix.get m i' j')
    /\ Matrix.M m' = Matrix.M m
    /\ length (Matrix.data m') = length (Matrix.data m)
    /\ (forall k, k <> Matrix.subscript m i j ->
                  Matrix.data m' !! k = Matrix.data m !! k).
Proof.
  intros Hreach Hi Hj. destruct (reachable_wf size m Hreach) as [Hwf HM].
  rewrite <- HM in Hi, Hj.
  exists (Matrix_upd m (N.to_nat i) (N.to_nat j) v).
  pose proof (upd_wf m (N.to_nat i) (N.to_nat j) v Hwf) as Hwf'.
  assert (Hi' : (N.to_nat i < order m)%nat) by (unfold order; lia).
  assert (Hj' : (N.to_nat j < order m)%nat) by (unfold order; lia).
  split; [apply set_upd_N; assumption|].
  split; [rewrite get_entry_N by assumption; rewrite entry_upd_eq by assumption;
          reflexivity|].
  split.
  { intros i' j' Hi2 Hj2 Hne. rewrite <- HM in Hi2, Hj2.
    rewrite !get_entry_N by assumption.
    rewrite entry_upd_ne; [reflexivity | exact Hj' | unfold order; lia |].
    intros Heq. apply Hne. inversion Heq as [[H1 H2]].
    apply N2Nat.inj in H1, H2. subst. reflexivity. }
  split; [reflexivity|]. split; [simpl; apply length_insert|].
  intros k Hk. simpl. apply list_lookup_insert_ne.
  destruct (subscript_in_range m i j Hwf Hi Hj) as [Hsub _]. rewrite Hsub in Hk.
  intros Heq. apply Hk. symmetry. exact Heq.
Qed.

Lemma Matrix_set_get_witness :
  Matrix.reachable 2 (zero_matrix 2) /\ (0 < 2)%N /\ (1 < 2)%N
  /\ exists m',
       Matrix.set (zero_matrix 2) 5%R 0 1 = Ret m' /\ Matrix.get m' 0 1 = Ret 5%R.
Proof.
  split; [exact two_by_two_reachable|]. split; [lia|]. split; [lia|].
  destruct (Matrix_set_get 2 (zero_matrix 2) 0 1 5%R two_by_two_reachable)
    as (m' & Hset & Hget & _); [lia | lia |].
  exists m'. split; [exact Hset | exact Hget].
Defined.

(** ** Back substitution *)

Lemma sum_range_ext (f g : nat -> R) (count lo : nat) :
  (forall j, (lo <= j < lo + count)%nat -> f j = g j) ->
  sum_range f lo count = sum_range g lo count.
Proof.
  revert lo. induction count as [|count IH]; intros lo H; simpl; [reflexivity|].
  rewrite (H lo) by lia. rewrite (IH (S lo)); [reflexivity|]. intros j Hj. apply H. lia.
Qed.

Lemma sum_range_app (f : nat -> R) (c1 c2 lo : nat) :
  sum_range f lo (c1 + c2) = sum_range f lo c1 + sum_range f (lo + c1) c2.
Proof.
  revert lo. induction c1 as [|c1 IH]; intros lo; simpl.
  - rewrite Nat.add_0_r. lra.
  - rewrite IH. replace (S lo + c1)%nat with (lo + S c1)%nat by lia. lra.
Qed.

Lemma sum_range_zero (f : nat -> R) (count lo : nat) :
  (forall j, (lo <= j < lo + count)%nat -> f j = 0) -> sum_range f lo count = 0.
Proof.
  revert lo. induction count as [|count IH]; intros lo H; simpl; [reflexivity|].
  rewrite (H lo) by lia. rewrite IH; [lra|]. intros j Hj. apply H. lia.
Qed.

Lemma nth_insert_eq {A : Type} (l : list A) (i : nat) (x d : A) :
  (i < length l)%nat -> nth i (<[i:=x]> l) d = x.
Proof. intros H. rewrite nth_lookup, list_lookup_insert_eq by exact H. reflexivity. Qed.

Lemma nth_insert_ne {A : Type} (l : list A) (i j : nat) (x d : A) :
  i <> j -> nth j (<[i:=x]> l) d = nth j l d.
Proof. intros H. rewrite !nth_lookup, list_lookup_insert_ne by exact H. reflexivity. Qed.

Lemma vec_get_nth {A : Type} (l : list A) (i : nat) (d : A) :
  (i < length l)%nat -> vec_get l i = Ret (nth i l d).
Proof.
  intros H. unfold vec_get. rewrite nth_lookup.
  destruct (lookup_lt_is_Some_2 l i H) as [x ->]. reflexivity.
Qed.

(** The inner loop of [backward_substitution], lines 149-152. *)
Lemma subtract_row (matrix : Matrix.t) (dst : list R) (i : nat) (count lo : nat) (value : R) :
  Matrix_wf matrix -> (i < order matrix)%nat ->
  (lo + count <= length dst)%nat -> (length dst <= order matrix)%nat ->
  for_up (fun j value =>
            let* m_ij := Matrix.get matrix (N.of_nat i) (N.of_nat j) in
            let* dst_j := vec_get dst j in
            Ret (value - m_ij * dst_j))
         lo count value
  = Ret (value - sum_range (fun j => entry matrix i j * nth j dst 0) lo count).
Proof.
  intros Hwf Hi. revert lo value.
  induction count as [|count IH]; intros lo value Hlo Hn; simpl.
  - f_equal. lra.
  - rewrite get_entry by (auto; lia). simpl.
    rewrite (vec_get_nth dst lo 0) by lia. simpl.
    rewrite IH by lia. f_equal. lra.
Qed.

(** What one run of [backward_substitution] computes: it returns when
    [dst] is no longer than the order of the matrix and than [rhs], and its
    result obeys the recurrence of the loop. *)
Lemma backward_substitution_runs (matrix : Matrix.t) (dst rhs : list R) :
  Matrix_wf matrix ->
  (length dst <= order matrix)%nat -> (length dst <= length rhs)%nat ->
  exists x,
    backward_substitution matrix dst rhs = Ret x
    /\ length x = length dst
    /\ forall i, (i < length dst)%nat ->
         nth i x 0 = (nth i rhs 0 - row_tail matrix x (length dst) i) / entry matrix i i.
Proof.
  intros Hwf Hord Hrhs. unfold backward_substitution.
  set (n := length dst).
  destruct (for_down_inv
    (fun k x => length x = n
                /\ forall i, (k <= i < n)%nat ->
                     nth i x 0 = (nth i rhs 0 - row_tail matrix x n i) / entry matrix i i)
    (fun i dst =>
       let* rhs_i := vec_get rhs i in
       let* value :=
         for_up (fun j value =>
                   let* m_ij := Matrix.get matrix (N.of_nat i) (N.of_nat j) in
                   let* dst_j := vec_get dst j in
                   Ret (value - m_ij * dst_j))
                (i + 1) (n - (i + 1)) rhs_i in
       let* m_ii := Matrix.get matrix (N.of_nat i) (N.of_nat i) in
       vec_put dst i (value / m_ii)) n dst) as (x & Hx & Hlen & Hrec).
  - split; [reflexivity | intros i Hi; lia].
  - intros k x Hk [Hlen Hrec].
    rewrite (vec_get_nth rhs k 0) by (fold n in Hrhs; lia). simpl.
    rewrite subtract_row by (auto; lia). simpl.
    rewrite get_entry by (auto; fold n in Hord; lia). simpl.
    rewrite vec_put_Ret by lia. eexists. split; [reflexivity|].
    split; [rewrite length_insert; exact Hlen|].
    assert (Htail : forall i, (k <= i < n)%nat ->
              row_tail matrix (<[k:=(nth k rhs 0
                   - sum_range (fun j => entry matrix k j * nth j x 0) (k + 1) (n - (k + 1)))
                   / entry matrix k k]> x) n i = row_tail matrix x n i).
    { intros i Hi. unfold row_tail. apply sum_range_ext. intros j Hj.
      rewrite nth_insert_ne by lia. reflexivity. }
    intros i Hi. rewrite Htail by exact Hi.
    destruct (decide (i = k)) as [->|Hne].
    + rewrite nth_insert_eq by lia. reflexivity.
    + rewrite nth_insert_ne by lia. apply Hrec. lia.
  - exists x. split; [exact Hx|]. split; [exact Hlen|]. intros i Hi. apply Hrec. lia.
Qed.

Lemma row_times_split (matrix : Matrix.t) (x : list R) (n i : nat) :
  (i < n)%nat ->
  row_times matrix x n i
  = sum_range (fun j => entry matrix i j * nth j x 0) 0 i
    + entry matrix i i * nth i x 0 + row_tail matrix x n i.
Proof.
  intros Hi. unfold row_times, row_tail.
  replace n with (i + S (n - (i + 1)))%nat at 1 by lia.
  rewrite sum_range_app. simpl. replace (i + 1)%nat with (S i) by lia. lra.
Qed.

Lemma upper_triangular_row (matrix : Matrix.t) (x : list R) (n i : nat) :
  (forall r c, (c < r < n)%nat -> entry matrix r c = 0) -> (i < n)%nat ->
  row_times matrix x n i = entry matrix i i * nth i x 0 + row_tail matrix x n i.
Proof.
  intros Hup Hi. rewrite row_times_split by exact Hi.
  rewrite sum_range_zero; [lra|]. intros j Hj. rewrite Hup by lia. lra.
Qed.

(** C3. For an [n]-by-[n] upper-triangular matrix with non-zero diagonal
    and a right-hand side of length [n], [backward_substitution] returns
    [dst] with [dst[i] = (rhs[i] - sum_{j>i} R[i][j]*dst[j]) / R[i][i]] for
    every [i]; that [dst] satisfies [R * dst = rhs], and it is the only
    solution: with [rhs = R * x] the call returns [x]. *)
Theorem backward_substitution_solves (n : nat) (matrix : Matrix.t) (dst rhs : list R) :
  Matrix.reachable (N.of_nat n) matrix ->
  length dst = n -> length rhs = n ->
  (forall i j, (j < i < n)%nat -> entry matrix i j = 0) ->
  (forall i, (i < n)%nat -> entry matrix i i <> 0) ->
  exists x,
    backward_substitution matrix dst rhs = Ret x
    /\ length x = n
    /\ (forall i, (i < n)%nat ->
          nth i x 0 = (nth i rhs 0 - row_tail matrix x n i) / entry matrix i i)
    /\ (forall i, (i < n)%nat -> row_times matrix x n i = nth i rhs 0)
    /\ (forall x0, length x0 = n ->
          (forall i, (i < n)%nat -> row_times matrix x0 n i = nth i rhs 0) -> x = x0).
Proof.
  intros Hreach Hdst Hrhs Hup Hdiag.
  destruct (reachable_wf _ _ Hreach) as [Hwf HM].
  assert (Hord : order matrix = n) by (unfold order; rewrite HM; lia).
  destruct (backward_substitution_runs matrix dst rhs Hwf) as (x & Hx & Hlen & Hrec);
    [lia | lia |].
  rewrite Hdst in Hlen, Hrec.
  assert (Hsol : forall i, (i < n)%nat -> row_times matrix x n i = nth i rhs 0).
  { intros i Hi. rewrite upper_triangular_row by assumption.
    rewrite (Hrec i Hi) at 1. field. apply Hdiag. exact Hi. }
  exists x. repeat split; try assumption.
  intros x0 Hlen0 Hsol0.
  assert (Hsame : forall k i, (n - k <= i < n)%nat -> nth i x 0 = nth i x0 0).
  { induction k as [|k IH]; intros i Hi; [lia|].
    destruct (decide (n - k <= i)%nat) as [Hin|Hout]; [apply IH; lia|].
    rewrite (Hrec i) by lia.
    pose proof (Hsol0 i ltac:(lia)) as H0.
    rewrite upper_triangular_row in H0 by (assumption || lia).
    assert (Htail : row_tail matrix x n i = row_tail matrix x0 n i).
    { unfold row_tail. apply sum_range_ext. intros j Hj. rewrite IH by lia. reflexivity. }
    rewrite Htail, <- H0. field. apply Hdiag. lia. }
  apply (nth_ext _ _ 0 0); [lia|]. intros i Hi. apply (Hsame n). lia.
Qed.

Lemma backward_substitution_solves_witness :
  Matrix.reachable 2 upper_2x2
  /\ exists x,
       backward_substitution upper_2x2 [0; 0] [5; 8] = Ret x
       /\ row_times upper_2x2 x 2 0 = 5 /\ row_times upper_2x2 x 2 1 = 8.
Proof.
  split; [exact upper_2x2_reachable|].
  destruct upper_2x2_entries as (E00 & E01 & E10 & E11).
  destruct (backward_substitution_solves 2 upper_2x2 [0; 0] [5; 8])
    as (x & Hx & _ & _ & Hsol & _).
  - exact upper_2x2_reachable.
  - reflexivity.
  - reflexivity.
  - intros i j Hij. assert (i = 1%nat /\ j = 0%nat) as [-> ->] by lia. exact E10.
  - intros i Hi. destruct i as [|[|i]]; [rewrite E00; lra | rewrite E11; lra | lia].
  - exists x. split; [exact Hx|]. split; [apply (Hsol 0%nat); lia | apply (Hsol 1%nat); lia].
Defined.

(** ** C6: what the back substitutions check *)

Lemma backward_substitution_throws (matrix : Matrix.t) (dst rhs : list R) :
  (order matrix < length dst)%nat -> (length dst <= length rhs)%nat ->
  backward_substitution matrix dst rhs = Throw Matrix.index_message.
Proof.
  intros Hord Hrhs. unfold backward_substitution.
  destruct (length dst) as [|n'] eqn:Hn; [lia|]. simpl.
  rewrite (vec_get_nth rhs n' 0) by lia. simpl.
  replace (S n' - (n' + 1))%nat with 0%nat by lia. simpl.
  rewrite get_throw by (unfold order in Hord; lia). reflexivity.
Qed.

Lemma backward_substitution_multiple_rhs_throws
  (matrix : Matrix.t) (dst rhs : list VectorType) :
  (order matrix < length dst)%nat -> (length dst <= length rhs)%nat ->
  backward_substitution_multiple_rhs matrix dst rhs = Throw Matrix.index_message.
Proof.
  intros Hord Hrhs. unfold backward_substitution_multiple_rhs.
  destruct (length dst) as [|n'] eqn:Hn; [lia|]. simpl.
  rewrite (vec_get_nth rhs n' []) by lia. simpl.
  replace (S n' - (n' + 1))%nat with 0%nat by lia. simpl.
  rewrite get_throw by (unfold order in Hord; lia). reflexivity.
Qed.

(** With [rhs] shorter than [dst] the first statement of the loop,
    [rhs[n - 1]], reads outside [rhs]: no error is raised there either. *)
Lemma backward_substitution_short_rhs (matrix : Matrix.t) (dst rhs : list R) :
  (length rhs < length dst)%nat -> backward_substitution matrix dst rhs = Undef.
Proof.
  intros Hrhs. unfold backward_substitution.
  destruct (length dst) as [|n'] eqn:Hn; [lia|]. simpl.
  unfold vec_get. rewrite lookup_ge_None_2 by lia. reflexivity.
Qed.

Lemma backward_substitution_multiple_rhs_runs
  (matrix : Matrix.t) (dst rhs : list VectorType) :
  Matrix_wf matrix ->
  (length dst <= order matrix)%nat -> (length dst <= length rhs)%nat ->
  exists x, backward_substitution_multiple_rhs matrix dst rhs = Ret x
            /\ length x = length dst.
Proof.
  intros Hwf Hord Hrhs. unfold backward_substitution_multiple_rhs.
  set (n := length dst). fold n in Hord, Hrhs.
  destruct (for_down_inv (fun _ (x : list VectorType) => length x = n)
    (fun i dst =>
       let* rhs_i := vec_get rhs i in
       let* value :=
         for_up (fun j value =>
                   let* m_ij := Matrix.get matrix (N.of_nat i) (N.of_nat j) in
                   let* dst_j := vec_get dst j in
                   Ret (add value (- m_ij) dst_j))
                (i + 1) (n - (i + 1)) rhs_i in
       let* m_ii := Matrix.get matrix (N.of_nat i) (N.of_nat i) in
       let* dst_i := vec_get dst i in
       vec_put dst i (equ dst_i (1 / m_ii) value)) n dst eq_refl) as (x & Hx & Hlen);
    [|eauto].
  intros k x Hk Hlen.
  rewrite (vec_get_nth rhs k []) by lia. simpl.
  destruct (for_up_inv (fun _ (_ : VectorType) => True)
    (fun j value =>
       let* m_ij := Matrix.get matrix (N.of_nat k) (N.of_nat j) in
       let* dst_j := vec_get x j in
       Ret (add value (- m_ij) dst_j))
    (n - (k + 1)) (k + 1) (nth k rhs []) I) as (value & -> & _).
  { intros j v Hj _. rewrite get_entry by (auto; lia). simpl.
    rewrite (vec_get_nth x j []) by lia. simpl. eauto. }
  simpl. rewrite get_entry by (auto; lia). simpl.
  rewrite (vec_get_nth x k []) by lia. simpl.
  rewrite vec_put_Ret by lia. eexists. split; [reflexivity|].
  rewrite length_insert. exact Hlen.
Qed.

Lemma unit_1x1_reachable : Matrix.reachable 1 unit_1x1.
Proof.
  apply reachable_upd; [| unfold order; simpl; lia..].
  apply Matrix.reach_new, new_fits. rewrite uint_modulus_value. lia.
Qed.

(** C6, as stated, fails: with a 1-by-1 matrix, [dst] of size 1 and [rhs]
    of size 2 the sizes differ, and both functions return a result. *)
Lemma backward_substitution_longer_rhs_returns :
  Matrix.reachable 1 unit_1x1
  /\ length [2; 5] <> length [0]
  /\ backward_substitution unit_1x1 [0] [2; 5] = Ret [2 / 1]
  /\ length [[2]; [5]] <> length [[0]]
  /\ backward_substitution_multiple_rhs unit_1x1 [[0]] [[2]; [5]] = Ret [[1 / 1 * 2]].
Proof.
  split; [exact unit_1x1_reachable|].
  split; [simpl; lia|]. split; [reflexivity|]. split; [simpl; lia | reflexivity].
Qed.

(** C6, amended. Both back substitutions throw the index error of
    [Matrix::get] when [dst.size()] exceeds the matrix dimension [M] and
    [rhs] has at least [dst.size()] entries. Neither compares [rhs.size()]
    with [dst.size()]: when [dst.size() <= M] and [rhs] is longer than
    [dst], both return. *)
Theorem backward_substitution_size_errors
  (size : N) (matrix : Matrix.t) (dst rhs : list R) (dst_v rhs_v : list VectorType) :
  Matrix.reachable size matrix ->
  ((N.to_nat size < length dst <= length rhs)%nat ->
     backward_substitution matrix dst rhs = Throw Matrix.index_message)
  /\ ((N.to_nat size < length dst_v <= length rhs_v)%nat ->
        backward_substitution_multiple_rhs matrix dst_v rhs_v
        = Throw Matrix.index_message)
  /\ ((length dst <= N.to_nat size)%nat -> (length dst < length rhs)%nat ->
        exists x, backward_substitution matrix dst rhs = Ret x)
  /\ ((length dst_v <= N.to_nat size)%nat -> (length dst_v < length rhs_v)%nat ->
        exists x, backward_substitution_multiple_rhs matrix dst_v rhs_v = Ret x).
Proof.
  intros Hreach. destruct (reachable_wf _ _ Hreach) as [Hwf HM].
  assert (Hord : order matrix = N.to_nat size) by (unfold order; rewrite HM; reflexivity).
  repeat split.
  - intros H. apply backward_substitution_throws; lia.
  - intros H. apply backward_substitution_multiple_rhs_throws; lia.
  - intros H1 H2.
    destruct (backward_substitution_runs matrix dst rhs Hwf) as (x & Hx & _); [lia..|eauto].
  - intros H1 H2.
    destruct (backward_substitution_multiple_rhs_runs matrix dst_v rhs_v Hwf)
      as (x & Hx & _); [lia..|eauto].
Qed.

Lemma backward_substitution_size_errors_witness :
  Matrix.reachable 1 unit_1x1
  /\ backward_substitution unit_1x1 [0; 0] [2; 5] = Throw Matrix.index_message.
Proof.
  split; [exact unit_1x1_reachable|].
  apply (backward_substitution_size_errors 1 unit_1x1 [0; 0] [2; 5] [] []
           unit_1x1_reachable).
  simpl. lia.
Defined.

(** ** C7: the two back substitutions, side by side *)




Lemma length_add (v w : VectorType) (a : R) :
  length w = length v -> length (add v a w) = length v.
Proof. intros H. unfold add. rewrite length_zip_with. lia. Qed.

Lemma length_equ (this V : VectorType) (a : R) :
  length V = length this -> length (equ this a V) = length this.
Proof. intros H. unfold equ. rewrite length_zip_with. lia. Qed.

Lemma component_zip_with (f : R -> R -> R) (v w : VectorType) (c : nat) :
  length w = length v -> f 0 0 = 0 ->
  component c (zip_with f v w) = f (component c v) (component c w).
Proof.
  unfold component. revert w c. induction v as [|x v IH]; intros [|y w] c Hlen H0;
    simpl in Hlen; try discriminate.
  - destruct c; simpl; symmetry; exact H0.
  - destruct c as [|c]; simpl; [reflexivity|]. apply IH; [lia | exact H0].
Qed.

Lemma component_add (v w : VectorType) (a : R) (c : nat) :
  length w = length v ->
  component c (add v a w) = component c v + a * component c w.
Proof. intros H. unfold add. rewrite component_zip_with by (auto; lra). reflexivity. Qed.

Lemma component_equ (this V : VectorType) (a : R) (c : nat) :
  length V = length this -> component c (equ this a V) = a * component c V.
Proof. intros H. unfold equ. rewrite component_zip_with by (auto; lra). reflexivity. Qed.

Lemma component_map (f : R -> R) (v : VectorType) (c : nat) :
  f 0 = 0 -> component c (map f v) = f (component c v).
Proof.
  intros H0. unfold component. revert c. induction v as [|x v IH]; intros [|c]; simpl; auto.
Qed.



(** The template read in the real numbers is the exact model. *)
Lemma exact_get (m : Matrix.t) (i j : N) :
  Template.get (Template.of_exact m) i j = Matrix.get m i j.
Proof. reflexivity. Qed.

Lemma exact_set (m : Matrix.t) (v : R) (i j : N) :
  Template.set (Template.of_exact m) v i j = omap Template.of_exact (Matrix.set m v i j).
Proof.
  unfold Template.set, Matrix.set, Template.in_range, Matrix.in_range. simpl.
  destruct (_ && _); [|reflexivity].
  unfold Template.store, Matrix.store, Template.subscript, Matrix.subscript. simpl.
  destruct (vec_put _ _ _); reflexivity.
Qed.

Lemma for_up_omap {S1 S2 : Type} (f : S2 -> S1)
  (b1 : nat -> S1 -> outcome S1) (b2 : nat -> S2 -> outcome S2) (count lo : nat) (s : S2) :
  (forall k t, b1 k (f t) = omap f (b2 k t)) ->
  for_up b1 lo count (f s) = omap f (for_up b2 lo count s).
Proof.
  intros Hstep. revert lo s. induction count as [|count IH]; intros lo s; simpl;
    [reflexivity|].
  rewrite Hstep. destruct (b2 lo s) as [t| |]; simpl; [apply IH | reflexivity..].
Qed.

Lemma exact_init (m : Matrix.t) :
  Template.init Template.exact (Template.of_exact m) = omap Template.of_exact (Matrix.init m).
Proof.
  unfold Template.init, Matrix.init. apply for_up_omap. intros i t.
  apply for_up_omap. intros j u.
  unfold Template.store, Matrix.store, Template.subscript, Matrix.subscript. simpl.
  destruct (vec_put _ _ _); reflexivity.
Qed.

Lemma exact_new (size : N) :
  Template.new Template.exact size = omap Template.of_exact (Matrix.new size).
Proof.
  exact (exact_init (Matrix.mk size (replicate (N.to_nat (uint_mul size size)) 0%R))).
Qed.

Lemma exact_backward_substitution (m : Matrix.t) (dst rhs : list R) :
  Template.backward_substitution Template.exact (Template.of_exact m) dst rhs
  = backward_substitution m dst rhs.
Proof. reflexivity. Qed.

Lemma exact_backward_substitution_multiple_rhs (m : Matrix.t) (dst rhs : list VectorType) :
  Template.backward_substitution_multiple_rhs Template.exact (Template.of_exact m) dst rhs
  = backward_substitution_multiple_rhs m dst rhs.
Proof. reflexivity. Qed.


(** ** Field vectors of one size *)

Lemma vec_ext (v w : VectorType) :
  length v = length w -> (forall c, component c v = component c w) -> v = w.
Proof. intros Hlen H. apply (nth_ext _ _ 0 0); [exact Hlen | intros c _; apply H]. Qed.

Lemma length_assign_zero (v : VectorType) : length (assign_zero v) = length v.
Proof. apply length_map. Qed.

Lemma length_scale (v : VectorType) (a : R) : length (scale v a) = length v.
Proof. apply length_map. Qed.

Lemma length_vplus (v w : VectorType) : length w = length v -> length (vplus v w) = length v.
Proof. intros H. unfold vplus. rewrite length_zip_with. lia. Qed.

Lemma length_vminus (v w : VectorType) :
  length w = length v -> length (vminus v w) = length v.
Proof. intros H. unfold vminus. rewrite length_zip_with. lia. Qed.

Lemma length_vsmul (a : R) (v : VectorType) : length (vsmul a v) = length v.
Proof. apply length_map. Qed.

Lemma component_assign_zero (v : VectorType) (c : nat) : component c (assign_zero v) = 0.
Proof.
  unfold assign_zero. rewrite (component_map (fun _ => 0)) by reflexivity. reflexivity.
Qed.

Lemma component_scale (v : VectorType) (a : R) (c : nat) :
  component c (scale v a) = component c v * a.
Proof. unfold scale. rewrite (component_map (fun x => x * a)) by lra. reflexivity. Qed.

Lemma component_vplus (v w : VectorType) (c : nat) :
  length w = length v -> component c (vplus v w) = component c v + component c w.
Proof. intros H. unfold vplus. rewrite component_zip_with by (auto; lra). reflexivity. Qed.

Lemma component_vminus (v w : VectorType) (c : nat) :
  length w = length v -> component c (vminus v w) = component c v - component c w.
Proof. intros H. unfold vminus. rewrite component_zip_with by (auto; lra). reflexivity. Qed.

Lemma component_vsmul (a : R) (v : VectorType) (c : nat) :
  component c (vsmul a v) = a * component c v.
Proof. unfold vsmul. rewrite (component_map (Rmult a)) by lra. reflexivity. Qed.

Lemma length_weighted_sum (zero : VectorType) (p : list R) (V : list VectorType) :
  Forall (fun v => length v = length zero) V ->
  length (weighted_sum zero p V) = length zero.
Proof.
  unfold weighted_sum. revert V. induction p as [|x p IH]; intros [|v V] HV; simpl; auto.
  inversion HV as [|? ? Hv HV']; subst.
  rewrite length_vplus; [rewrite length_vsmul; exact Hv|].
  rewrite IH by exact HV'. rewrite length_vsmul. symmetry. exact Hv.
Qed.

(** Sizes, for [auto]: every operation on vectors of size [d] gives size [d]. *)
Create HintDb dims.

Lemma dim_add (d : nat) (v w : VectorType) (a : R) :
  length v = d -> length w = d -> length (add v a w) = d.
Proof. intros Hv Hw. rewrite length_add; lia. Qed.

Lemma dim_equ (d : nat) (this V : VectorType) (a : R) :
  length this = d -> length V = d -> length (equ this a V) = d.
Proof. intros Hv Hw. rewrite length_equ; lia. Qed.

Lemma dim_vplus (d : nat) (v w : VectorType) :
  length v = d -> length w = d -> length (vplus v w) = d.
Proof. intros Hv Hw. rewrite length_vplus; lia. Qed.

Lemma dim_vminus (d : nat) (v w : VectorType) :
  length v = d -> length w = d -> length (vminus v w) = d.
Proof. intros Hv Hw. rewrite length_vminus; lia. Qed.

Lemma dim_vsmul (d : nat) (a : R) (v : VectorType) : length v = d -> length (vsmul a v) = d.
Proof. intros Hv. rewrite length_vsmul. exact Hv. Qed.

Lemma dim_scale (d : nat) (v : VectorType) (a : R) : length v = d -> length (scale v a) = d.
Proof. intros Hv. rewrite length_scale. exact Hv. Qed.

Lemma dim_assign_zero (d : nat) (v : VectorType) : length v = d -> length (assign_zero v) = d.
Proof. intros Hv. rewrite length_assign_zero. exact Hv. Qed.

Lemma dim_weighted_sum (d : nat) (zero : VectorType) (p : list R) (V : list VectorType) :
  length zero = d -> Forall (fun v => length v = d) V ->
  length (weighted_sum zero p V) = d.
Proof. intros Hz HV. subst d. apply length_weighted_sum. exact HV. Qed.

#[local] Hint Resolve dim_add dim_equ dim_vplus dim_vminus dim_vsmul dim_scale
  dim_assign_zero dim_weighted_sum : dims.

(** Two vectors of size [d] are equal when their components are. *)
Lemma vec_ext_dim (d : nat) (v w : VectorType) :
  length v = d -> length w = d -> (forall c, component c v = component c w) -> v = w.
Proof. intros Hv Hw. apply vec_ext. lia. Qed.

Lemma component_add_dim (d : nat) (v w : VectorType) (a : R) (c : nat) :
  length v = d -> length w = d ->
  component c (add v a w) = component c v + a * component c w.
Proof. intros Hv Hw. apply component_add. lia. Qed.

Lemma component_vplus_dim (d : nat) (v w : VectorType) (c : nat) :
  length v = d -> length w = d ->
  component c (vplus v w) = component c v + component c w.
Proof. intros Hv Hw. apply component_vplus. lia. Qed.

Lemma component_vminus_dim (d : nat) (v w : VectorType) (c : nat) :
  length v = d -> length w = d ->
  component c (vminus v w) = component c v - component c w.
Proof. intros Hv Hw. apply component_vminus. lia. Qed.

(** Components of an expression over vectors of size [d]. *)
Ltac components d :=
  repeat first
    [ rewrite (component_add_dim d) by auto with dims
    | rewrite (component_vplus_dim d) by auto with dims
    | rewrite (component_vminus_dim d) by auto with dims
    | rewrite component_vsmul
    | rewrite component_scale
    | rewrite component_assign_zero ].

Lemma weighted_sum_cons (zero : VectorType) (x : R) (p : list R)
  (v : VectorType) (V : list VectorType) :
  weighted_sum zero (x :: p) (v :: V) = vplus (vsmul x v) (weighted_sum zero p V).
Proof. reflexivity. Qed.

(** The loops "add to b" and "add to a" against the sums of the specification. *)
Lemma add_loop_weighted_sum (d : nat) (zero acc : VectorType) (p : list R)
  (V : list VectorType) :
  length zero = d -> Forall (fun v => length v = d) V -> length acc = d ->
  (forall c, component c zero = 0) ->
  foldl (fun acc pv => add acc pv.1 pv.2) acc (zip p V)
  = vplus acc (weighted_sum zero p V).
Proof.
  intros Hzero HV Hacc Hz. revert V acc HV Hacc.
  induction p as [|x p IH]; intros V acc HV Hacc.
  - simpl. apply (vec_ext_dim d); auto with dims.
    intros c. components d. rewrite Hz. lra.
  - destruct V as [|v V]; simpl.
    + apply (vec_ext_dim d); auto with dims.
      intros c. components d. rewrite Hz. lra.
    + inversion HV as [|? ? Hv HV']; subst.
      rewrite IH by auto with dims. rewrite weighted_sum_cons.
      apply (vec_ext_dim (length zero)); auto 6 with dims.
      intros c. components (length zero). lra.
Qed.

Lemma sub_loop_weighted_sum (d : nat) (zero acc : VectorType) (p : list R)
  (V : list VectorType) :
  length zero = d -> Forall (fun v => length v = d) V -> length acc = d ->
  (forall c, component c zero = 0) ->
  foldl (fun acc pv => add acc (- pv.1) pv.2) acc (zip p V)
  = vminus acc (weighted_sum zero p V).
Proof.
  intros Hzero HV Hacc Hz. revert V acc HV Hacc.
  induction p as [|x p IH]; intros V acc HV Hacc.
  - simpl. apply (vec_ext_dim d); auto with dims.
    intros c. components d. rewrite Hz. lra.
  - destruct V as [|v V]; simpl.
    + apply (vec_ext_dim d); auto with dims.
      intros c. components d. rewrite Hz. lra.
    + inversion HV as [|? ? Hv HV']; subst.
      rewrite IH by auto with dims. rewrite weighted_sum_cons.
      apply (vec_ext_dim (length zero)); auto 6 with dims.
      intros c. components (length zero). lra.
Qed.

(** An index loop over two vectors of one size is a fold over their pairs. *)
Lemma for_up_fold {St : Type} (f : St -> R -> VectorType -> St)
  (p : list R) (V : list VectorType) (count lo : nat) (s : St) :
  (lo + count)%nat = length p -> length V = length p ->
  for_up (fun i s => let* x := vec_get p i in let* v := vec_get V i in Ret (f s x v))
         lo count s
  = Ret (foldl (fun s pv => f s pv.1 pv.2) s (zip (drop lo p) (drop lo V))).
Proof.
  revert lo s. induction count as [|count IH]; intros lo s Hlo HV; simpl.
  - rewrite (drop_ge p) by lia. reflexivity.
  - destruct (lookup_lt_is_Some_2 p lo ltac:(lia)) as [x Hx].
    destruct (lookup_lt_is_Some_2 V lo ltac:(lia)) as [v Hv].
    rewrite (vec_get_Ret _ _ _ Hx), (vec_get_Ret _ _ _ Hv). simpl.
    rewrite (drop_S _ _ _ Hx), (drop_S _ _ _ Hv). simpl.
    apply IH; lia.
Qed.

(** ** [inv_jacobian_times_residual] *)

(** The loop that fills [Z_times_a], lines 198-200. *)
Lemma projections_loop (Z : list VectorType) (a : VectorType) :
  for_up (fun i zta => let* Zi := vec_get Z i in vec_put zta i (dot Zi a))
         0 (length Z) (replicate (length Z) 0)
  = Ret (map (fun z => dot z a) Z).
Proof.
  destruct (for_up_inv
    (fun i (zta : list R) =>
       length zta = length Z
       /\ forall j, (j < i)%nat -> zta !! j = (fun z => dot z a) <$> (Z !! j))
    (fun i zta => let* Zi := vec_get Z i in vec_put zta i (dot Zi a))
    (length Z) 0 (replicate (length Z) 0)) as (zta & Hrun & Hlen & Hval).
  - split; [apply length_replicate | intros j Hj; lia].
  - intros i zta Hi [Hlen Hval].
    destruct (lookup_lt_is_Some_2 Z i ltac:(lia)) as [z Hz].
    rewrite (vec_get_Ret _ _ _ Hz). simpl. rewrite vec_put_Ret by lia.
    eexists. split; [reflexivity|]. split; [rewrite length_insert; exact Hlen|].
    intros j Hj. destruct (decide (j = i)) as [->|Hne].
    + rewrite list_lookup_insert_eq by lia. rewrite Hz. reflexivity.
    + rewrite list_lookup_insert_ne by lia. apply Hval. lia.
  - rewrite Hrun. f_equal. apply list_eq. intros j. rewrite list_lookup_fmap.
    destruct (decide (j < length Z)%nat) as [Hj|Hj]; [apply Hval; lia|].
    rewrite !lookup_ge_None_2 by lia. reflexivity.
Qed.

(** The loop "add to b" touches the object [b] and nothing else. *)
Lemma foldl_memory (b : nat) (l : list (R * VectorType)) (mem : nat -> VectorType) :
  foldl (fun (m : nat -> VectorType) pv => <[b := add (m b) pv.1 pv.2]> m) mem l b
  = foldl (fun acc pv => add acc pv.1 pv.2) (mem b) l
  /\ forall r, r <> b ->
       foldl (fun (m : nat -> VectorType) pv => <[b := add (m b) pv.1 pv.2]> m) mem l r
       = mem r.
Proof.
  revert mem. induction l as [|pv l IH]; intros mem; simpl; [auto|].
  destruct (IH (<[b := add (mem b) pv.1 pv.2]> mem)) as [Hb Hr].
  rewrite Hb, fn_lookup_insert. split; [reflexivity|].
  intros r Hne. rewrite Hr by exact Hne. apply fn_lookup_insert_ne. auto.
Qed.

Lemma assign_zero_replicate (v : VectorType) : assign_zero v = replicate (length v) 0.
Proof. induction v as [|x v IH]; simpl; [reflexivity | f_equal; exact IH]. Qed.

(** One history entry, lines 192-209, against one step of the recurrence. *)
Lemma history_entry_step (d : nat) (b : nat) (D_history R_history Z_history : history)
  (idx : nat) (D R_ Z : list VectorType) (mem : nat -> VectorType) (a : VectorType) :
  D_history !! idx = Some D -> R_history !! idx = Some R_ -> Z_history !! idx = Some Z ->
  length D = length Z -> length R_ = length Z ->
  Forall (fun v => length v = d) D -> Forall (fun v => length v = d) R_ ->
  length a = d -> length (mem b) = d ->
  exists mem',
    history_entry b D_history R_history Z_history idx (mem, a)
    = Ret (mem', vminus a (weighted_sum (assign_zero a) (map (fun z => dot z a) Z) R_))
    /\ mem' b = vplus (mem b) (weighted_sum (assign_zero a) (map (fun z => dot z a) Z) D)
    /\ forall r, r <> b -> mem' r = mem r.
Proof.
  intros HD HR HZ HlD HlR HdD HdR Ha Hb. unfold history_entry.
  rewrite (vec_get_Ret _ _ _ HD), (vec_get_Ret _ _ _ HR), (vec_get_Ret _ _ _ HZ).
  simpl. rewrite projections_loop. simpl.
  set (p := map (fun z => dot z a) Z).
  assert (Hp : length p = length Z) by apply length_map.
  rewrite (for_up_fold (fun (m : nat -> VectorType) x v => <[b := add (m b) x v]> m) p D)
    by lia.
  simpl. rewrite (for_up_fold (fun acc x v => add acc (- x) v) p R_) by lia.
  simpl. rewrite !drop_0.
  destruct (foldl_memory b (zip p D) mem) as [Hmb Hframe].
  eexists. split; [|split; [|exact Hframe]].
  - f_equal. f_equal.
    apply (sub_loop_weighted_sum d); auto with dims. apply component_assign_zero.
  - rewrite Hmb. apply (add_loop_weighted_sum d); auto with dims.
    apply component_assign_zero.
Qed.

(** The run of [inv_jacobian_times_residual], whether or not [b] and
    [residual] name the same object. *)
Lemma inv_jacobian_times_residual_runs (d : nat) (b residual : nat)
  (D_history R_history Z_history : history) (mem : nat -> VectorType) :
  Forall2 (fun D Z => length D = length Z) D_history Z_history ->
  Forall2 (fun R_ Z => length R_ = length Z) R_history Z_history ->
  Forall (Forall (fun v => length v = d)) D_history ->
  Forall (Forall (fun v => length v = d)) R_history ->
  length (mem residual) = d -> length (mem b) = d ->
  exists mem',
    inv_jacobian_times_residual b D_history R_history Z_history residual mem = Ret mem'
    /\ mem' b = reference_recurrence D_history R_history Z_history (mem residual)
    /\ forall r, r <> b -> mem' r = mem r.
Proof.
  intros HDZ HRZ HdD HdR Hres Hb. unfold inv_jacobian_times_residual.
  set (n := length Z_history).
  set (zipped := zip (zip D_history R_history) Z_history).
  apply Forall2_length in HDZ as HlD.
  apply Forall2_length in HRZ as HlR.
  destruct (for_down_inv
    (fun k (s : (nat -> VectorType) * VectorType) =>
       length s.2 = d /\ length (s.1 b) = d
       /\ (forall r, r <> b -> s.1 r = mem r)
       /\ reference_newest_first (rev (take k zipped)) s.2 (s.1 b)
          = reference_recurrence D_history R_history Z_history (mem residual))
    (history_entry b D_history R_history Z_history) n
    (<[b := assign_zero (mem b)]> mem, mem residual)) as (s & Hrun & _ & _ & Hframe & Href).
  - simpl. rewrite fn_lookup_insert. split; [exact Hres|].
    split; [auto with dims|]. split; [intros r Hr; apply fn_lookup_insert_ne; auto|].
    rewrite take_ge by (subst zipped n; rewrite !length_zip_with; lia).
    unfold reference_recurrence. fold zipped.
    rewrite !assign_zero_replicate, Hres, Hb. reflexivity.
  - intros k [m a] Hk (Ha & Hmb & Hframe & Href). simpl in Ha, Hmb, Hframe, Href.
    destruct (lookup_lt_is_Some_2 Z_history k ltac:(lia)) as [Z HZ].
    destruct (lookup_lt_is_Some_2 D_history k ltac:(lia)) as [D HD].
    destruct (lookup_lt_is_Some_2 R_history k ltac:(lia)) as [R_ HR].
    destruct (history_entry_step d b D_history R_history Z_history k D R_ Z m a)
      as (m' & Hstep & Hm'b & Hm'frame); auto.
    + eapply (Forall2_lookup_lr _ _ _ _ _ _ HDZ); eauto.
    + eapply (Forall2_lookup_lr _ _ _ _ _ _ HRZ); eauto.
    + eapply Forall_lookup_1 in HdD; eauto.
    + eapply Forall_lookup_1 in HdR; eauto.
    + eexists. split; [exact Hstep|]. simpl.
      assert (HdD' : Forall (fun v => length v = d) D)
        by (eapply Forall_lookup_1 in HdD; eauto).
      assert (HdR' : Forall (fun v => length v = d) R_)
        by (eapply Forall_lookup_1 in HdR; eauto).
      split; [auto with dims|]. split; [rewrite Hm'b; auto with dims|].
      split; [intros r Hr; rewrite Hm'frame by exact Hr; apply Hframe; exact Hr|].
      rewrite <- Href.
      assert (Hz : zipped !! k = Some (D, R_, Z)).
      { subst zipped. rewrite !lookup_zip_with, HD, HR, HZ. reflexivity. }
      rewrite (take_S_r _ _ _ Hz), rev_unit. simpl. rewrite Hm'b. reflexivity.
  - exists s.1. rewrite Hrun. simpl. split; [reflexivity|]. split; [|exact Hframe].
    rewrite <- Href. reflexivity.
Qed.

(** C2. For every residual and every history whose three sequences have
    one length, with matching lengths per entry (all field vectors of one
    size [d]), [inv_jacobian_times_residual] returns, and leaves in [b] the
    value of the recurrence of the specification: from [a = residual] and
    [b = 0], entries from the newest to the oldest, per entry the
    projections [p[i] = <Z[i], a>] from the current [a], then
    [b += sum_i p[i] * D[i]] and [a -= sum_i p[i] * R[i]]. No object other
    than [b] changes. *)
Theorem inv_jacobian_times_residual_recurrence (d : nat) (b residual : nat)
  (D_history R_history Z_history : history) (mem : nat -> VectorType) :
  Forall2 (fun D Z => length D = length Z) D_history Z_history ->
  Forall2 (fun R_ Z => length R_ = length Z) R_history Z_history ->
  Forall (Forall (fun v => length v = d)) D_history ->
  Forall (Forall (fun v => length v = d)) R_history ->
  length (mem residual) = d -> length (mem b) = d ->
  exists mem',
    inv_jacobian_times_residual b D_history R_history Z_history residual mem = Ret mem'
    /\ mem' b = reference_recurrence D_history R_history Z_history (mem residual)
    /\ forall r, r <> b -> mem' r = mem r.
Proof. apply inv_jacobian_times_residual_runs. Qed.

Lemma sample_history_shape :
  Forall2 (fun D Z : list VectorType => length D = length Z) D_sample Z_sample
  /\ Forall2 (fun R_ Z : list VectorType => length R_ = length Z) R_sample Z_sample
  /\ Forall (Forall (fun v : VectorType => length v = 2%nat)) D_sample
  /\ Forall (Forall (fun v : VectorType => length v = 2%nat)) R_sample.
Proof. repeat split; repeat constructor. Qed.

Lemma inv_jacobian_times_residual_recurrence_witness :
  exists mem',
    inv_jacobian_times_residual 0 D_sample R_sample Z_sample 1 mem_sample = Ret mem'
    /\ mem' 0%nat = reference_recurrence D_sample R_sample Z_sample [2; 3].
Proof.
  destruct sample_history_shape as (H1 & H2 & H3 & H4).
  destruct (inv_jacobian_times_residual_recurrence 2 0 1 D_sample R_sample Z_sample
              mem_sample H1 H2 H3 H4 eq_refl eq_refl) as (mem' & Hrun & Hb & _).
  exists mem'. split; [exact Hrun | exact Hb].
Defined.

(** C9. When [b] and [residual] name the same object, the call still
    returns the value of the recurrence started from the contents that
    object had on entry: [a] is copied from [residual] before [b] is reset. *)
Theorem inv_jacobian_times_residual_aliased (d : nat) (b : nat)
  (D_history R_history Z_history : history) (mem : nat -> VectorType) :
  Forall2 (fun D Z => length D = length Z) D_history Z_history ->
  Forall2 (fun R_ Z => length R_ = length Z) R_history Z_history ->
  Forall (Forall (fun v => length v = d)) D_history ->
  Forall (Forall (fun v => length v = d)) R_history ->
  length (mem b) = d ->
  exists mem',
    inv_jacobian_times_residual b D_history R_history Z_history b mem = Ret mem'
    /\ mem' b = reference_recurrence D_history R_history Z_history (mem b).
Proof.
  intros HDZ HRZ HdD HdR Hb.
  destruct (inv_jacobian_times_residual_runs d b b D_history R_history Z_history mem)
    as (mem' & Hrun & Hval & _); auto.
  exists mem'. auto.
Qed.

Lemma inv_jacobian_times_residual_aliased_witness :
  exists mem',
    inv_jacobian_times_residual 1 D_sample R_sample Z_sample 1 mem_sample = Ret mem'
    /\ mem' 1%nat = reference_recurrence D_sample R_sample Z_sample [2; 3].
Proof.
  destruct sample_history_shape as (H1 & H2 & H3 & H4).
  destruct (inv_jacobian_times_residual_aliased 2 1 D_sample R_sample Z_sample
              mem_sample H1 H2 H3 H4 eq_refl) as (mem' & Hrun & Hb).
  exists mem'. split; [exact Hrun | exact Hb].
Defined.

(** The value of the recurrence on the sample: the newest entry gives
    [p = 2] and deflates [a] to [(0, 1)], the older one then gives [p = 1]. *)
Example reference_recurrence_sample :
  reference_recurrence D_sample R_sample Z_sample [2; 3] = [1; 4].
Proof.
  unfold reference_recurrence, D_sample, R_sample, Z_sample. simpl.
  unfold weighted_sum, vplus, vminus, vsmul. simpl. f_equal; [lra | f_equal; lra].
Qed.

(** ** [compute_QR_decomposition]: what a run computes *)

Lemma insert_nth_id {A : Type} (l : list A) (i : nat) (d : A) :
  <[i := nth i l d]> l = l.
Proof.
  destruct (decide (i < length l)%nat) as [Hi|Hi].
  - apply list_insert_id. rewrite nth_lookup.
    destruct (lookup_lt_is_Some_2 l i Hi) as [x ->]. reflexivity.
  - apply list_insert_ge. lia.
Qed.

Lemma orthogonalize_loop (Q : list VectorType) (R_ : Matrix.t) (i : nat) :
  Matrix_wf R_ -> (i < length Q)%nat -> (length Q <= order R_)%nat ->
  exists R',
    for_up (orthogonalize i) 0 i (Q, R_) = Ret (<[i := orth_col Q i i]> Q, R')
    /\ Matrix_wf R' /\ order R' = order R_
    /\ (forall k, (k < i)%nat -> entry R' k i = orth_coef Q i k)
    /\ (forall r c, (r < order R_)%nat -> (c < order R_)%nat ->
                    ~ (c = i /\ (r < i)%nat) -> entry R' r c = entry R_ r c).
Proof.
  intros Hwf Hi Hord.
  destruct (for_up_inv
    (fun j (s : QR_state) =>
       s.1 = <[i := orth_col Q i j]> Q
       /\ Matrix_wf s.2 /\ order s.2 = order R_
       /\ (forall k, (k < j)%nat -> entry s.2 k i = orth_coef Q i k)
       /\ (forall r c, (r < order R_)%nat -> (c < order R_)%nat ->
                       ~ (c = i /\ (r < j)%nat) -> entry s.2 r c = entry R_ r c))
    (orthogonalize i) i 0 (Q, R_)) as ([Q' R'] & Hrun & HQ & Hwf' & Ho & Hcol & Hfr).
  - simpl. rewrite insert_nth_id. split; [reflexivity|]. split; [exact Hwf|].
    split; [reflexivity|]. split; [intros k Hk; lia | auto].
  - intros j [Qs Rs] Hj (HQ & Hwfs & Ho & Hcol & Hfr). simpl in HQ, Hwfs, Ho, Hcol, Hfr.
    subst Qs. unfold orthogonalize. simpl.
    rewrite (vec_get_nth _ j ([] : VectorType)) by (rewrite length_insert; lia).
    rewrite nth_insert_ne by lia. simpl.
    rewrite (vec_get_nth _ i ([] : VectorType)) by (rewrite length_insert; lia).
    rewrite nth_insert_eq by lia. simpl.
    rewrite set_upd by (auto; lia). simpl.
    rewrite vec_put_Ret by (rewrite length_insert; lia). simpl.
    eexists. split; [reflexivity|]. simpl.
    split; [apply list_insert_insert_eq|]. split; [apply upd_wf; exact Hwfs|].
    split; [rewrite order_upd; exact Ho|]. split.
    + intros k Hk. destruct (decide (k = j)) as [->|Hne].
      * rewrite entry_upd_eq by (auto; lia). reflexivity.
      * rewrite entry_upd_ne by (try lia; congruence). apply Hcol. lia.
    + intros r c Hr Hc Hn. rewrite entry_upd_ne; [apply Hfr; auto; lia | lia | lia |].
      intros Heq. inversion Heq; subst. apply Hn. split; [reflexivity | lia].
  - simpl in *. subst Q'. exists R'. rewrite Hrun. auto.
Qed.

(** The loop of line 123 that clears column [i] above the diagonal. *)
Lemma clear_loop (R_ : Matrix.t) (i : nat) :
  Matrix_wf R_ -> (i < order R_)%nat ->
  exists R',
    for_up (fun j R' => Matrix.set R' 0 (N.of_nat j) (N.of_nat i)) 0 i R_ = Ret R'
    /\ Matrix_wf R' /\ order R' = order R_
    /\ (forall k, (k < i)%nat -> entry R' k i = 0)
    /\ (forall r c, (r < order R_)%nat -> (c < order R_)%nat ->
                    ~ (c = i /\ (r < i)%nat) -> entry R' r c = entry R_ r c).
Proof.
  intros Hwf Hi.
  destruct (for_up_inv
    (fun j (m : Matrix.t) =>
       Matrix_wf m /\ order m = order R_
       /\ (forall k, (k < j)%nat -> entry m k i = 0)
       /\ (forall r c, (r < order R_)%nat -> (c < order R_)%nat ->
                       ~ (c = i /\ (r < j)%nat) -> entry m r c = entry R_ r c))
    (fun j R' => Matrix.set R' 0 (N.of_nat j) (N.of_nat i)) i 0 R_)
    as (R' & Hrun & H); [| |eauto].
  - split; [exact Hwf|]. split; [reflexivity|]. split; [intros k Hk; lia | auto].
  - intros j m Hj (Hwfm & Ho & Hcol & Hfr).
    rewrite set_upd by (auto; lia). eexists. split; [reflexivity|].
    split; [apply upd_wf; exact Hwfm|]. split; [rewrite order_upd; exact Ho|]. split.
    + intros k Hk. destruct (decide (k = j)) as [->|Hne].
      * rewrite entry_upd_eq by (auto; lia). reflexivity.
      * rewrite entry_upd_ne by (try lia; congruence). apply Hcol. lia.
    + intros r c Hr Hc Hn. rewrite entry_upd_ne; [apply Hfr; auto; lia | lia | lia |].
      intros Heq. inversion Heq; subst. apply Hn. split; [reflexivity | lia].
Qed.

(** One iteration of the loop over the columns. *)
Lemma QR_column_spec (eps : R) (Q : list VectorType) (R_ : Matrix.t) (i : nat) :
  Matrix_wf R_ -> (i < length Q)%nat -> (length Q <= order R_)%nat ->
  exists R',
    QR_column eps i (Q, R_) = Ret (QR_next eps i Q, R')
    /\ Matrix_wf R' /\ order R' = order R_
    /\ (forall k, (k <= i)%nat -> entry R' k i = column_entry eps Q i k)
    /\ (forall r c, (r < order R_)%nat -> (c < order R_)%nat ->
                    ~ (c = i /\ (r <= i)%nat) -> entry R' r c = entry R_ r c).
Proof.
  intros Hwf Hi Hord. unfold QR_column. simpl.
  rewrite (vec_get_nth Q i ([] : VectorType)) by lia. simpl.
  destruct (orthogonalize_loop Q R_ i Hwf Hi Hord) as (R1 & -> & Hwf1 & Ho1 & Hcol1 & Hfr1).
  simpl. rewrite (vec_get_nth _ i ([] : VectorType)) by (rewrite length_insert; lia).
  rewrite nth_insert_eq by lia. simpl.
  unfold QR_next, column_entry. simpl.
  destruct (Rlt_dec (l2_norm (orth_col Q i i)) (eps * l2_norm (nth i Q []))) as [Hd|Hd].
  - rewrite vec_put_Ret by (rewrite length_insert; lia). simpl.
    destruct (clear_loop R1 i Hwf1 ltac:(lia)) as (R2 & -> & Hwf2 & Ho2 & Hcol2 & Hfr2).
    simpl. rewrite set_upd by (auto; lia). simpl.
    rewrite list_insert_insert_eq. eexists. split; [reflexivity|].
    split; [apply upd_wf; exact Hwf2|]. split; [rewrite order_upd; lia|]. split.
    + intros k Hk. destruct (decide (k = i)) as [->|Hne].
      * rewrite entry_upd_eq by (auto; lia). reflexivity.
      * rewrite entry_upd_ne by (try lia; congruence). apply Hcol2. lia.
    + intros r c Hr Hc Hn. rewrite entry_upd_ne; [| lia | lia |].
      * rewrite Hfr2 by lia. apply Hfr1; lia.
      * intros Heq. inversion Heq; subst. apply Hn. split; [reflexivity | lia].
  - rewrite set_upd by (auto; lia). simpl.
    rewrite vec_put_Ret by (rewrite length_insert; lia). simpl.
    rewrite list_insert_insert_eq. eexists. split; [reflexivity|].
    split; [apply upd_wf; exact Hwf1|]. split; [rewrite order_upd; lia|]. split.
    + intros k Hk. destruct (decide (k = i)) as [->|Hne].
      * rewrite entry_upd_eq by (auto; lia). reflexivity.
      * rewrite entry_upd_ne by (try lia; congruence). apply Hcol1. lia.
    + intros r c Hr Hc Hn. rewrite entry_upd_ne; [| lia | lia |].
      * apply Hfr1; lia.
      * intros Heq. inversion Heq; subst. apply Hn. split; [reflexivity | lia].
Qed.

Lemma length_QR_next (eps : R) (i : nat) (Q : list VectorType) :
  length (QR_next eps i Q) = length Q.
Proof. unfold QR_next. apply length_insert. Qed.

Lemma length_QR_prefix (eps : R) (Q : list VectorType) (k : nat) :
  length (QR_prefix eps Q k) = length Q.
Proof. induction k as [|k IH]; simpl; [reflexivity | rewrite length_QR_next; exact IH]. Qed.

Lemma nth_QR_next_ne (eps : R) (i k : nat) (Q : list VectorType) :
  k <> i -> nth k (QR_next eps i Q) [] = nth k Q [].
Proof. intros H. unfold QR_next. apply nth_insert_ne. auto. Qed.

(** The columns not yet visited are the input columns. *)
Lemma nth_QR_prefix_later (eps : R) (Q : list VectorType) (i k : nat) :
  (i <= k)%nat -> nth k (QR_prefix eps Q i) [] = nth k Q [].
Proof.
  induction i as [|i IH]; intros H; simpl; [reflexivity|].
  rewrite nth_QR_next_ne by lia. apply IH. lia.
Qed.

(** A column is final once its iteration is over. *)
Lemma nth_QR_prefix_final (eps : R) (Q : list VectorType) (i k : nat) :
  (i < k)%nat -> nth i (QR_prefix eps Q k) [] = nth i (QR_prefix eps Q (S i)) [].
Proof.
  induction k as [|k IH]; intros H; [lia|].
  destruct (decide (i = k)) as [->|Hne]; [reflexivity|].
  simpl QR_prefix at 1. rewrite nth_QR_next_ne by lia. apply IH. lia.
Qed.

(** The first [k] iterations of the loop over the columns. *)
Lemma QR_columns_spec (eps : R) (Q : list VectorType) (R_ : Matrix.t) (k : nat) :
  Matrix_wf R_ -> (length Q <= order R_)%nat -> (k <= length Q)%nat ->
  exists R',
    for_up (QR_column eps) 0 k (Q, R_) = Ret (QR_prefix eps Q k, R')
    /\ Matrix_wf R' /\ order R' = order R_
    /\ (forall i j, (j <= i < k)%nat ->
                    entry R' j i = column_entry eps (QR_prefix eps Q i) i j)
    /\ (forall r c, (r < order R_)%nat -> (c < order R_)%nat ->
                    (k <= c)%nat \/ (c < r)%nat -> entry R' r c = entry R_ r c).
Proof.
  intros Hwf Hord Hk.
  destruct (for_up_inv
    (fun k (s : QR_state) =>
       (k <= length Q)%nat -> 
       s.1 = QR_prefix eps Q k
       /\ Matrix_wf s.2 /\ order s.2 = order R_
       /\ (forall i j, (j <= i < k)%nat ->
                       entry s.2 j i = column_entry eps (QR_prefix eps Q i) i j)
       /\ (forall r c, (r < order R_)%nat -> (c < order R_)%nat ->
                       (k <= c)%nat \/ (c < r)%nat -> entry s.2 r c = entry R_ r c))
    (QR_column eps) k 0 (Q, R_)) as ([Q' R'] & Hrun & Hinv).
  - intros _. simpl. split; [reflexivity|]. split; [exact Hwf|]. split; [reflexivity|].
    split; [intros i j Hij; lia | auto].
  - intros i [Qs Rs] Hi Hinv.
    destruct (Hinv ltac:(lia)) as (HQ & Hwfs & Ho & Hcol & Hfr).
    simpl in HQ, Hwfs, Ho, Hcol, Hfr. subst Qs.
    destruct (QR_column_spec eps (QR_prefix eps Q i) Rs i Hwfs)
      as (R1 & Hrun & Hwf1 & Ho1 & Hcol1 & Hfr1);
      [rewrite length_QR_prefix; lia | rewrite length_QR_prefix; lia |].
    exists (QR_next eps i (QR_prefix eps Q i), R1). split; [exact Hrun|].
    intros _. simpl. split; [reflexivity|]. split; [exact Hwf1|]. split; [lia|]. split.
    + intros i' j Hij. destruct (decide (i' = i)) as [->|Hne].
      * apply Hcol1. lia.
      * rewrite Hfr1 by lia. apply Hcol. lia.
    + intros r c Hr Hc Hrc. rewrite Hfr1 by lia. apply Hfr; lia.
  - simpl in Hinv. destruct (Hinv Hk) as (HQ & H). simpl in HQ. subst Q'.
    exists R'. split; [exact Hrun | exact H].
Qed.

(** The whole run, on a matrix at least as large as the list of vectors. *)
Lemma compute_QR_decomposition_spec (eps : R) (Q : list VectorType) (R_ : Matrix.t) :
  Matrix_wf R_ -> (length Q <= order R_)%nat ->
  exists R',
    compute_QR_decomposition Q R_ eps = Ret (QR_prefix eps Q (length Q), R')
    /\ Matrix_wf R' /\ order R' = order R_
    /\ (forall i j, (j <= i < length Q)%nat ->
                    entry R' j i = column_entry eps (QR_prefix eps Q i) i j)
    /\ (forall r c, (r < order R_)%nat -> (c < order R_)%nat ->
                    (length Q <= c)%nat \/ (c < r)%nat -> entry R' r c = entry R_ r c).
Proof. intros Hwf Hord. apply QR_columns_spec; auto. Qed.

(** ** Inner products and norms *)

Lemma dot_comm (v w : VectorType) : dot v w = dot w v.
Proof.
  revert w. induction v as [|x v IH]; intros [|y w]; simpl; try reflexivity.
  rewrite IH. lra.
Qed.

Lemma dot_add_l (v w u : VectorType) (a : R) :
  length w = length v -> dot (add v a w) u = dot v u + a * dot w u.
Proof.
  revert w u. induction v as [|x v IH]; intros [|y w] [|z u] H; simpl in *;
    try discriminate; try lra.
  rewrite IH by lia. lra.
Qed.

Lemma dot_add_r (v w u : VectorType) (a : R) :
  length w = length v -> dot u (add v a w) = dot u v + a * dot u w.
Proof. intros H. rewrite !(dot_comm u). apply dot_add_l. exact H. Qed.

Lemma dot_scale_l (v w : VectorType) (a : R) : dot (scale v a) w = a * dot v w.
Proof.
  revert w. induction v as [|x v IH]; intros [|y w]; simpl; try lra.
  rewrite IH. lra.
Qed.

Lemma dot_scale_r (v w : VectorType) (a : R) : dot w (scale v a) = a * dot w v.
Proof. rewrite !(dot_comm w). apply dot_scale_l. Qed.

Lemma dot_self_nonneg (v : VectorType) : 0 <= dot v v.
Proof. induction v as [|x v IH]; simpl; [lra | nra]. Qed.

Lemma dot_self_pos (v : VectorType) : Exists (fun x => x <> 0) v -> 0 < dot v v.
Proof.
  induction 1 as [x v Hx | x v _ IH]; simpl.
  - pose proof (dot_self_nonneg v). nra.
  - nra.
Qed.

Lemma dot_zeros_l (v w : VectorType) : Forall (fun x => x = 0) v -> dot v w = 0.
Proof.
  intros H. revert w. induction H as [|x v -> _ IH]; intros [|y w]; simpl; try reflexivity.
  rewrite IH. lra.
Qed.

Lemma l2_norm_square (v : VectorType) : l2_norm v * l2_norm v = dot v v.
Proof. apply sqrt_sqrt, dot_self_nonneg. Qed.

Lemma l2_norm_zeros (v : VectorType) : Forall (fun x => x = 0) v -> l2_norm v = 0.
Proof. intros H. unfold l2_norm. rewrite dot_zeros_l by exact H. apply sqrt_0. Qed.

Lemma l2_norm_pos (v : VectorType) : Exists (fun x => x <> 0) v -> 0 < l2_norm v.
Proof. intros H. apply sqrt_lt_R0, dot_self_pos, H. Qed.

Lemma assign_zero_zeros (v : VectorType) : Forall (fun x => x = 0) (assign_zero v).
Proof. induction v as [|x v IH]; simpl; constructor; auto. Qed.

(** ** C1: a zero vector among the inputs *)

Lemma add_zeros (q w : VectorType) (a : R) :
  Forall (fun x => x = 0) q -> a = 0 -> Forall (fun x => x = 0) (add q a w).
Proof.
  intros H ->. revert w. induction H as [|x q -> _ IH]; intros [|y w]; simpl;
    constructor; [lra | apply IH].
Qed.

Lemma orth_col_zeros (Q : list VectorType) (i j : nat) :
  Forall (fun x => x = 0) (nth i Q []) -> Forall (fun x => x = 0) (orth_col Q i j).
Proof.
  intros H. induction j as [|j IH]; simpl; [exact H|].
  apply add_zeros; [exact IH|]. rewrite dot_comm, dot_zeros_l by exact IH. lra.
Qed.

(** A zero vector at position [i] is not dropped, whatever [eps]: the
    test [0 < eps * 0] fails, and [R[i][i]] receives the norm [0]. *)
Lemma QR_zero_column (eps : R) (Q : list VectorType) (R_ : Matrix.t) (i : nat) :
  Matrix_wf R_ -> (length Q <= order R_)%nat -> (i < length Q)%nat ->
  Forall (fun x => x = 0) (nth i Q []) ->
  exists Q' R',
    compute_QR_decomposition Q R_ eps = Ret (Q', R')
    /\ Matrix.get R' (N.of_nat i) (N.of_nat i) = Ret 0.
Proof.
  intros Hwf Hord Hi Hz.
  destruct (compute_QR_decomposition_spec eps Q R_ Hwf Hord)
    as (R' & Hrun & Hwf' & Ho & Hcol & _).
  exists (QR_prefix eps Q (length Q)), R'. split; [exact Hrun|].
  rewrite get_entry by (auto; lia). f_equal.
  rewrite Hcol by lia. unfold column_entry.
  assert (Hq : Forall (fun x => x = 0) (orth_col (QR_prefix eps Q i) i i))
    by (apply orth_col_zeros; rewrite nth_QR_prefix_later by lia; exact Hz).
  rewrite (l2_norm_zeros _ Hq).
  rewrite nth_QR_prefix_later by lia. rewrite (l2_norm_zeros _ Hz).
  destruct (Rlt_dec 0 (eps * 0)) as [Hlt|_]; [lra|].
  destruct (decide (i = i)); [reflexivity | contradiction].
Qed.

(** C1, at the input that defeats it: the single vector [(0, 0)], a fresh
    1-by-1 matrix and the default [eps]. The call returns with
    [R[0][0] = 0], and [backward_substitution] on that [R] divides by it. *)
Theorem QR_zero_vector_zero_diagonal :
  exists Q' R',
    compute_QR_decomposition [[0; 0]] (zero_matrix 1) eps_default = Ret (Q', R')
    /\ Matrix.get R' 0 0 = Ret 0
    /\ backward_substitution R' [0] [1] = Ret [1 / 0].
Proof.
  destruct (QR_zero_column eps_default [[0; 0]] (zero_matrix 1) 0) as (Q' & R' & Hrun & Hget).
  - apply zero_matrix_wf. rewrite uint_modulus_value. lia.
  - unfold order. simpl. lia.
  - simpl. lia.
  - simpl. repeat constructor.
  - exists Q', R'. split; [exact Hrun|]. split; [exact Hget|].
    unfold backward_substitution. simpl. simpl in Hget. rewrite Hget. reflexivity.
Qed.

(** With a positive [eps] and no zero vector among the inputs, every
    diagonal entry of [R] is non-zero. *)
Lemma QR_diagonal_nonzero (eps : R) (Q : list VectorType) (R_ : Matrix.t) :
  Matrix_wf R_ -> (length Q <= order R_)%nat -> 0 < eps ->
  (forall i, (i < length Q)%nat -> Exists (fun x => x <> 0) (nth i Q [])) ->
  exists Q' R',
    compute_QR_decomposition Q R_ eps = Ret (Q', R')
    /\ forall i, (i < length Q)%nat ->
         exists x, Matrix.get R' (N.of_nat i) (N.of_nat i) = Ret x /\ x <> 0.
Proof.
  intros Hwf Hord Heps Hnz.
  destruct (compute_QR_decomposition_spec eps Q R_ Hwf Hord)
    as (R' & Hrun & Hwf' & Ho & Hcol & _).
  exists (QR_prefix eps Q (length Q)), R'. split; [exact Hrun|].
  intros i Hi. rewrite get_entry by (auto; lia). eexists. split; [reflexivity|].
  rewrite Hcol by lia. unfold column_entry.
  rewrite nth_QR_prefix_later by lia.
  pose proof (l2_norm_pos _ (Hnz i Hi)) as Hpos.
  destruct (Rlt_dec _ _) as [Hlt|Hge]; destruct (decide (i = i)); try contradiction.
  - lra.
  - assert (0 < eps * l2_norm (nth i Q [])) by nra. lra.
Qed.

(** ** C4: deflation *)

Lemma drop_test_drops (eps : R) (Q : list VectorType) (R_ : Matrix.t) (i : nat) :
  Matrix_wf R_ -> (length Q <= order R_)%nat -> (i < length Q)%nat ->
  drop_test eps Q R_ i <-> drops eps (QR_prefix eps Q i) i.
Proof.
  intros Hwf Hord Hi.
  destruct (QR_columns_spec eps Q R_ i Hwf Hord ltac:(lia)) as (Ri & Hrun & Hwfi & Hoi & _).
  destruct (orthogonalize_loop (QR_prefix eps Q i) Ri i Hwfi)
    as (Ro & Horth & _); [rewrite length_QR_prefix; lia..|].
  assert (Hnth : nth i (<[i:=orth_col (QR_prefix eps Q i) i i]> (QR_prefix eps Q i)) []
                 = orth_col (QR_prefix eps Q i) i i)
    by (apply nth_insert_eq; rewrite length_QR_prefix; lia).
  unfold drop_test, drops. split.
  - intros (si & so & Hsi & Hso & Hlt).
    rewrite Hrun in Hsi. inversion Hsi; subst si.
    rewrite Horth in Hso. inversion Hso; subst so. simpl in Hlt.
    rewrite Hnth in Hlt. exact Hlt.
  - intros Hlt. eexists. eexists. split; [exact Hrun|]. split; [exact Horth|].
    simpl. rewrite Hnth. exact Hlt.
Qed.

Lemma add_scale_cancel (v : VectorType) (a c : R) :
  a * c = -1 -> Forall (fun x => x = 0) (add v a (scale v c)).
Proof.
  intros H. induction v as [|x v IH]; simpl; constructor; [|exact IH].
  replace (x + a * (x * c)) with (x * (1 + a * c)) by ring. rewrite H. ring.
Qed.

(** A column that meets the test is deflated, and stays so to the end of the run. *)
Lemma QR_dropped_column (eps : R) (Q : list VectorType) (R_ : Matrix.t) (i : nat) :
  Matrix_wf R_ -> (length Q <= order R_)%nat -> (i < length Q)%nat ->
  drops eps (QR_prefix eps Q i) i ->
  exists Q' R',
    compute_QR_decomposition Q R_ eps = Ret (Q', R')
    /\ length Q' = length Q
    /\ nth i Q' [] = assign_zero (orth_col (QR_prefix eps Q i) i i)
    /\ (forall j, (j < i)%nat -> Matrix.get R' (N.of_nat j) (N.of_nat i) = Ret 0)
    /\ Matrix.get R' (N.of_nat i) (N.of_nat i) = Ret 1.
Proof.
  intros Hwf Hord Hi Hdrop.
  destruct (compute_QR_decomposition_spec eps Q R_ Hwf Hord)
    as (R' & Hrun & Hwf' & Ho & Hcol & _).
  exists (QR_prefix eps Q (length Q)), R'. split; [exact Hrun|].
  split; [apply length_QR_prefix|].
  assert (Hentry : forall j, (j <= i)%nat ->
            entry R' j i = if decide (j = i) then 1 else 0).
  { intros j Hj. rewrite Hcol by lia. unfold column_entry.
    destruct (Rlt_dec _ _) as [_|Hn]; [reflexivity | contradiction]. }
  split.
  - rewrite nth_QR_prefix_final by lia. simpl. unfold QR_next.
    rewrite nth_insert_eq by (rewrite length_QR_prefix; lia).
    destruct (Rlt_dec _ _) as [_|Hn]; [reflexivity | contradiction].
  - split.
    + intros j Hj. rewrite get_entry by (auto; lia). rewrite Hentry by lia.
      destruct (decide (j = i)); [lia | reflexivity].
    + rewrite get_entry by (auto; lia). rewrite Hentry by lia.
      destruct (decide (i = i)); [reflexivity | contradiction].
Qed.

(** The vectors after column 0 of the input [v, w], [v] not the zero vector. *)
Lemma QR_first_column (v w : VectorType) :
  Exists (fun x => x <> 0) v ->
  ~ drops eps_default [v; w] 0
  /\ QR_prefix eps_default [v; w] 1 = [scale v (1 / l2_norm v); w].
Proof.
  intros Hv. pose proof (l2_norm_pos v Hv) as Hpos.
  assert (Hn : ~ drops eps_default [v; w] 0).
  { unfold drops, eps_default. simpl. lra. }
  split; [exact Hn|]. simpl. unfold QR_next. simpl.
  destruct (Rlt_dec _ _) as [Hd|_]; [contradiction | reflexivity].
Qed.

(** For the input [v, v]: column 1 after its loop "orthogonalize" is the
    zero vector. *)
Lemma QR_twice_second_column (v : VectorType) :
  Exists (fun x => x <> 0) v ->
  Forall (fun x => x = 0) (orth_col [scale v (1 / l2_norm v); v] 1 1)
  /\ length (orth_col [scale v (1 / l2_norm v); v] 1 1) = length v.
Proof.
  intros Hv. pose proof (l2_norm_pos v Hv) as Hpos.
  pose proof (l2_norm_square v) as Hsq. simpl. split.
  - apply add_scale_cancel. rewrite dot_scale_l, <- Hsq. field. lra.
  - rewrite length_add; [reflexivity | apply length_scale].
Qed.

(** C4. In a run of [compute_QR_decomposition], a column [i] whose norm
    after orthogonalization satisfies [r_ii < eps * norm_initial] ends
    deflated: [Q[i]] is the zero vector, [R[j][i] = 0] for every [j < i],
    and [R[i][i] = 1]. In particular, for the input [v, v] with [v] not the
    zero vector and the default [eps]: column 1 meets the test, [Q[1] = 0],
    [R[1][1] = 1], [R[0][1] = 0]; the one divisor of the run, [R[0][0]], is
    the norm of [v] and not zero. *)
Theorem QR_deflation (size : N) (R_ : Matrix.t) :
  Matrix.reachable size R_ ->
  (forall eps Q i,
     (length Q <= N.to_nat size)%nat -> (i < length Q)%nat -> drop_test eps Q R_ i ->
     exists Q' R',
       compute_QR_decomposition Q R_ eps = Ret (Q', R')
       /\ length Q' = length Q
       /\ Forall (fun x => x = 0) (nth i Q' [])
       /\ (forall j, (j < i)%nat -> Matrix.get R' (N.of_nat j) (N.of_nat i) = Ret 0)
       /\ Matrix.get R' (N.of_nat i) (N.of_nat i) = Ret 1)
  /\ (forall v : VectorType,
        Exists (fun x => x <> 0) v -> (2 <= N.to_nat size)%nat ->
        exists Q' R',
          compute_QR_decomposition [v; v] R_ eps_default = Ret (Q', R')
          /\ drop_test eps_default [v; v] R_ 1
          /\ nth 1 Q' [] = assign_zero v
          /\ Matrix.get R' 1 1 = Ret 1
          /\ Matrix.get R' 0 1 = Ret 0
          /\ Matrix.get R' 0 0 = Ret (l2_norm v)
          /\ l2_norm v <> 0).
Proof.
  intros Hreach. destruct (reachable_wf _ _ Hreach) as [Hwf HM].
  assert (Hord : order R_ = N.to_nat size) by (unfold order; rewrite HM; reflexivity).
  split.
  - intros eps Q i HQ Hi Hdrop.
    apply drop_test_drops in Hdrop; [|exact Hwf|lia|exact Hi].
    destruct (QR_dropped_column eps Q R_ i Hwf ltac:(lia) Hi Hdrop)
      as (Q' & R' & Hrun & Hlen & HQi & Hcol & Hdiag).
    exists Q', R'. split; [exact Hrun|]. split; [exact Hlen|].
    split; [rewrite HQi; apply assign_zero_zeros|]. split; [exact Hcol | exact Hdiag].
  - intros v Hv Hsize.
    destruct (QR_first_column v v Hv) as [Hkeep HQ1].
    destruct (QR_twice_second_column v Hv) as [Hzero Hlen].
    pose proof (l2_norm_pos v Hv) as Hpos.
    assert (Hdrop : drops eps_default (QR_prefix eps_default [v; v] 1) 1).
    { rewrite HQ1. unfold drops. rewrite (l2_norm_zeros _ Hzero). simpl.
      unfold eps_default. lra. }
    destruct (QR_dropped_column eps_default [v; v] R_ 1 Hwf)
      as (Q' & R' & Hrun & _ & HQi & Hcol & Hdiag); [simpl; lia | simpl; lia | exact Hdrop|].
    exists Q', R'. split; [exact Hrun|].
    split; [apply drop_test_drops; [exact Hwf | simpl; lia | simpl; lia | exact Hdrop]|].
    split.
    { rewrite HQi, HQ1, !assign_zero_replicate, Hlen. reflexivity. }
    split; [exact Hdiag|]. split; [apply (Hcol 0%nat); lia|].
    split; [|lra].
    destruct (compute_QR_decomposition_spec eps_default [v; v] R_ Hwf)
      as (R2 & Hrun2 & Hwf2 & Ho2 & Hcol2 & _); [simpl; lia|].
    rewrite Hrun in Hrun2. inversion Hrun2; subst.
    change (Matrix.get R2 0 0) with (Matrix.get R2 (N.of_nat 0) (N.of_nat 0)).
    rewrite (get_entry R2 0 0) by (auto; lia). f_equal.
    rewrite Hcol2 by (simpl; lia). unfold column_entry.
    destruct (Rlt_dec _ _) as [Hd|_]; [contradiction | reflexivity].
Qed.

Lemma QR_deflation_witness :
  Matrix.reachable 2 (zero_matrix 2)
  /\ exists Q' R',
       compute_QR_decomposition [[3; 4]; [3; 4]] (zero_matrix 2) eps_default = Ret (Q', R')
       /\ nth 1 Q' [] = [0; 0]
       /\ Matrix.get R' 1 1 = Ret 1
       /\ Matrix.get R' 0 1 = Ret 0.
Proof.
  split; [exact two_by_two_reachable|].
  destruct (proj2 (QR_deflation 2 (zero_matrix 2) two_by_two_reachable) [3; 4])
    as (Q' & R' & Hrun & _ & HQ & H11 & H01 & _).
  - left. lra.
  - simpl. lia.
  - exists Q', R'. split; [exact Hrun|]. split; [exact HQ|]. split; [exact H11 | exact H01].
Defined.

(** ** C5: the factorization when no column is dropped *)

Lemma nth_dim (d : nat) (Q : list VectorType) (k : nat) :
  Forall (fun v => length v = d) Q -> (k < length Q)%nat -> length (nth k Q []) = d.
Proof.
  intros HQ Hk. destruct (lookup_lt_is_Some_2 Q k Hk) as [v Hv].
  rewrite nth_lookup, Hv. simpl. eapply (Forall_lookup_1 _ _ _ _ HQ Hv).
Qed.

Lemma sum_range_snoc (f : nat -> R) (count : nat) :
  sum_range f 0 (S count) = sum_range f 0 count + f count.
Proof.
  replace (S count) with (count + 1)%nat by lia. rewrite sum_range_app. simpl. lra.
Qed.

(** Modified Gram-Schmidt on column [i], when the columns before it are
    orthonormal: after [j] steps the column is orthogonal to the first [j]
    columns, and the input column is the current one plus the projections
    taken off so far. *)
Lemma orth_col_props (d : nat) (Q : list VectorType) (i : nat) :
  Forall (fun v => length v = d) Q -> (i < length Q)%nat ->
  (forall a b, (a < i)%nat -> (b < i)%nat ->
               dot (nth a Q []) (nth b Q []) = if decide (a = b) then 1 else 0) ->
  forall j, (j <= i)%nat ->
    length (orth_col Q i j) = d
    /\ (forall k, (k < j)%nat -> dot (nth k Q []) (orth_col Q i j) = 0)
    /\ (forall c, component c (nth i Q [])
                  = component c (orth_col Q i j)
                    + sum_range (fun k => orth_coef Q i k * component c (nth k Q [])) 0 j).
Proof.
  intros HQ Hi Hon. induction j as [|j IH]; intros Hj.
  - simpl. split; [apply nth_dim; assumption|]. split; [intros k Hk; lia|].
    intros c. lra.
  - destruct (IH ltac:(lia)) as (Hlen & Horth & Hrec).
    assert (Hlj : length (nth j Q []) = d) by (apply nth_dim; [assumption | lia]).
    simpl orth_col. fold (orth_coef Q i j).
    split; [auto with dims|]. split.
    + intros k Hk. rewrite dot_add_r by lia.
      rewrite (Hon k j) by lia.
      destruct (decide (k = j)) as [->|Hne].
      * fold (orth_coef Q i j). lra.
      * rewrite Horth by lia. lra.
    + intros c. rewrite sum_range_snoc. rewrite (Hrec c).
      rewrite (component_add_dim d) by assumption. lra.
Qed.

Lemma component_replicate_zero (d c : nat) : component c (replicate d 0) = 0.
Proof.
  unfold component. rewrite nth_lookup.
  destruct (replicate d 0 !! c) as [x|] eqn:E; [|reflexivity].
  apply lookup_replicate in E as [-> _]. reflexivity.
Qed.

(** Components of a combination with coefficients [f lo, f (lo+1), ...]. *)
Lemma component_weighted_sum (d : nat) (f : nat -> R) (Q : list VectorType)
  (c count lo : nat) :
  Forall (fun v => length v = d) Q -> (lo + count <= length Q)%nat ->
  component c (weighted_sum (replicate d 0) (map f (seq lo count)) (drop lo Q))
  = sum_range (fun j => f j * component c (nth j Q [])) lo count.
Proof.
  intros HQ. revert lo. induction count as [|count IH]; intros lo Hlo.
  - simpl. apply component_replicate_zero.
  - destruct (lookup_lt_is_Some_2 Q lo ltac:(lia)) as [v Hv].
    rewrite (drop_S _ _ _ Hv). simpl seq. simpl map. rewrite weighted_sum_cons.
    assert (Hd : length v = d) by (eapply (Forall_lookup_1 _ _ _ _ HQ Hv)).
    rewrite (component_vplus_dim d).
    + rewrite component_vsmul, IH by lia. simpl.
      rewrite nth_lookup, Hv. reflexivity.
    + auto with dims.
    + apply dim_weighted_sum; [apply length_replicate|].
      apply Forall_drop. exact HQ.
Qed.

Lemma component_zeros (v : VectorType) (c : nat) :
  Forall (fun x => x = 0) v -> component c v = 0.
Proof.
  intros H. revert c. induction H as [|x v -> _ IH]; intros [|c]; simpl; auto.
  apply IH.
Qed.

Lemma zeros_or_nonzero (v : VectorType) :
  Forall (fun x => x = 0) v \/ Exists (fun x => x <> 0) v.
Proof.
  induction v as [|x v [IH|IH]]; [left; constructor | |right; right; exact IH].
  destruct (Req_dec x 0) as [->|Hx]; [left; constructor; auto | right; left; exact Hx].
Qed.

(** No vector of a linearly independent list is the zero vector. *)
Lemma linearly_independent_nonzero (d : nat) (V : list VectorType) (i : nat) :
  Forall (fun v => length v = d) V -> linearly_independent d V -> (i < length V)%nat ->
  Exists (fun x => x <> 0) (nth i V []).
Proof.
  intros HV Hli Hi.
  destruct (zeros_or_nonzero (nth i V [])) as [Hzeros|Hex]; [|exact Hex].
  exfalso.
  pose proof (fun c => component_zeros (nth i V []) c Hzeros) as Hz.
  set (coef := map (fun j => if decide (j = i) then 1 else 0) (seq 0 (length V))).
  assert (Hcoef : Forall (fun x => x = 0) coef).
  { apply Hli; [unfold coef; rewrite length_map, length_seq; reflexivity|].
    apply (vec_ext_dim d);
      [apply dim_weighted_sum; [apply length_replicate | exact HV]
      |apply length_replicate|].
    intros c. unfold coef. rewrite <- (drop_0 V) at 2.
    rewrite (component_weighted_sum d) by (auto; lia).
    rewrite component_replicate_zero. apply sum_range_zero.
    intros j Hj. destruct (decide (j = i)) as [->|Hne]; [rewrite Hz|]; lra. }
  assert (Hone : coef !! i = Some 1).
  { unfold coef. rewrite list_lookup_fmap, lookup_seq_lt by lia. simpl.
    destruct (decide (i = i)); [reflexivity | contradiction]. }
  pose proof (Forall_lookup_1 _ _ _ _ Hcoef Hone) as H1. simpl in H1. lra.
Qed.

Section Undropped.

Variables (d : nat) (eps : R) (V : list VectorType).

Hypothesis V_dim : Forall (fun v => length v = d) V.
Hypothesis eps_pos : 0 < eps.
Hypothesis V_nonzero : forall i, (i < length V)%nat -> Exists (fun x => x <> 0) (nth i V []).
Hypothesis V_kept : forall i, (i < length V)%nat -> ~ drops eps (QR_prefix eps V i) i.

(** The norm of a column after its orthogonalization is positive. *)
Lemma kept_norm_pos (i : nat) :
  (i < length V)%nat -> 0 < l2_norm (orth_col (QR_prefix eps V i) i i).
Proof using eps_pos V_nonzero V_kept.
  intros Hi. pose proof (V_kept i Hi) as Hk. unfold drops in Hk.
  rewrite nth_QR_prefix_later in Hk by lia.
  pose proof (l2_norm_pos _ (V_nonzero i Hi)) as Hpos.
  assert (0 < eps * l2_norm (nth i V [])) by nra. lra.
Qed.

Lemma kept_QR_next (i : nat) :
  (i < length V)%nat ->
  QR_prefix eps V (S i)
  = <[i := scale (orth_col (QR_prefix eps V i) i i)
                 (1 / l2_norm (orth_col (QR_prefix eps V i) i i))]> (QR_prefix eps V i).
Proof using V_kept.
  intros Hi. simpl. unfold QR_next. pose proof (V_kept i Hi) as Hk. unfold drops in Hk.
  destruct (Rlt_dec _ _) as [Hd|_]; [contradiction | reflexivity].
Qed.

Lemma kept_column_entry (i j : nat) :
  (i < length V)%nat ->
  column_entry eps (QR_prefix eps V i) i j
  = if decide (j = i) then l2_norm (orth_col (QR_prefix eps V i) i i)
    else orth_coef (QR_prefix eps V i) i j.
Proof using V_kept.
  intros Hi. unfold column_entry. pose proof (V_kept i Hi) as Hk. unfold drops in Hk.
  destruct (Rlt_dec _ _) as [Hd|_]; [contradiction | reflexivity].
Qed.

(** After [k] iterations the first [k] columns are orthonormal. *)
Lemma QR_prefix_orthonormal (k : nat) :
  (k <= length V)%nat ->
  Forall (fun v => length v = d) (QR_prefix eps V k)
  /\ forall a b, (a < k)%nat -> (b < k)%nat ->
       dot (nth a (QR_prefix eps V k) []) (nth b (QR_prefix eps V k) [])
       = if decide (a = b) then 1 else 0.
Proof using V_dim eps_pos V_nonzero V_kept.
  induction k as [|k IH]; intros Hk.
  - simpl. split; [exact V_dim | intros a b Ha; lia].
  - destruct (IH ltac:(lia)) as [Hdim Hon].
    set (Qk := QR_prefix eps V k) in *.
    assert (Hlen : length Qk = length V) by apply length_QR_prefix.
    destruct (orth_col_props d Qk k Hdim ltac:(lia) Hon k (Nat.le_refl k))
      as (Hq & Horth & _).
    pose proof (kept_norm_pos k ltac:(lia)) as Hr. fold Qk in Hr.
    pose proof (l2_norm_square (orth_col Qk k k)) as Hsq.
    rewrite (kept_QR_next k) by lia. fold Qk.
    set (q := orth_col Qk k k) in *. set (r := l2_norm q) in *.
    split; [apply Forall_insert; [exact Hdim | auto with dims]|].
    intros a b Ha Hb.
    destruct (decide (a = k)) as [->|Hak]; destruct (decide (b = k)) as [->|Hbk].
    + rewrite !nth_insert_eq by lia. rewrite dot_scale_l, dot_scale_r, <- Hsq.
      destruct (decide (k = k)); [|contradiction]. field. lra.
    + rewrite nth_insert_eq, nth_insert_ne by lia.
      rewrite dot_scale_l, dot_comm, Horth by lia.
      destruct (decide (k = b)); [lia | lra].
    + rewrite nth_insert_ne, nth_insert_eq by lia.
      rewrite dot_scale_r, Horth by lia.
      destruct (decide (a = k)); [lia | lra].
    + rewrite !nth_insert_ne by lia. apply Hon; lia.
Qed.

(** Column [i] of the input, from the columns of the output and the
    coefficients stored in column [i] of [R]. *)
Lemma QR_prefix_reconstruct (i c : nat) :
  (i < length V)%nat ->
  sum_range (fun j => column_entry eps (QR_prefix eps V i) i j
                      * component c (nth j (QR_prefix eps V (length V)) []))
            0 (S i)
  = component c (nth i V []).
Proof using V_dim eps_pos V_nonzero V_kept.
  intros Hi. pose (Qi := QR_prefix eps V i).
  destruct (QR_prefix_orthonormal i ltac:(lia)) as [Hdim Hon]. fold Qi in Hdim, Hon.
  assert (Hlen : length Qi = length V) by apply length_QR_prefix.
  destruct (orth_col_props d Qi i Hdim ltac:(lia) Hon i (Nat.le_refl i)) as (_ & _ & Hrec).
  pose proof (kept_norm_pos i Hi) as Hr. fold Qi in Hr.
  rewrite sum_range_snoc.
  rewrite (sum_range_ext _ (fun k => orth_coef Qi i k * component c (nth k Qi []))).
  - rewrite kept_column_entry by exact Hi. fold Qi.
    destruct (decide (i = i)); [|contradiction].
    rewrite nth_QR_prefix_final by lia. rewrite (kept_QR_next i) by lia. fold Qi.
    rewrite nth_insert_eq by lia. rewrite component_scale.
    specialize (Hrec c). unfold Qi in Hrec at 1.
    rewrite nth_QR_prefix_later in Hrec by lia. rewrite Hrec. field. lra.
  - intros j Hj. rewrite kept_column_entry by exact Hi. fold Qi.
    destruct (decide (j = i)); [lia|].
    rewrite (nth_QR_prefix_final eps V j (length V)) by lia.
    unfold Qi. rewrite (nth_QR_prefix_final eps V j i) by lia. reflexivity.
Qed.

End Undropped.

Lemma l2_norm_e1 : l2_norm [1; 0] = 1.
Proof.
  unfold l2_norm. simpl. replace (1 * 1 + (0 * 0 + 0)) with 1 by lra. apply sqrt_1.
Qed.

Lemma l2_norm_0y (y : R) : 0 <= y -> l2_norm [0; y] = y.
Proof.
  intros Hy. unfold l2_norm. simpl.
  replace (0 * 0 + (y * y + 0)) with (y * y) by lra. apply sqrt_square. exact Hy.
Qed.

Lemma l2_norm_ge_first (x y : R) : 0 <= x -> x <= l2_norm [x; y].
Proof.
  intros Hx. unfold l2_norm. simpl. rewrite <- (sqrt_square x Hx) at 1.
  apply sqrt_le_1_alt. nra.
Qed.

(** The run on [after_e1 x y] up to the test for column 1: column 0 is
    kept, and column 1 is orthogonalized to [(0, y)]. *)
Lemma after_e1_second_column (x y : R) :
  ~ drops eps_default (after_e1 x y) 0
  /\ nth 1 (QR_prefix eps_default (after_e1 x y) 1) [] = [x; y]
  /\ orth_col (QR_prefix eps_default (after_e1 x y) 1) 1 1 = [0; y].
Proof.
  destruct (QR_first_column [1; 0] [x; y]) as [Hkeep HQ1]; [left; lra|].
  unfold after_e1. split; [exact Hkeep|]. rewrite HQ1. split; [reflexivity|].
  simpl. rewrite l2_norm_e1. f_equal; [lra | f_equal; lra].
Qed.

Lemma after_e1_independent (x y : R) : y <> 0 -> linearly_independent 2 (after_e1 x y).
Proof.
  intros Hy coef Hlen Hsum.
  destruct coef as [|a [|b [|? ?]]]; simpl in Hlen; try discriminate.
  unfold after_e1, weighted_sum, vplus, vsmul in Hsum. simpl in Hsum.
  injection Hsum as H1 H2.
  assert (Hby : b * y = 0) by lra.
  destruct (Rmult_integral _ _ Hby) as [Hb|Hy0]; [|contradiction].
  subst b. repeat constructor. lra.
Qed.

(** C5, as stated, fails: the vectors [(1, 0)], [(1, 1/1000)] are linearly
    independent, and with the default [eps] column 1 is dropped: [Q[1]] is
    the zero vector, so [<Q[1], Q[1]>] is not [1], and with [R[0][1] = 0],
    [R[1][1] = 1] the combination [R[0][1]*Q[0] + R[1][1]*Q[1]] is the zero
    vector, not the input column. *)
Lemma QR_near_dependent_dropped :
  linearly_independent 2 nearly_parallel
  /\ exists Q' R',
       compute_QR_decomposition nearly_parallel (zero_matrix 2) eps_default = Ret (Q', R')
       /\ nth 1 Q' [] = [0; 0]
       /\ dot (nth 1 Q' []) (nth 1 Q' []) <> 1
       /\ Matrix.get R' 0 1 = Ret 0
       /\ Matrix.get R' 1 1 = Ret 1.
Proof.
  split; [apply after_e1_independent; lra|].
  destruct (after_e1_second_column 1 (1 / 1000)) as (_ & Hcol & Horth).
  fold nearly_parallel in Hcol, Horth.
  assert (Hdrop : drops eps_default (QR_prefix eps_default nearly_parallel 1) 1).
  { unfold drops. rewrite Hcol, Horth. rewrite l2_norm_0y by lra.
    pose proof (l2_norm_ge_first 1 (1 / 1000) ltac:(lra)). unfold eps_default. lra. }
  destruct (QR_dropped_column eps_default nearly_parallel (zero_matrix 2) 1)
    as (Q' & R' & Hrun & _ & HQ & H01 & H11).
  - apply zero_matrix_wf. rewrite uint_modulus_value. lia.
  - unfold order. simpl. lia.
  - simpl. lia.
  - exact Hdrop.
  - exists Q', R'. rewrite Horth in HQ. simpl in HQ.
    split; [exact Hrun|]. split; [exact HQ|]. split; [rewrite HQ; simpl; lra|].
    split; [apply (H01 0%nat); lia | exact H11].
Qed.

(** C5, amended. For linearly independent input vectors of one size, a
    positive [eps] and a freshly constructed [R] of size at least the
    number of vectors, if no column meets the test
    [r_ii < eps * norm_initial], then after [compute_QR_decomposition] the
    columns of [Q] are pairwise orthonormal, [R] is upper-triangular, and
    for every column [i] the combination [sum_{j <= i} R[j][i] * Q[j]] is
    the [i]-th input vector: column [i] of the output belongs to column [i]
    of the input. *)
Theorem QR_factorization (d : nat) (size : N) (eps : R) (V : list VectorType)
  (R0 : Matrix.t) :
  Matrix.new size = Ret R0 -> (length V <= N.to_nat size)%nat ->
  Forall (fun v => length v = d) V -> linearly_independent d V -> 0 < eps ->
  (forall i, (i < length V)%nat -> ~ drop_test eps V R0 i) ->
  exists Q' R',
    compute_QR_decomposition V R0 eps = Ret (Q', R')
    /\ length Q' = length V
    /\ (forall i j, (i < length V)%nat -> (j < length V)%nat ->
          dot (nth i Q' []) (nth j Q' []) = if decide (i = j) then 1 else 0)
    /\ (forall i j, (j < i < N.to_nat size)%nat ->
          Matrix.get R' (N.of_nat i) (N.of_nat j) = Ret 0)
    /\ (forall i, (i < length V)%nat ->
          weighted_sum (replicate d 0) (map (fun j => entry R' j i) (seq 0 (S i))) Q'
          = nth i V []).
Proof.
  intros Hnew Hsize Hdim Hli Heps Hkept.
  apply new_spec in Hnew as [Hov ->].
  pose proof (zero_matrix_wf size Hov) as Hwf.
  assert (Hord : order (zero_matrix size) = N.to_nat size) by reflexivity.
  assert (Hnz : forall i, (i < length V)%nat -> Exists (fun x => x <> 0) (nth i V []))
    by (intros i Hi; apply (linearly_independent_nonzero d); assumption).
  assert (Hk : forall i, (i < length V)%nat -> ~ drops eps (QR_prefix eps V i) i).
  { intros i Hi Hd. apply (Hkept i Hi).
    apply drop_test_drops; [exact Hwf | lia | exact Hi | exact Hd]. }
  destruct (compute_QR_decomposition_spec eps V (zero_matrix size) Hwf ltac:(lia))
    as (R' & Hrun & Hwf' & Ho & Hcol & Hfr).
  destruct (QR_prefix_orthonormal d eps V Hdim Heps Hnz Hk (length V) (Nat.le_refl _))
    as [HdimQ Hon].
  exists (QR_prefix eps V (length V)), R'. split; [exact Hrun|].
  split; [apply length_QR_prefix|]. split; [exact Hon|]. split.
  - intros i j Hij. rewrite get_entry by (auto; lia). f_equal.
    rewrite Hfr by lia. apply entry_zero_matrix.
  - intros i Hi. apply (vec_ext_dim d).
    + apply dim_weighted_sum; [apply length_replicate | exact HdimQ].
    + apply nth_dim; assumption.
    + intros c. rewrite <- (drop_0 (QR_prefix eps V (length V))).
      rewrite (component_weighted_sum d)
        by (auto; rewrite length_QR_prefix; lia).
      rewrite <- (QR_prefix_reconstruct d eps V Hdim Heps Hnz Hk i c Hi).
      apply sum_range_ext. intros j Hj. rewrite Hcol by lia. reflexivity.
Qed.

(** The run on the unit vectors [(1, 0)], [(0, 1)] drops no column. *)
Lemma unit_vectors_kept (i : nat) :
  (i < 2)%nat -> ~ drop_test eps_default (after_e1 0 1) (zero_matrix 2) i.
Proof.
  intros Hi Hd.
  apply drop_test_drops in Hd;
    [| apply zero_matrix_wf; rewrite uint_modulus_value; lia
     | unfold order; simpl; lia | simpl; lia].
  destruct (after_e1_second_column 0 1) as (Hkeep & Hcol & Horth).
  destruct i as [|[|i]]; [exact (Hkeep Hd) | | lia].
  unfold drops in Hd. rewrite Hcol, Horth in Hd.
  rewrite l2_norm_0y in Hd by lra. unfold eps_default in Hd. lra.
Qed.

Lemma QR_factorization_witness :
  exists Q' R',
    compute_QR_decomposition (after_e1 0 1) (zero_matrix 2) eps_default = Ret (Q', R')
    /\ dot (nth 0 Q' []) (nth 1 Q' []) = 0
    /\ dot (nth 1 Q' []) (nth 1 Q' []) = 1
    /\ weighted_sum (replicate 2 0) [entry R' 0 1; entry R' 1 1] Q' = [0; 1].
Proof.
  destruct (QR_factorization 2 2 eps_default (after_e1 0 1) (zero_matrix 2))
    as (Q' & R' & Hrun & _ & Hon & _ & Hrec).
  - apply new_fits. rewrite uint_modulus_value. lia.
  - simpl. lia.
  - repeat constructor.
  - apply after_e1_independent. lra.
  - unfold eps_default. lra.
  - intros i Hi. apply unit_vectors_kept. exact Hi.
  - exists Q', R'. split; [exact Hrun|].
    split; [apply (Hon 0%nat 1%nat); simpl; lia|].
    split; [apply (Hon 1%nat 1%nat); simpl; lia|].
    apply (Hrec 1%nat). simpl. lia.
Defined.

(** * Further properties of the code *)

(** ** [Matrix]: constructor, [init], repeated [set] *)

Lemma vec_put_no_throw {A : Type} (v : list A) (i : nat) (x : A) (msg : string) :
  vec_put v i x <> Throw msg.
Proof. unfold vec_put. destruct (decide _); discriminate. Qed.

Lemma store_no_throw (m : Matrix.t) (k : nat) (v : R) (msg : string) :
  Matrix.store m k v <> Throw msg.
Proof.
  unfold Matrix.store, vec_put. destruct (decide _); simpl; discriminate.
Qed.

(** A loop whose body never throws does not throw. *)
Lemma for_up_no_throw {St : Type} (body : nat -> St -> outcome St)
  (count lo : nat) (s : St) (msg : string) :
  (forall k t, body k t <> Throw msg) -> for_up body lo count s <> Throw msg.
Proof.
  intros Hbody. revert lo s. induction count as [|count IH]; intros lo s; simpl.
  - discriminate.
  - destruct (body lo s) as [t|msg'|] eqn:E; simpl.
    + apply IH.
    + intros H. inversion H; subst. exact (Hbody lo s E).
    + discriminate.
Qed.

(** The constructor, for every size, once [data.resize(M * M)] has
    allocated (a [std::bad_alloc] out of it ends the constructor before
    [init] and is not an outcome of [Matrix.new]): it returns the zero
    matrix when [M * M] fits an [unsigned int]; otherwise [resize] got the
    wrapped product and [init] writes outside [data]. Neither [resize],
    once it has allocated, nor [init] throws. *)
Theorem Matrix_new_defined (size : N) :
  Matrix.new size
  = if (size * size <? uint_modulus)%N then Ret (zero_matrix size) else Undef.
Proof.
  destruct (size * size <? uint_modulus)%N eqn:E.
  - apply new_fits. apply N.ltb_lt. exact E.
  - apply N.ltb_ge in E. destruct (Matrix.new size) as [m|msg|] eqn:Hnew.
    + apply new_Ret_fits in Hnew. lia.
    + exfalso. revert Hnew. unfold Matrix.new, Matrix.init.
      apply for_up_no_throw. intros i m1. apply for_up_no_throw.
      intros j m2. apply store_no_throw.
    + reflexivity.
Qed.

(** The rows [i, i+1, ...] of [init], from a state whose first [i] rows
    are already zero. *)
Lemma init_loops (m : Matrix.t) :
  Matrix_wf m ->
  exists m',
    Matrix.init m = Ret m'
    /\ Matrix.M m' = Matrix.M m
    /\ length (Matrix.data m') = length (Matrix.data m)
    /\ forall k, (k < order m * order m)%nat -> Matrix.data m' !! k = Some 0.
Proof.
  intros [Hov Hlen]. unfold Matrix.init.
  set (n := order m).
  pose (Inv := fun (done : nat) (s : Matrix.t) =>
                 Matrix.M s = Matrix.M m
                 /\ length (Matrix.data s) = length (Matrix.data m)
                 /\ forall k, (k < done)%nat -> Matrix.data s !! k = Some 0).
  destruct (for_up_inv (fun i s => Inv (i * n)%nat s)
    (fun i m1 =>
       for_up (fun j m2 => Matrix.store m2
                 (Matrix.subscript m2 (N.of_nat i) (N.of_nat j)) 0)
              0 (N.to_nat (Matrix.M m1)) m1)
    (N.to_nat (Matrix.M m)) 0 m) as (m' & Hrun & HM & HL & Hz).
  - repeat split; auto. intros k Hk. lia.
  - intros i s Hi (HM & HL & Hz). rewrite HM. fold (order m). fold n.
    destruct (for_up_inv (fun j t => Inv (i * n + j)%nat t)
      (fun j m2 => Matrix.store m2
                     (Matrix.subscript m2 (N.of_nat i) (N.of_nat j)) 0)
      n 0 s) as (t & Hrun & Ht).
    + rewrite Nat.add_0_r. repeat split; auto.
    + intros j t Hj (HMt & HLt & Hzt).
      assert (Hwft : Matrix_wf t) by (split; [rewrite HMt; exact Hov | rewrite HLt, HMt; exact Hlen]).
      destruct (subscript_in_range t (N.of_nat i) (N.of_nat j) Hwft)
        as [Hsub Hlt]; [rewrite HMt; unfold n, order in *; lia..|].
      destruct (store_wf t _ 0 Hwft Hlt) as [-> _].
      eexists. split; [reflexivity|]. unfold Inv. simpl.
      rewrite length_insert. repeat split; auto.
      intros k Hk. rewrite Hsub, !Nat2N.id. unfold order. rewrite HMt. fold (order m). fold n.
      destruct (decide (k = i * n + j)%nat) as [->|Hne].
      * apply list_lookup_insert_eq. rewrite Hsub, !Nat2N.id in Hlt.
        unfold order in Hlt. rewrite HMt in Hlt. exact Hlt.
      * rewrite list_lookup_insert_ne by lia. apply Hzt. lia.
    + exists t. split; [exact Hrun|].
      replace (S i * n)%nat with (i * n + (0 + n))%nat by lia. exact Ht.
  - exists m'. split; [exact Hrun|]. split; [exact HM|]. split; [exact HL|].
    intros k Hk. apply Hz. unfold n. simpl. fold (order m). lia.
Qed.

(** [init()] on any matrix a program can hold sets every entry to zero
    and keeps the size: the result is the matrix the constructor builds. *)
Theorem Matrix_init_resets (size : N) (m : Matrix.t) :
  Matrix.reachable size m -> Matrix.init m = Ret (zero_matrix size).
Proof.
  intros Hreach. destruct (reachable_wf size m Hreach) as [Hwf HM].
  destruct (init_loops m Hwf) as ([M' d'] & Hrun & HM' & HL & Hz).
  simpl in HM', HL, Hz. rewrite Hrun. f_equal. unfold zero_matrix.
  destruct Hwf as [_ Hlen]. rewrite HM in *. subst M'. f_equal.
  apply list_eq. intros k.
  destruct (decide (k < N.to_nat (size * size))%nat) as [Hk|Hk].
  - rewrite Hz by (unfold order; rewrite HM; lia).
    symmetry. apply lookup_replicate. split; [reflexivity | exact Hk].
  - rewrite !lookup_ge_None_2; [reflexivity | rewrite length_replicate; lia | lia].
Qed.

Lemma Matrix_init_resets_witness :
  Matrix.reachable 2 upper_2x2 /\ Matrix.init upper_2x2 = Ret (zero_matrix 2).
Proof.
  split; [exact upper_2x2_reachable|].
  exact (Matrix_init_resets 2 upper_2x2 upper_2x2_reachable).
Defined.

(** Two calls of [set] in a row, on in-range cells: on the same cell the
    second value stays; on different cells the order of the calls does not
    matter. *)
Theorem Matrix_set_twice (size : N) (m : Matrix.t) (i j i' j' : N) (v w : R) :
  Matrix.reachable size m ->
  (i < size)%N -> (j < size)%N -> (i' < size)%N -> (j' < size)%N ->
  (let* m1 := Matrix.set m v i j in Matrix.set m1 w i j) = Matrix.set m w i j
  /\ ((i, j) <> (i', j') ->
      (let* m1 := Matrix.set m v i j in Matrix.set m1 w i' j')
      = (let* m1 := Matrix.set m w i' j' in Matrix.set m1 v i j)).
Proof.
  intros Hreach Hi Hj Hi' Hj'. destruct (reachable_wf size m Hreach) as [Hwf HM].
  rewrite <- HM in Hi, Hj, Hi', Hj'.
  rewrite !(set_upd_N m) by assumption. simpl.
  rewrite !set_upd_N by (try apply upd_wf; assumption).
  split.
  - f_equal. unfold Matrix_upd. simpl. f_equal. apply list_insert_insert_eq.
  - intros Hne. f_equal. unfold Matrix_upd. simpl. f_equal.
    change (order (Matrix.mk (Matrix.M m) _)) with (order m).
    apply list_insert_insert_ne. intros Heq.
    apply cell_inj in Heq as [H1 H2]; [|unfold order; lia..].
    apply N2Nat.inj in H1, H2. subst. apply Hne. reflexivity.
Qed.

Lemma Matrix_set_twice_witness :
  Matrix.reachable 2 (zero_matrix 2)
  /\ (let* m1 := Matrix.set (zero_matrix 2) 3 0 1 in Matrix.set m1 7 0 1)
     = Matrix.set (zero_matrix 2) 7 0 1.
Proof.
  split; [exact two_by_two_reachable|].
  apply (Matrix_set_twice 2 (zero_matrix 2) 0 1 0 1 3 7 two_by_two_reachable); lia.
Defined.

(** ** Back substitution: what is read, and the leading block *)

(** Two results that obey the recurrence of the loop, over data that
    agree on the upper triangle and on the right-hand side, are equal. *)
Lemma recurrence_determines (m1 m2 : Matrix.t) (rhs1 rhs2 x1 x2 : list R) (n : nat) :
  length x1 = n -> length x2 = n ->
  (forall i j, (i <= j < n)%nat -> entry m1 i j = entry m2 i j) ->
  (forall i, (i < n)%nat -> nth i rhs1 0 = nth i rhs2 0) ->
  (forall i, (i < n)%nat ->
     nth i x1 0 = (nth i rhs1 0 - row_tail m1 x1 n i) / entry m1 i i) ->
  (forall i, (i < n)%nat ->
     nth i x2 0 = (nth i rhs2 0 - row_tail m2 x2 n i) / entry m2 i i) ->
  x1 = x2.
Proof.
  intros Hl1 Hl2 Hm Hrhs Hr1 Hr2.
  assert (Hsame : forall k i, (n - k <= i < n)%nat -> nth i x1 0 = nth i x2 0).
  { induction k as [|k IH]; intros i Hi; [lia|].
    destruct (decide (n - k <= i)%nat) as [Hin|Hout]; [apply IH; lia|].
    rewrite (Hr1 i), (Hr2 i) by lia. rewrite (Hm i i), (Hrhs i) by lia.
    assert (Htail : row_tail m1 x1 n i = row_tail m2 x2 n i).
    { unfold row_tail. apply sum_range_ext. intros j Hj.
      rewrite Hm by lia. rewrite IH by lia. reflexivity. }
    rewrite Htail. reflexivity. }
  apply (nth_ext _ _ 0 0); [lia|]. intros i Hi. apply (Hsame n). lia.
Qed.

(** [backward_substitution] reads the upper triangle of the leading
    [n]-by-[n] block of the matrix, the first [n] entries of [rhs] and the
    size [n] of [dst], and nothing else: two calls that agree on these
    return the same result. Entries below the diagonal, entries outside
    the block, the tail of [rhs] and the old contents of [dst] play no part. *)
Theorem backward_substitution_reads_upper_triangle
  (size1 size2 : N) (m1 m2 : Matrix.t) (dst1 dst2 rhs1 rhs2 : list R) :
  Matrix.reachable size1 m1 -> Matrix.reachable size2 m2 ->
  length dst1 = length dst2 ->
  (length dst1 <= N.to_nat size1)%nat -> (length dst1 <= N.to_nat size2)%nat ->
  (length dst1 <= length rhs1)%nat -> (length dst1 <= length rhs2)%nat ->
  (forall i j, (i <= j < length dst1)%nat -> entry m1 i j = entry m2 i j) ->
  (forall i, (i < length dst1)%nat -> nth i rhs1 0 = nth i rhs2 0) ->
  exists x,
    backward_substitution m1 dst1 rhs1 = Ret x
    /\ backward_substitution m2 dst2 rhs2 = Ret x.
Proof.
  intros Hr1 Hr2 Hlen Hs1 Hs2 Hrhs1 Hrhs2 Hm Hrhs.
  destruct (reachable_wf _ _ Hr1) as [Hwf1 HM1].
  destruct (reachable_wf _ _ Hr2) as [Hwf2 HM2].
  destruct (backward_substitution_runs m1 dst1 rhs1 Hwf1) as (x1 & Hx1 & Hl1 & Hrec1);
    [unfold order; rewrite HM1; lia | lia |].
  destruct (backward_substitution_runs m2 dst2 rhs2 Hwf2) as (x2 & Hx2 & Hl2 & Hrec2);
    [unfold order; rewrite HM2; lia | lia |].
  rewrite <- Hlen in Hl2, Hrec2.
  exists x1. split; [exact Hx1|]. rewrite Hx2. f_equal. symmetry.
  apply (recurrence_determines m1 m2 rhs1 rhs2 x1 x2 (length dst1)); auto.
Qed.

Lemma backward_substitution_reads_upper_triangle_witness :
  exists x,
    backward_substitution upper_2x2 [0; 0] [5; 8] = Ret x
    /\ backward_substitution (Matrix_upd upper_2x2 1 0 9) [7; 7] [5; 8; 6] = Ret x.
Proof.
  apply (backward_substitution_reads_upper_triangle 2 2).
  - exact upper_2x2_reachable.
  - apply reachable_upd; [exact upper_2x2_reachable | unfold order; simpl; lia..].
  - reflexivity.
  - simpl. lia.
  - simpl. lia.
  - simpl. lia.
  - simpl. lia.
  - intros i j Hij. simpl in Hij. symmetry. apply entry_upd_ne.
    + unfold order. simpl. lia.
    + unfold order. simpl. lia.
    + intros Heq. inversion Heq. lia.
  - intros i Hi. simpl in Hi. destruct i as [|[|i]]; [reflexivity | reflexivity | lia].
Defined.

(** The solution of the leading block, for a matrix in its invariant. *)
Lemma leading_block_solution (matrix : Matrix.t) (dst rhs : list R) :
  Matrix_wf matrix ->
  (length dst <= order matrix)%nat -> (length dst <= length rhs)%nat ->
  (forall i j, (j < i < length dst)%nat -> entry matrix i j = 0) ->
  (forall i, (i < length dst)%nat -> entry matrix i i <> 0) ->
  exists x,
    backward_substitution matrix dst rhs = Ret x
    /\ length x = length dst
    /\ (forall i, (i < length dst)%nat ->
          row_times matrix x (length dst) i = nth i rhs 0)
    /\ (forall x0, length x0 = length dst ->
          (forall i, (i < length dst)%nat ->
             row_times matrix x0 (length dst) i = nth i rhs 0) -> x = x0).
Proof.
  intros Hwf Hord Hrhs Hup Hdiag.
  destruct (backward_substitution_runs matrix dst rhs Hwf Hord Hrhs)
    as (x & Hx & Hlen & Hrec).
  exists x. split; [exact Hx|]. split; [exact Hlen|]. split.
  - intros i Hi. rewrite upper_triangular_row by assumption.
    rewrite (Hrec i Hi) at 1. field. apply Hdiag. exact Hi.
  - intros x0 Hlen0 Hsol0.
    apply (recurrence_determines matrix matrix rhs rhs x x0 (length dst)); auto.
    intros i Hi. pose proof (Hsol0 i Hi) as H0.
    rewrite upper_triangular_row in H0 by assumption.
    rewrite <- H0. field. apply Hdiag. exact Hi.
Qed.

(** The leading block: with [dst] of size [n <= M], an upper-triangular
    leading [n]-by-[n] block with non-zero diagonal and [rhs] of size at
    least [n], [backward_substitution] returns the one solution of the
    [n]-by-[n] system of that block; rows and columns [n ..] of the matrix
    and entries [n ..] of [rhs] are not used. *)
Theorem backward_substitution_leading_block
  (size : N) (matrix : Matrix.t) (dst rhs : list R) :
  Matrix.reachable size matrix ->
  (length dst <= N.to_nat size)%nat -> (length dst <= length rhs)%nat ->
  (forall i j, (j < i < length dst)%nat -> entry matrix i j = 0) ->
  (forall i, (i < length dst)%nat -> entry matrix i i <> 0) ->
  exists x,
    backward_substitution matrix dst rhs = Ret x
    /\ length x = length dst
    /\ (forall i, (i < length dst)%nat ->
          row_times matrix x (length dst) i = nth i rhs 0)
    /\ (forall x0, length x0 = length dst ->
          (forall i, (i < length dst)%nat ->
             row_times matrix x0 (length dst) i = nth i rhs 0) -> x = x0).
Proof.
  intros Hreach Hsize Hrhs Hup Hdiag. destruct (reachable_wf _ _ Hreach) as [Hwf HM].
  apply leading_block_solution; auto. unfold order. rewrite HM. exact Hsize.
Qed.

Lemma backward_substitution_leading_block_witness :
  exists x,
    backward_substitution upper_2x2 [0] [6; 8] = Ret x
    /\ row_times upper_2x2 x 1 0 = 6.
Proof.
  destruct upper_2x2_entries as (E00 & _).
  destruct (backward_substitution_leading_block 2 upper_2x2 [0] [6; 8])
    as (x & Hx & _ & Hsol & _).
  - exact upper_2x2_reachable.
  - simpl. lia.
  - simpl. lia.
  - intros i j Hij. simpl in Hij. lia.
  - intros i Hi. simpl in Hi. assert (i = 0%nat) as -> by lia. rewrite E00. lra.
  - exists x. split; [exact Hx|]. apply (Hsol 0%nat). simpl. lia.
Defined.

(** With [rhs] shorter than [dst], both back substitutions read [rhs]
    outside its size in the first statement of their loop: no exception is
    thrown, the behaviour is undefined. *)
Theorem back_substitutions_short_rhs
  (matrix : Matrix.t) (dst rhs : list R) (dst_v rhs_v : list VectorType) :
  ((length rhs < length dst)%nat -> backward_substitution matrix dst rhs = Undef)
  /\ ((length rhs_v < length dst_v)%nat ->
      backward_substitution_multiple_rhs matrix dst_v rhs_v = Undef).
Proof.
  split.
  - apply backward_substitution_short_rhs.
  - intros Hrhs. unfold backward_substitution_multiple_rhs.
    destruct (length dst_v) as [|n'] eqn:Hn; [lia|]. simpl.
    unfold vec_get. rewrite lookup_ge_None_2 by lia. reflexivity.
Qed.

Lemma back_substitutions_short_rhs_witness :
  backward_substitution unit_1x1 [0] [] = Undef
  /\ backward_substitution_multiple_rhs unit_1x1 [[0]] [] = Undef.
Proof.
  destruct (back_substitutions_short_rhs unit_1x1 [0] [] [[0]] []) as [H1 H2].
  split; [apply H1 | apply H2]; simpl; lia.
Defined.

(** ** [compute_QR_decomposition]: more vectors than the order of [R] *)

Lemma orthogonalize_loop_shape (Q : list VectorType) (R_ : Matrix.t) (i count : nat) :
  Matrix_wf R_ -> (i < length Q)%nat -> (i < order R_)%nat -> (count <= i)%nat ->
  exists s',
    for_up (orthogonalize i) 0 count (Q, R_) = Ret s'
    /\ length s'.1 = length Q /\ Matrix_wf s'.2 /\ order s'.2 = order R_.
Proof.
  intros Hwf Hi Hord Hc.
  apply (for_up_inv
    (fun _ (s : QR_state) =>
       length s.1 = length Q /\ Matrix_wf s.2 /\ order s.2 = order R_)
    (orthogonalize i) count 0 (Q, R_)); [auto|].
  intros j [Qs Rs] Hj (HL & Hwfs & Ho). simpl in HL, Hwfs, Ho.
  unfold orthogonalize. simpl.
  rewrite (vec_get_nth Qs j ([] : VectorType)) by lia. simpl.
  rewrite (vec_get_nth Qs i ([] : VectorType)) by lia. simpl.
  rewrite set_upd by (auto; lia). simpl.
  rewrite vec_put_Ret by lia. simpl.
  eexists. split; [reflexivity|]. simpl. rewrite length_insert.
  split; [exact HL|]. split; [apply upd_wf; exact Hwfs | rewrite order_upd; exact Ho].
Qed.

(** An iteration for a column inside the matrix returns. *)
Lemma QR_column_shape (eps : R) (Q : list VectorType) (R_ : Matrix.t) (i : nat) :
  Matrix_wf R_ -> (i < length Q)%nat -> (i < order R_)%nat ->
  exists s',
    QR_column eps i (Q, R_) = Ret s'
    /\ length s'.1 = length Q /\ Matrix_wf s'.2 /\ order s'.2 = order R_.
Proof.
  intros Hwf Hi Hord. unfold QR_column. simpl.
  rewrite (vec_get_nth Q i ([] : VectorType)) by lia. simpl.
  destruct (orthogonalize_loop_shape Q R_ i i Hwf Hi Hord (Nat.le_refl i))
    as ([Q1 R1] & -> & HL & Hwf1 & Ho1). simpl in HL, Hwf1, Ho1. simpl.
  rewrite (vec_get_nth Q1 i ([] : VectorType)) by lia. simpl.
  destruct (Rlt_dec _ _) as [Hd|Hd].
  - rewrite vec_put_Ret by lia. simpl.
    destruct (clear_loop R1 i Hwf1 ltac:(lia)) as (R2 & -> & Hwf2 & Ho2 & _). simpl.
    rewrite set_upd by (auto; lia). simpl. eexists. split; [reflexivity|]. simpl.
    rewrite length_insert. split; [exact HL|].
    split; [apply upd_wf; exact Hwf2 | rewrite order_upd; lia].
  - rewrite set_upd by (auto; lia). simpl.
    rewrite vec_put_Ret by lia. simpl. eexists. split; [reflexivity|]. simpl.
    rewrite length_insert. split; [exact HL|].
    split; [apply upd_wf; exact Hwf1 | rewrite order_upd; lia].
Qed.

(** The iteration for the first column outside the matrix throws: at
    [R.set(r_ji, 0, i)], or for a matrix of size 0 at [R.set(., 0, 0)]. *)
Lemma QR_column_throws (eps : R) (Q : list VectorType) (R_ : Matrix.t) (i : nat) :
  i = order R_ -> (i < length Q)%nat ->
  QR_column eps i (Q, R_) = Throw Matrix.index_message.
Proof.
  intros Hord Hi. unfold QR_column. simpl.
  rewrite (vec_get_nth Q i ([] : VectorType)) by lia. simpl.
  destruct i as [|i'].
  - simpl. rewrite (vec_get_nth Q 0 ([] : VectorType)) by lia. simpl.
    destruct (Rlt_dec _ _) as [Hd|Hd].
    + rewrite vec_put_Ret by lia. simpl.
      rewrite set_throw by (unfold order in Hord; lia). reflexivity.
    + rewrite set_throw by (unfold order in Hord; lia). reflexivity.
  - simpl. unfold orthogonalize at 1. simpl.
    rewrite (vec_get_nth Q 0 ([] : VectorType)) by lia. simpl.
    rewrite (vec_get_nth Q (S i') ([] : VectorType)) by lia. simpl.
    rewrite set_throw by (unfold order in Hord; lia). reflexivity.
Qed.

(** With more vectors in [Q] than the order of [R],
    [compute_QR_decomposition] throws the index error of [Matrix::set]
    (after the columns inside the matrix have been processed). *)
Theorem QR_too_many_vectors (size : N) (eps : R) (Q : list VectorType) (R_ : Matrix.t) :
  Matrix.reachable size R_ -> (N.to_nat size < length Q)%nat ->
  compute_QR_decomposition Q R_ eps = Throw Matrix.index_message.
Proof.
  intros Hreach Hlen. destruct (reachable_wf _ _ Hreach) as [Hwf HM].
  assert (Hord : order R_ = N.to_nat size) by (unfold order; rewrite HM; reflexivity).
  unfold compute_QR_decomposition.
  replace (length Q) with (order R_ + S (length Q - S (order R_)))%nat by lia.
  rewrite for_up_split.
  destruct (for_up_inv
    (fun _ (s : QR_state) =>
       length s.1 = length Q /\ Matrix_wf s.2 /\ order s.2 = order R_)
    (QR_column eps) (order R_) 0 (Q, R_)) as ([Q1 R1] & -> & HL & Hwf1 & Ho1); [auto| |].
  - intros k [Qs Rs] Hk (HL & Hwfs & Ho). simpl in HL, Hwfs, Ho.
    destruct (QR_column_shape eps Qs Rs k Hwfs) as (s' & Hs' & HL' & Hwf' & Ho');
      [lia | lia |].
    exists s'. split; [exact Hs'|]. split; [lia|]. split; [exact Hwf' | lia].
  - simpl in HL, Hwf1, Ho1. simpl.
    rewrite QR_column_throws by lia. reflexivity.
Qed.

Lemma QR_too_many_vectors_witness :
  Matrix.reachable 1 unit_1x1
  /\ compute_QR_decomposition [[1; 0]; [0; 1]] unit_1x1 eps_default
     = Throw Matrix.index_message.
Proof.
  split; [exact unit_1x1_reachable|].
  apply (QR_too_many_vectors 1); [exact unit_1x1_reachable | simpl; lia].
Defined.

(** ** [compute_QR_decomposition]: what it leaves alone *)

(** [compute_QR_decomposition] on [n] vectors and a matrix of size
    [M >= n] returns, keeps the number of vectors and the size of [R], and
    writes only [R[r][c]] with [r <= c < n]: entries below the diagonal and
    in columns [n ..] keep the values they had. [R] is not reset. *)
Theorem QR_frame (size : N) (eps : R) (Q : list VectorType) (R_ : Matrix.t) :
  Matrix.reachable size R_ -> (length Q <= N.to_nat size)%nat ->
  exists Q' R',
    compute_QR_decomposition Q R_ eps = Ret (Q', R')
    /\ length Q' = length Q
    /\ Matrix.M R' = size
    /\ forall r c, (r < size)%N -> (c < size)%N ->
         (N.of_nat (length Q) <= c)%N \/ (c < r)%N ->
         Matrix.get R' r c = Matrix.get R_ r c.
Proof.
  intros Hreach Hlen. destruct (reachable_wf _ _ Hreach) as [Hwf HM].
  assert (Hord : order R_ = N.to_nat size) by (unfold order; rewrite HM; reflexivity).
  destruct (compute_QR_decomposition_spec eps Q R_ Hwf ltac:(lia))
    as (R' & Hrun & Hwf' & Ho & _ & Hfr).
  assert (HM' : Matrix.M R' = size) by (unfold order in Ho; lia).
  exists (QR_prefix eps Q (length Q)), R'. split; [exact Hrun|].
  split; [apply length_QR_prefix|]. split; [exact HM'|].
  intros r c Hr Hc Hrc.
  rewrite (get_entry_N R') by (auto; lia). rewrite (get_entry_N R_) by (auto; lia).
  f_equal. apply Hfr; lia.
Qed.

Lemma QR_frame_witness :
  Matrix.reachable 2 (Matrix_upd upper_2x2 1 0 9)
  /\ exists Q' R',
       compute_QR_decomposition [[3; 4]] (Matrix_upd upper_2x2 1 0 9) eps_default
       = Ret (Q', R')
       /\ Matrix.get R' 1 0 = Ret 9 /\ Matrix.get R' 0 1 = Ret 1.
Proof.
  assert (Hreach : Matrix.reachable 2 (Matrix_upd upper_2x2 1 0 9))
    by (apply reachable_upd; [exact upper_2x2_reachable | unfold order; simpl; lia..]).
  split; [exact Hreach|].
  destruct (QR_frame 2 eps_default [[3; 4]] (Matrix_upd upper_2x2 1 0 9) Hreach)
    as (Q' & R' & Hrun & _ & _ & Hfr); [simpl; lia|].
  exists Q', R'. split; [exact Hrun|].
  split; [rewrite Hfr by (simpl; lia); reflexivity|].
  rewrite Hfr by (simpl; lia). reflexivity.
Defined.

(** ** [compute_QR_decomposition] with dropped columns *)

(** The diagonal entry of a column that is not the zero vector, for a
    positive [eps]: the sentinel [1], or a norm of at least
    [eps * norm_initial]. *)
Lemma column_entry_diagonal (eps : R) (Q : list VectorType) (i : nat) :
  0 < eps -> Exists (fun x => x <> 0) (nth i Q []) ->
  0 < column_entry eps Q i i
  /\ (column_entry eps Q i i = 1 \/ eps * l2_norm (nth i Q []) <= column_entry eps Q i i).
Proof.
  intros Heps Hnz. pose proof (l2_norm_pos _ Hnz) as Hpos. unfold column_entry.
  assert (0 < eps * l2_norm (nth i Q [])) by nra.
  destruct (Rlt_dec _ _) as [Hlt|Hge]; destruct (decide (i = i)); try contradiction.
  - split; [lra | left; reflexivity].
  - split; [lra | right; lra].
Qed.

(** With a positive [eps] and no zero vector among the [n <= M] inputs,
    [compute_QR_decomposition] returns and every diagonal entry
    [R[i][i]], [i < n], is positive: it is the sentinel [1] of a dropped
    column or a norm of at least [eps * norm_initial]. *)
Theorem QR_diagonal_positive (size : N) (eps : R) (Q : list VectorType) (R_ : Matrix.t) :
  Matrix.reachable size R_ -> (length Q <= N.to_nat size)%nat -> 0 < eps ->
  (forall i, (i < length Q)%nat -> Exists (fun x => x <> 0) (nth i Q [])) ->
  exists Q' R',
    compute_QR_decomposition Q R_ eps = Ret (Q', R')
    /\ forall i, (i < length Q)%nat ->
         exists x, Matrix.get R' (N.of_nat i) (N.of_nat i) = Ret x
                   /\ 0 < x /\ (x = 1 \/ eps * l2_norm (nth i Q []) <= x).
Proof.
  intros Hreach Hlen Heps Hnz. destruct (reachable_wf _ _ Hreach) as [Hwf HM].
  assert (Hord : order R_ = N.to_nat size) by (unfold order; rewrite HM; reflexivity).
  destruct (compute_QR_decomposition_spec eps Q R_ Hwf ltac:(lia))
    as (R' & Hrun & Hwf' & Ho & Hcol & _).
  exists (QR_prefix eps Q (length Q)), R'. split; [exact Hrun|].
  intros i Hi. rewrite get_entry by (auto; lia). eexists. split; [reflexivity|].
  rewrite Hcol by lia.
  rewrite <- (nth_QR_prefix_later eps Q i i) by lia.
  apply column_entry_diagonal; [exact Heps|].
  rewrite nth_QR_prefix_later by lia. apply Hnz. exact Hi.
Qed.

Lemma QR_diagonal_positive_witness :
  Matrix.reachable 2 (zero_matrix 2)
  /\ exists Q' R',
       compute_QR_decomposition [[3; 4]; [3; 4]] (zero_matrix 2) eps_default = Ret (Q', R')
       /\ exists x, Matrix.get R' 1 1 = Ret x /\ 0 < x.
Proof.
  split; [exact two_by_two_reachable|].
  destruct (QR_diagonal_positive 2 eps_default [[3; 4]; [3; 4]] (zero_matrix 2)
              two_by_two_reachable) as (Q' & R' & Hrun & Hdiag).
  - simpl. lia.
  - unfold eps_default. lra.
  - intros i Hi. simpl in Hi. destruct i as [|[|i]]; [left; lra | left; lra | lia].
  - exists Q', R'. split; [exact Hrun|].
    destruct (Hdiag 1%nat) as (x & Hx & Hpos & _); [simpl; lia|].
    exists x. split; [exact Hx | exact Hpos].
Defined.

(** Modified Gram-Schmidt on column [i] when the columns before it are
    pairwise orthogonal and each of them is a unit vector or the zero
    vector: after [j] steps the column is orthogonal to the first [j]
    columns, and its inner product with every later column [m] is still
    that of the input column. *)
Lemma orth_col_orthogonal (d : nat) (Q : list VectorType) (i : nat) :
  Forall (fun v => length v = d) Q -> (i < length Q)%nat ->
  (forall a b, (a < i)%nat -> (b < i)%nat -> a <> b ->
               dot (nth a Q []) (nth b Q []) = 0) ->
  (forall a, (a < i)%nat ->
             dot (nth a Q []) (nth a Q []) = 1 \/ Forall (fun x => x = 0) (nth a Q [])) ->
  forall j, (j <= i)%nat ->
    length (orth_col Q i j) = d
    /\ (forall k, (k < j)%nat -> dot (nth k Q []) (orth_col Q i j) = 0)
    /\ (forall m, (j <= m < i)%nat ->
          dot (nth m Q []) (orth_col Q i j) = dot (nth m Q []) (nth i Q [])).
Proof.
  intros HQ Hi Horth Hunit. induction j as [|j IH]; intros Hj.
  - simpl. split; [apply nth_dim; assumption|]. split; [intros k Hk; lia | auto].
  - destruct (IH ltac:(lia)) as (Hlen & Hzero & Hlater).
    assert (Hlj : length (nth j Q []) = d) by (apply nth_dim; [assumption | lia]).
    simpl orth_col. split; [auto with dims|]. split.
    + intros k Hk. rewrite dot_add_r by lia.
      destruct (decide (k = j)) as [->|Hne].
      * destruct (Hunit j ltac:(lia)) as [H1|H0].
        -- rewrite H1. lra.
        -- rewrite !(dot_zeros_l _ _ H0). lra.
      * rewrite Hzero by lia. rewrite (Horth k j) by lia. lra.
    + intros m Hm. rewrite dot_add_r by lia.
      rewrite (Horth m j) by lia. rewrite Hlater by lia. lra.
Qed.

Section Dropping.

Variables (d : nat) (eps : R) (V : list VectorType).

Hypothesis V_dim : Forall (fun v => length v = d) V.
Hypothesis eps_pos : 0 < eps.
Hypothesis V_nonzero : forall i, (i < length V)%nat -> Exists (fun x => x <> 0) (nth i V []).

(** After [k] iterations: the first [k] columns are pairwise orthogonal;
    a dropped column is the zero vector, a kept column a unit vector. *)
Lemma QR_prefix_orthogonal (k : nat) :
  (k <= length V)%nat ->
  Forall (fun v => length v = d) (QR_prefix eps V k)
  /\ (forall a b, (a < k)%nat -> (b < k)%nat -> a <> b ->
        dot (nth a (QR_prefix eps V k) []) (nth b (QR_prefix eps V k) []) = 0)
  /\ (forall a, (a < k)%nat ->
        (drops eps (QR_prefix eps V a) a
         /\ Forall (fun x => x = 0) (nth a (QR_prefix eps V k) []))
        \/ (~ drops eps (QR_prefix eps V a) a
            /\ dot (nth a (QR_prefix eps V k) []) (nth a (QR_prefix eps V k) []) = 1)).
Proof using V_dim eps_pos V_nonzero.
  induction k as [|k IH]; intros Hk.
  - simpl. split; [exact V_dim|]. split; [intros a b Ha; lia | intros a Ha; lia].
  - destruct (IH ltac:(lia)) as (Hdim & Horth & Hstat).
    set (Qk := QR_prefix eps V k) in *.
    assert (Hlen : length Qk = length V) by apply length_QR_prefix.
    assert (Hunit : forall a, (a < k)%nat ->
              dot (nth a Qk []) (nth a Qk []) = 1 \/ Forall (fun x => x = 0) (nth a Qk [])).
    { intros a Ha. destruct (Hstat a Ha) as [[_ H0]|[_ H1]]; auto. }
    destruct (orth_col_orthogonal d Qk k Hdim ltac:(lia) Horth Hunit k (Nat.le_refl k))
      as (Hq & Hzero & _).
    simpl QR_prefix. fold Qk. unfold QR_next.
    set (q := orth_col Qk k k) in *.
    assert (Hcase :
      (drops eps Qk k
       /\ (if Rlt_dec (l2_norm q) (eps * l2_norm (nth k Qk [])) then assign_zero q
           else scale q (1 / l2_norm q)) = assign_zero q)
      \/ (~ drops eps Qk k /\ 0 < l2_norm q
          /\ (if Rlt_dec (l2_norm q) (eps * l2_norm (nth k Qk [])) then assign_zero q
              else scale q (1 / l2_norm q)) = scale q (1 / l2_norm q))).
    { unfold drops. fold q. destruct (Rlt_dec _ _) as [Hd|Hd]; [left; auto|].
      right. split; [exact Hd|]. split; [|reflexivity].
      unfold Qk in Hd. rewrite nth_QR_prefix_later in Hd by lia.
      pose proof (l2_norm_pos _ (V_nonzero k ltac:(lia))) as Hpos.
      assert (0 < eps * l2_norm (nth k V [])) by nra. lra. }
    set (new := if Rlt_dec (l2_norm q) (eps * l2_norm (nth k Qk [])) then assign_zero q
                else scale q (1 / l2_norm q)) in *.
    assert (Hnew_dim : length new = d)
      by (destruct Hcase as [[_ ->]|(_ & _ & ->)]; auto with dims).
    assert (Hnew_orth : forall b, (b < k)%nat -> dot new (nth b Qk []) = 0).
    { intros b Hb. destruct Hcase as [[_ ->]|(_ & _ & ->)].
      - apply dot_zeros_l, assign_zero_zeros.
      - rewrite dot_scale_l, dot_comm, Hzero by lia. lra. }
    split; [apply Forall_insert; assumption|]. split.
    + intros a b Ha Hb Hab.
      destruct (decide (a = k)) as [->|Hak]; destruct (decide (b = k)) as [->|Hbk];
        try contradiction.
      * rewrite nth_insert_eq, nth_insert_ne by lia. apply Hnew_orth. lia.
      * rewrite nth_insert_ne, nth_insert_eq by lia. rewrite dot_comm.
        apply Hnew_orth. lia.
      * rewrite !nth_insert_ne by lia. apply Horth; lia.
    + intros a Ha. destruct (decide (a = k)) as [->|Hak].
      * rewrite nth_insert_eq by lia. fold Qk.
        destruct Hcase as [[Hd ->]|(Hd & Hpos & ->)].
        -- left. split; [exact Hd | apply assign_zero_zeros].
        -- right. split; [exact Hd|].
           rewrite dot_scale_l, dot_scale_r, <- (l2_norm_square q). field. lra.
      * rewrite nth_insert_ne by lia. apply Hstat. lia.
Qed.

(** For a kept column [i] the coefficients of the loop "orthogonalize" are
    the inner products of the input column with the columns before it, and
    the norm [r_ii] is its inner product with the normalized column. *)
Lemma kept_column_projections (i j : nat) :
  (j <= i < length V)%nat -> ~ drops eps (QR_prefix eps V i) i ->
  column_entry eps (QR_prefix eps V i) i j
  = dot (nth j (QR_prefix eps V (length V)) []) (nth i V []).
Proof using V_dim eps_pos V_nonzero.
  intros Hji Hkeep. set (Qi := QR_prefix eps V i).
  destruct (QR_prefix_orthogonal i ltac:(lia)) as (Hdim & Horth & Hstat).
  fold Qi in Hdim, Horth, Hstat.
  assert (Hlen : length Qi = length V) by apply length_QR_prefix.
  assert (Hunit : forall a, (a < i)%nat ->
            dot (nth a Qi []) (nth a Qi []) = 1 \/ Forall (fun x => x = 0) (nth a Qi [])).
  { intros a Ha. destruct (Hstat a Ha) as [[_ H0]|[_ H1]]; auto. }
  pose proof (orth_col_orthogonal d Qi i Hdim ltac:(lia) Horth Hunit) as Hgs.
  assert (HVi : nth i Qi [] = nth i V []) by (apply nth_QR_prefix_later; lia).
  unfold column_entry. fold Qi. unfold drops in Hkeep. fold Qi in Hkeep.
  destruct (Rlt_dec _ _) as [Hd|_]; [contradiction|].
  destruct (decide (j = i)) as [->|Hne].
  - rewrite nth_QR_prefix_final by lia. simpl QR_prefix. fold Qi. unfold QR_next.
    rewrite nth_insert_eq by lia.
    destruct (Rlt_dec _ _) as [Hd|_]; [contradiction|].
    set (q := orth_col Qi i i) in *.
    assert (Hpos : 0 < l2_norm q).
    { rewrite HVi in Hkeep. pose proof (l2_norm_pos _ (V_nonzero i ltac:(lia))) as Hp.
      assert (0 < eps * l2_norm (nth i V [])) by nra. lra. }
    assert (Hq : forall k, (k <= i)%nat -> dot q (orth_col Qi i k) = dot q (nth i V [])).
    { induction k as [|k IHk]; intros Hk; [simpl; rewrite HVi; reflexivity|].
      destruct (Hgs i (Nat.le_refl i)) as (_ & Hzero & _). fold q in Hzero.
      destruct (Hgs k ltac:(lia)) as (Hlk & _ & _).
      simpl orth_col.
      rewrite dot_add_r by (rewrite Hlk; apply nth_dim; [assumption | lia]).
      rewrite (dot_comm q (nth k Qi [])), Hzero by lia. rewrite IHk by lia. lra. }
    rewrite dot_scale_l, <- (Hq i (Nat.le_refl i)). fold q.
    rewrite <- (l2_norm_square q). field. lra.
  - unfold orth_coef. destruct (Hgs j ltac:(lia)) as (_ & _ & Hlater).
    rewrite Hlater by lia. rewrite HVi.
    rewrite (nth_QR_prefix_final eps V j (length V)) by lia.
    unfold Qi. rewrite (nth_QR_prefix_final eps V j i) by lia. reflexivity.
Qed.

End Dropping.

(** For [n <= M] input vectors of one size, none of them the zero vector,
    and a positive [eps]: after [compute_QR_decomposition] two different
    columns of [Q] are orthogonal, a column that met the test
    [r_ii < eps * norm_initial] is the zero vector, and every other column
    has norm [1]. *)
Theorem QR_columns_orthogonal (d : nat) (size : N) (eps : R) (V : list VectorType)
  (R_ : Matrix.t) :
  Matrix.reachable size R_ -> (length V <= N.to_nat size)%nat ->
  Forall (fun v => length v = d) V -> 0 < eps ->
  (forall i, (i < length V)%nat -> Exists (fun x => x <> 0) (nth i V [])) ->
  exists Q' R',
    compute_QR_decomposition V R_ eps = Ret (Q', R')
    /\ (forall i j, (i < length V)%nat -> (j < length V)%nat -> i <> j ->
          dot (nth i Q' []) (nth j Q' []) = 0)
    /\ (forall i, (i < length V)%nat ->
          (drop_test eps V R_ i /\ Forall (fun x => x = 0) (nth i Q' []))
          \/ (~ drop_test eps V R_ i /\ l2_norm (nth i Q' []) = 1)).
Proof.
  intros Hreach Hlen Hdim Heps Hnz. destruct (reachable_wf _ _ Hreach) as [Hwf HM].
  assert (Hord : order R_ = N.to_nat size) by (unfold order; rewrite HM; reflexivity).
  destruct (compute_QR_decomposition_spec eps V R_ Hwf ltac:(lia)) as (R' & Hrun & _).
  destruct (QR_prefix_orthogonal d eps V Hdim Heps Hnz (length V) (Nat.le_refl _))
    as (_ & Horth & Hstat).
  exists (QR_prefix eps V (length V)), R'. split; [exact Hrun|]. split; [exact Horth|].
  intros i Hi.
  pose proof (drop_test_drops eps V R_ i Hwf ltac:(lia) Hi) as Hiff.
  destruct (Hstat i Hi) as [[Hd H0]|[Hd H1]].
  - left. split; [apply Hiff; exact Hd | exact H0].
  - right. split; [intros Ht; apply Hd, Hiff, Ht|].
    unfold l2_norm. rewrite H1. apply sqrt_1.
Qed.

Lemma QR_columns_orthogonal_witness :
  exists Q' R',
    compute_QR_decomposition nearly_parallel (zero_matrix 2) eps_default = Ret (Q', R')
    /\ dot (nth 0 Q' []) (nth 1 Q' []) = 0.
Proof.
  destruct (QR_columns_orthogonal 2 2 eps_default nearly_parallel (zero_matrix 2))
    as (Q' & R' & Hrun & Horth & _).
  - exact two_by_two_reachable.
  - simpl. lia.
  - repeat constructor.
  - unfold eps_default. lra.
  - intros i Hi. simpl in Hi. destruct i as [|[|i]]; [left; lra | left; lra | lia].
  - exists Q', R'. split; [exact Hrun|]. apply Horth; simpl; lia.
Defined.

(** Under the same hypotheses, for every column [i] that did not meet
    the test, column [i] of [R] holds the inner products of the input
    vector [i] with the columns of the output: [R[j][i] = <Q[j], V[i]>]
    for every [j <= i]. *)
Theorem QR_kept_column_projections (d : nat) (size : N) (eps : R)
  (V : list VectorType) (R_ : Matrix.t) :
  Matrix.reachable size R_ -> (length V <= N.to_nat size)%nat ->
  Forall (fun v => length v = d) V -> 0 < eps ->
  (forall i, (i < length V)%nat -> Exists (fun x => x <> 0) (nth i V [])) ->
  exists Q' R',
    compute_QR_decomposition V R_ eps = Ret (Q', R')
    /\ forall i j, (j <= i < length V)%nat -> ~ drop_test eps V R_ i ->
         Matrix.get R' (N.of_nat j) (N.of_nat i)
         = Ret (dot (nth j Q' []) (nth i V [])).
Proof.
  intros Hreach Hlen Hdim Heps Hnz. destruct (reachable_wf _ _ Hreach) as [Hwf HM].
  assert (Hord : order R_ = N.to_nat size) by (unfold order; rewrite HM; reflexivity).
  destruct (compute_QR_decomposition_spec eps V R_ Hwf ltac:(lia))
    as (R' & Hrun & Hwf' & Ho & Hcol & _).
  exists (QR_prefix eps V (length V)), R'. split; [exact Hrun|].
  intros i j Hji Hkeep. rewrite get_entry by (auto; lia). f_equal.
  rewrite Hcol by lia.
  apply (kept_column_projections d eps V Hdim Heps Hnz i j Hji).
  intros Hd. apply Hkeep. apply drop_test_drops; [exact Hwf | lia | lia | exact Hd].
Qed.

Lemma QR_kept_column_projections_witness :
  exists Q' R',
    compute_QR_decomposition (after_e1 0 1) (zero_matrix 2) eps_default = Ret (Q', R')
    /\ Matrix.get R' 0 1 = Ret (dot (nth 0 Q' []) [0; 1]).
Proof.
  destruct (QR_kept_column_projections 2 2 eps_default (after_e1 0 1) (zero_matrix 2))
    as (Q' & R' & Hrun & Hproj).
  - exact two_by_two_reachable.
  - simpl. lia.
  - repeat constructor.
  - unfold eps_default. lra.
  - intros i Hi. simpl in Hi. destruct i as [|[|i]]; [left; lra | right; left; lra | lia].
  - exists Q', R'. split; [exact Hrun|].
    apply (Hproj 1%nat 0%nat); [simpl; lia | apply unit_vectors_kept; lia].
Defined.

(** ** [compute_QR_decomposition], then [backward_substitution] *)

(** The factor [R] that [compute_QR_decomposition] leaves in a freshly
    constructed matrix, for a positive [eps] and [n <= M] input vectors
    none of which is the zero vector, is a valid argument of
    [backward_substitution]: for every [dst] of size [n] and every [rhs] of
    size at least [n] the call returns, and its result solves the
    [n]-by-[n] system of the leading block of [R]. *)
Theorem QR_then_backward_substitution (size : N) (eps : R) (Q : list VectorType)
  (R0 : Matrix.t) :
  Matrix.new size = Ret R0 -> (length Q <= N.to_nat size)%nat -> 0 < eps ->
  (forall i, (i < length Q)%nat -> Exists (fun x => x <> 0) (nth i Q [])) ->
  exists Q' R',
    compute_QR_decomposition Q R0 eps = Ret (Q', R')
    /\ forall dst rhs, length dst = length Q -> (length dst <= length rhs)%nat ->
         exists x,
           backward_substitution R' dst rhs = Ret x
           /\ length x = length Q
           /\ forall i, (i < length Q)%nat ->
                row_times R' x (length Q) i = nth i rhs 0.
Proof.
  intros Hnew Hlen Heps Hnz. apply new_spec in Hnew as [Hov ->].
  pose proof (zero_matrix_wf size Hov) as Hwf.
  assert (Hord : order (zero_matrix size) = N.to_nat size) by reflexivity.
  destruct (compute_QR_decomposition_spec eps Q (zero_matrix size) Hwf ltac:(lia))
    as (R' & Hrun & Hwf' & Ho & Hcol & Hfr).
  exists (QR_prefix eps Q (length Q)), R'. split; [exact Hrun|].
  intros dst rhs Hdst Hrhs.
  destruct (leading_block_solution R' dst rhs Hwf') as (x & Hx & Hlx & Hsol & _).
  - lia.
  - exact Hrhs.
  - intros i j Hij. rewrite Hfr by lia. apply entry_zero_matrix.
  - intros i Hi. rewrite Hcol by lia.
    assert (Hpos : 0 < column_entry eps (QR_prefix eps Q i) i i).
    { apply column_entry_diagonal; [exact Heps|].
      rewrite nth_QR_prefix_later by lia. apply Hnz. lia. }
    lra.
  - rewrite Hdst in *. exists x. auto.
Qed.

Lemma QR_then_backward_substitution_witness :
  exists Q' R',
    compute_QR_decomposition [[3; 4]; [3; 4]] (zero_matrix 2) eps_default = Ret (Q', R')
    /\ exists x, backward_substitution R' [0; 0] [5; 8] = Ret x
                 /\ row_times R' x 2 1 = 8.
Proof.
  destruct (QR_then_backward_substitution 2 eps_default [[3; 4]; [3; 4]] (zero_matrix 2))
    as (Q' & R' & Hrun & Hbs).
  - apply new_fits. rewrite uint_modulus_value. lia.
  - simpl. lia.
  - unfold eps_default. lra.
  - intros i Hi. simpl in Hi. destruct i as [|[|i]]; [left; lra | left; lra | lia].
  - exists Q', R'. split; [exact Hrun|].
    destruct (Hbs [0; 0] [5; 8]) as (x & Hx & _ & Hsol); [reflexivity | simpl; lia |].
    exists x. split; [exact Hx|]. apply (Hsol 1%nat). simpl. lia.
Defined.

(** ** [inv_jacobian_times_residual]: the sizes of the histories *)

(** An index loop over [p] and the first [length p] entries of a longer [V]. *)
Lemma for_up_fold_le {St : Type} (f : St -> R -> VectorType -> St)
  (p : list R) (V : list VectorType) (count lo : nat) (s : St) :
  (lo + count)%nat = length p -> (length p <= length V)%nat ->
  for_up (fun i s => let* x := vec_get p i in let* v := vec_get V i in Ret (f s x v))
         lo count s
  = Ret (foldl (fun s pv => f s pv.1 pv.2) s (zip (drop lo p) (drop lo V))).
Proof.
  revert lo s. induction count as [|count IH]; intros lo s Hlo HV; simpl.
  - rewrite (drop_ge p) by lia. reflexivity.
  - destruct (lookup_lt_is_Some_2 p lo ltac:(lia)) as [x Hx].
    destruct (lookup_lt_is_Some_2 V lo ltac:(lia)) as [v Hv].
    rewrite (vec_get_Ret _ _ _ Hx), (vec_get_Ret _ _ _ Hv). simpl.
    rewrite (drop_S _ _ _ Hx), (drop_S _ _ _ Hv). simpl.
    apply IH; lia.
Qed.

Lemma history_entry_step_le (d : nat) (b : nat) (D_history R_history Z_history : history)
  (idx : nat) (D R_ Z : list VectorType) (mem : nat -> VectorType) (a : VectorType) :
  D_history !! idx = Some D -> R_history !! idx = Some R_ -> Z_history !! idx = Some Z ->
  (length Z <= length D)%nat -> (length Z <= length R_)%nat ->
  Forall (fun v => length v = d) D -> Forall (fun v => length v = d) R_ ->
  length a = d -> length (mem b) = d ->
  exists mem',
    history_entry b D_history R_history Z_history idx (mem, a)
    = Ret (mem', vminus a (weighted_sum (assign_zero a) (map (fun z => dot z a) Z) R_))
    /\ mem' b = vplus (mem b) (weighted_sum (assign_zero a) (map (fun z => dot z a) Z) D)
    /\ forall r, r <> b -> mem' r = mem r.
Proof.
  intros HD HR HZ HlD HlR HdD HdR Ha Hb. unfold history_entry.
  rewrite (vec_get_Ret _ _ _ HD), (vec_get_Ret _ _ _ HR), (vec_get_Ret _ _ _ HZ).
  simpl. rewrite projections_loop. simpl.
  set (p := map (fun z => dot z a) Z).
  assert (Hp : length p = length Z) by apply length_map.
  rewrite (for_up_fold_le (fun (m : nat -> VectorType) x v => <[b := add (m b) x v]> m) p D)
    by lia.
  simpl. rewrite (for_up_fold_le (fun acc x v => add acc (- x) v) p R_) by lia.
  simpl. rewrite !drop_0.
  destruct (foldl_memory b (zip p D) mem) as [Hmb Hframe].
  eexists. split; [|split; [|exact Hframe]].
  - f_equal. f_equal.
    apply (sub_loop_weighted_sum d); auto with dims. apply component_assign_zero.
  - rewrite Hmb. apply (add_loop_weighted_sum d); auto with dims.
    apply component_assign_zero.
Qed.

(** The loop bounds are [Z_history.size()] and, per entry, [Z->size()]:
    when [D_history] and [R_history] have at least as many entries as
    [Z_history], and every [D] and [R] at least as many vectors as its
    [Z], the call returns the value of the recurrence over the first
    [Z_history.size()] entries and, per entry, the first [Z->size()]
    vectors; what [D_history], [R_history], [D] and [R] hold beyond is not
    read. *)
Theorem inv_jacobian_times_residual_longer_histories (d : nat) (b residual : nat)
  (D_history R_history Z_history : history) (mem : nat -> VectorType) :
  (length Z_history <= length D_history)%nat ->
  (length Z_history <= length R_history)%nat ->
  (forall idx D Z, D_history !! idx = Some D -> Z_history !! idx = Some Z ->
                   (length Z <= length D)%nat) ->
  (forall idx R_ Z, R_history !! idx = Some R_ -> Z_history !! idx = Some Z ->
                    (length Z <= length R_)%nat) ->
  Forall (Forall (fun v => length v = d)) D_history ->
  Forall (Forall (fun v => length v = d)) R_history ->
  length (mem residual) = d -> length (mem b) = d ->
  exists mem',
    inv_jacobian_times_residual b D_history R_history Z_history residual mem = Ret mem'
    /\ mem' b = reference_recurrence D_history R_history Z_history (mem residual)
    /\ forall r, r <> b -> mem' r = mem r.
Proof.
  intros HlD HlR HDZ HRZ HdD HdR Hres Hb. unfold inv_jacobian_times_residual.
  set (n := length Z_history).
  set (zipped := zip (zip D_history R_history) Z_history).
  destruct (for_down_inv
    (fun k (s : (nat -> VectorType) * VectorType) =>
       length s.2 = d /\ length (s.1 b) = d
       /\ (forall r, r <> b -> s.1 r = mem r)
       /\ reference_newest_first (rev (take k zipped)) s.2 (s.1 b)
          = reference_recurrence D_history R_history Z_history (mem residual))
    (history_entry b D_history R_history Z_history) n
    (<[b := assign_zero (mem b)]> mem, mem residual)) as (s & Hrun & _ & _ & Hframe & Href).
  - simpl. rewrite fn_lookup_insert. split; [exact Hres|].
    split; [auto with dims|]. split; [intros r Hr; apply fn_lookup_insert_ne; auto|].
    rewrite take_ge by (subst zipped n; rewrite !length_zip_with; lia).
    unfold reference_recurrence. fold zipped.
    rewrite !assign_zero_replicate, Hres, Hb. reflexivity.
  - intros k [m a] Hk (Ha & Hmb & Hframe & Href). simpl in Ha, Hmb, Hframe, Href.
    destruct (lookup_lt_is_Some_2 Z_history k ltac:(lia)) as [Z HZ].
    destruct (lookup_lt_is_Some_2 D_history k ltac:(lia)) as [D HD].
    destruct (lookup_lt_is_Some_2 R_history k ltac:(lia)) as [R_ HR].
    assert (HdD' : Forall (fun v => length v = d) D)
      by (eapply Forall_lookup_1 in HdD; eauto).
    assert (HdR' : Forall (fun v => length v = d) R_)
      by (eapply Forall_lookup_1 in HdR; eauto).
    destruct (history_entry_step_le d b D_history R_history Z_history k D R_ Z m a)
      as (m' & Hstep & Hm'b & Hm'frame); eauto.
    eexists. split; [exact Hstep|]. simpl.
    split; [auto with dims|]. split; [rewrite Hm'b; auto with dims|].
    split; [intros r Hr; rewrite Hm'frame by exact Hr; apply Hframe; exact Hr|].
    rewrite <- Href.
    assert (Hz : zipped !! k = Some (D, R_, Z)).
    { subst zipped. rewrite !lookup_zip_with, HD, HR, HZ. reflexivity. }
    rewrite (take_S_r _ _ _ Hz), rev_unit. simpl. rewrite Hm'b. reflexivity.
  - exists s.1. rewrite Hrun. simpl. split; [reflexivity|]. split; [|exact Hframe].
    rewrite <- Href. reflexivity.
Qed.

Lemma inv_jacobian_times_residual_longer_histories_witness :
  exists mem',
    inv_jacobian_times_residual 0
      [[[1; 0]]; [[0; 2]; [5; 5]]; [[7; 7]]] R_sample Z_sample 1 mem_sample = Ret mem'
    /\ mem' 0%nat
       = reference_recurrence [[[1; 0]]; [[0; 2]; [5; 5]]; [[7; 7]]] R_sample Z_sample [2; 3].
Proof.
  destruct (inv_jacobian_times_residual_longer_histories 2 0 1
              [[[1; 0]]; [[0; 2]; [5; 5]]; [[7; 7]]] R_sample Z_sample mem_sample)
    as (mem' & Hrun & Hb & _).
  - simpl. lia.
  - simpl. lia.
  - intros idx D Z HD HZ. destruct idx as [|[|[|idx]]]; simpl in HD, HZ;
      try discriminate; inversion HD; inversion HZ; subst; simpl; lia.
  - intros idx R_ Z HR HZ. destruct idx as [|[|[|idx]]]; simpl in HR, HZ;
      try discriminate; inversion HR; inversion HZ; subst; simpl; lia.
  - repeat constructor.
  - repeat constructor.
  - reflexivity.
  - reflexivity.
  - exists mem'. split; [exact Hrun | exact Hb].
Defined.

(** With fewer entries in [D_history] or [R_history] than in [Z_history],
    the first pass of the loop reads [D_history[idx]] or [R_history[idx]]
    outside the vector: nothing is thrown, the behaviour is undefined. *)
Theorem inv_jacobian_times_residual_short_history (b residual : nat)
  (D_history R_history Z_history : history) (mem : nat -> VectorType) :
  (length D_history < length Z_history)%nat
  \/ (length R_history < length Z_history)%nat ->
  inv_jacobian_times_residual b D_history R_history Z_history residual mem = Undef.
Proof.
  intros Hshort. unfold inv_jacobian_times_residual.
  destruct (length Z_history) as [|n'] eqn:Hn; [lia|]. simpl.
  unfold history_entry at 1. simpl.
  destruct (decide (length D_history <= n')%nat) as [HD|HD].
  - unfold vec_get at 1. rewrite lookup_ge_None_2 by exact HD. reflexivity.
  - rewrite (vec_get_nth D_history n' []) by lia. simpl.
    unfold vec_get at 1. rewrite lookup_ge_None_2 by lia. reflexivity.
Qed.

Lemma inv_jacobian_times_residual_short_history_witness :
  inv_jacobian_times_residual 0 [[[1; 0]]] R_sample Z_sample 1 mem_sample = Undef.
Proof.
  apply inv_jacobian_times_residual_short_history. left. simpl. lia.
Defined.

(** ** [inv_jacobian_times_residual] is linear in the residual *)

Lemma weighted_sum_linear (d : nat) (zero : VectorType) (alpha : R)
  (a1 a2 : VectorType) (Z V : list VectorType) :
  length zero = d -> (forall c, component c zero = 0) ->
  Forall (fun v => length v = d) V -> length a1 = length a2 ->
  weighted_sum zero (map (fun z => dot z (add a2 alpha a1)) Z) V
  = add (weighted_sum zero (map (fun z => dot z a2) Z) V) alpha
        (weighted_sum zero (map (fun z => dot z a1) Z) V).
Proof.
  intros Hzero Hz HV Ha. revert V HV.
  assert (Hbase : zero = add zero alpha zero).
  { apply (vec_ext_dim d); auto with dims. intros c. components d. rewrite Hz. lra. }
  induction Z as [|z Z IH]; intros V HV; [exact Hbase|].
  destruct V as [|v V]; [exact Hbase|].
  inversion HV as [|? ? Hv HV']; subst. simpl map. rewrite !weighted_sum_cons.
  rewrite IH by exact HV'. rewrite dot_add_r by exact Ha.
  apply (vec_ext_dim (length zero)); auto 8 with dims.
  intros c. components (length zero). lra.
Qed.

(** The recurrence of the specification is linear in [(a, b)]. *)
Lemma reference_newest_first_linear (d : nat) (alpha : R)
  (entries : list (list VectorType * list VectorType * list VectorType)) :
  Forall (fun e => Forall (fun v => length v = d) e.1.1
                   /\ Forall (fun v => length v = d) e.1.2) entries ->
  forall a1 a2 b1 b2 : VectorType,
    length a1 = d -> length a2 = d -> length b1 = d -> length b2 = d ->
    reference_newest_first entries (add a2 alpha a1) (add b2 alpha b1)
    = add (reference_newest_first entries a2 b2) alpha
          (reference_newest_first entries a1 b1).
Proof.
  induction 1 as [|[[D R_] Z] older [HD HR] _ IH]; intros a1 a2 b1 b2 Ha1 Ha2 Hb1 Hb2;
    [reflexivity|].
  simpl in HD, HR. simpl reference_newest_first.
  rewrite !assign_zero_replicate, (dim_add d), Ha1, Ha2 by assumption.
  assert (Hz : length (replicate d 0) = d) by apply length_replicate.
  rewrite !(weighted_sum_linear d) by (auto using component_replicate_zero; lia).
  set (wR1 := weighted_sum (replicate d 0) (map (fun z => dot z a1) Z) R_).
  set (wR2 := weighted_sum (replicate d 0) (map (fun z => dot z a2) Z) R_).
  set (wD1 := weighted_sum (replicate d 0) (map (fun z => dot z a1) Z) D).
  set (wD2 := weighted_sum (replicate d 0) (map (fun z => dot z a2) Z) D).
  assert (HwR1 : length wR1 = d) by (unfold wR1; auto with dims).
  assert (HwR2 : length wR2 = d) by (unfold wR2; auto with dims).
  assert (HwD1 : length wD1 = d) by (unfold wD1; auto with dims).
  assert (HwD2 : length wD2 = d) by (unfold wD2; auto with dims).
  replace (vminus (add a2 alpha a1) (add wR2 alpha wR1))
    with (add (vminus a2 wR2) alpha (vminus a1 wR1)).
  - replace (vplus (add b2 alpha b1) (add wD2 alpha wD1))
      with (add (vplus b2 wD2) alpha (vplus b1 wD1)).
    + apply IH; auto with dims.
    + apply (vec_ext_dim d); auto with dims. intros c. components d. lra.
  - apply (vec_ext_dim d); auto with dims. intros c. components d. lra.
Qed.

Lemma history_entries_dim (d : nat) (D_history R_history Z_history : history) :
  Forall (Forall (fun v => length v = d)) D_history ->
  Forall (Forall (fun v => length v = d)) R_history ->
  Forall (fun e : list VectorType * list VectorType * list VectorType =>
            Forall (fun v => length v = d) e.1.1
            /\ Forall (fun v => length v = d) e.1.2)
         (rev (zip (zip D_history R_history) Z_history)).
Proof.
  intros HD HR. apply Forall_rev. apply Forall_lookup. intros idx [[D R_] Z] He.
  apply lookup_zip_with_Some in He as (DR & Z' & Heq & HDR & _).
  apply lookup_zip_with_Some in HDR as (D' & R' & -> & HD' & HR').
  inversion Heq; subst. simpl. split.
  - eapply (Forall_lookup_1 _ _ _ _ HD HD').
  - eapply (Forall_lookup_1 _ _ _ _ HR HR').
Qed.

(** The value [b] that [inv_jacobian_times_residual] computes is linear
    in the residual: for residuals [r1], [r2] and a number [alpha], the call
    on [r2 + alpha * r1] leaves in [b] the value [b2 + alpha * b1], where
    [b1] and [b2] are what the calls on [r1] and [r2] leave (histories as in
    C2). *)
Theorem inv_jacobian_times_residual_linear (d : nat) (b residual : nat) (alpha : R)
  (D_history R_history Z_history : history) (mem1 mem2 mem3 : nat -> VectorType) :
  Forall2 (fun D Z => length D = length Z) D_history Z_history ->
  Forall2 (fun R_ Z => length R_ = length Z) R_history Z_history ->
  Forall (Forall (fun v => length v = d)) D_history ->
  Forall (Forall (fun v => length v = d)) R_history ->
  length (mem1 residual) = d -> length (mem2 residual) = d ->
  length (mem1 b) = d -> length (mem2 b) = d -> length (mem3 b) = d ->
  mem3 residual = add (mem2 residual) alpha (mem1 residual) ->
  exists m1 m2 m3,
    inv_jacobian_times_residual b D_history R_history Z_history residual mem1 = Ret m1
    /\ inv_jacobian_times_residual b D_history R_history Z_history residual mem2 = Ret m2
    /\ inv_jacobian_times_residual b D_history R_history Z_history residual mem3 = Ret m3
    /\ m3 b = add (m2 b) alpha (m1 b).
Proof.
  intros HDZ HRZ HdD HdR Hr1 Hr2 Hb1 Hb2 Hb3 Hr3.
  assert (Hlr3 : length (mem3 residual) = d) by (rewrite Hr3; auto with dims).
  destruct (inv_jacobian_times_residual_runs d b residual D_history R_history Z_history
              mem1 HDZ HRZ HdD HdR Hr1 Hb1) as (m1 & Hrun1 & Hv1 & _).
  destruct (inv_jacobian_times_residual_runs d b residual D_history R_history Z_history
              mem2 HDZ HRZ HdD HdR Hr2 Hb2) as (m2 & Hrun2 & Hv2 & _).
  destruct (inv_jacobian_times_residual_runs d b residual D_history R_history Z_history
              mem3 HDZ HRZ HdD HdR Hlr3 Hb3) as (m3 & Hrun3 & Hv3 & _).
  exists m1, m2, m3. split; [exact Hrun1|]. split; [exact Hrun2|]. split; [exact Hrun3|].
  rewrite Hv1, Hv2, Hv3, Hr3. unfold reference_recurrence.
  replace (assign_zero (add (mem2 residual) alpha (mem1 residual)))
    with (add (assign_zero (mem2 residual)) alpha (assign_zero (mem1 residual))).
  - apply (reference_newest_first_linear d); auto with dims.
    apply history_entries_dim; assumption.
  - apply (vec_ext_dim d); auto with dims. intros c. components d. lra.
Qed.

Lemma inv_jacobian_times_residual_linear_witness :
  exists m1 m3,
    inv_jacobian_times_residual 0 D_sample R_sample Z_sample 1 mem_sample = Ret m1
    /\ inv_jacobian_times_residual 0 D_sample R_sample Z_sample 1
         (fun r => if decide (r = 0%nat) then [0; 0] else add [2; 3] 2 [2; 3]) = Ret m3
    /\ m3 0%nat = add (m1 0%nat) 2 (m1 0%nat).
Proof.
  destruct sample_history_shape as (H1 & H2 & H3 & H4).
  destruct (inv_jacobian_times_residual_linear 2 0 1 2 D_sample R_sample Z_sample
              mem_sample mem_sample
              (fun r => if decide (r = 0%nat) then [0; 0] else add [2; 3] 2 [2; 3])
              H1 H2 H3 H4)
    as (m1 & m2 & m3 & Hrun1 & Hrun2 & Hrun3 & Hlin); [reflexivity..|].
  rewrite Hrun1 in Hrun2. inversion Hrun2; subst m2.
  exists m1, m3. split; [exact Hrun1|]. split; [exact Hrun3 | exact Hlin].
Defined.

(** ** [backward_substitution_multiple_rhs] solves the system *)

(** The inner loop of [backward_substitution_multiple_rhs], lines 169-172,
    component by component. *)
Lemma subtract_row_vectors (d : nat) (matrix : Matrix.t) (dst : list VectorType)
  (i : nat) (count lo : nat) (value : VectorType) :
  Matrix_wf matrix -> (i < order matrix)%nat ->
  (lo + count <= length dst)%nat -> (length dst <= order matrix)%nat ->
  Forall (fun v => length v = d) dst -> length value = d ->
  exists v,
    for_up (fun j value =>
              let* m_ij := Matrix.get matrix (N.of_nat i) (N.of_nat j) in
              let* dst_j := vec_get dst j in
              Ret (add value (- m_ij) dst_j))
           lo count value = Ret v
    /\ length v = d
    /\ forall c, component c v
                 = component c value
                   - sum_range (fun j => entry matrix i j * component c (nth j dst []))
                               lo count.
Proof.
  intros Hwf Hi. revert lo value.
  induction count as [|count IH]; intros lo value Hlo Hn Hdst Hv; simpl.
  - exists value. split; [reflexivity|]. split; [exact Hv | intros c; lra].
  - rewrite get_entry by (auto; lia). simpl.
    rewrite (vec_get_nth dst lo ([] : VectorType)) by lia. simpl.
    assert (Hdl : length (nth lo dst []) = d) by (apply nth_dim; [assumption | lia]).
    destruct (IH (S lo) (add value (- entry matrix i lo) (nth lo dst [])))
      as (v & Hrun & Hlen & Hcomp); auto with dims; [lia|].
    exists v. split; [exact Hrun|]. split; [exact Hlen|].
    intros c. rewrite Hcomp. rewrite (component_add_dim d) by assumption. lra.
Qed.

(** With [dst] of [n <= M] vectors, [rhs] of at least [n] vectors, all
    of one size [d], an upper-triangular leading block with non-zero
    diagonal: [backward_substitution_multiple_rhs] returns [n] vectors of
    size [d], and every component [c] of them solves the system of the
    block for component [c] of the right-hand sides:
    [sum_{j < n} R[i][j] * dst[j][c] = rhs[i][c]]. *)
Theorem backward_substitution_multiple_rhs_solves (d : nat) (size : N)
  (matrix : Matrix.t) (dst rhs : list VectorType) :
  Matrix.reachable size matrix ->
  (length dst <= N.to_nat size)%nat -> (length dst <= length rhs)%nat ->
  Forall (fun v => length v = d) dst -> Forall (fun v => length v = d) rhs ->
  (forall i j, (j < i < length dst)%nat -> entry matrix i j = 0) ->
  (forall i, (i < length dst)%nat -> entry matrix i i <> 0) ->
  exists x,
    backward_substitution_multiple_rhs matrix dst rhs = Ret x
    /\ length x = length dst
    /\ Forall (fun v => length v = d) x
    /\ forall i c, (i < length dst)%nat ->
         row_times matrix (map (component c) x) (length dst) i
         = component c (nth i rhs []).
Proof.
  intros Hreach Hsize Hrhs Hdd Hdr Hup Hdiag.
  destruct (reachable_wf _ _ Hreach) as [Hwf HM].
  assert (Hord : order matrix = N.to_nat size) by (unfold order; rewrite HM; reflexivity).
  unfold backward_substitution_multiple_rhs. set (n := length dst) in *.
  destruct (for_down_inv
    (fun k (x : list VectorType) =>
       length x = n /\ Forall (fun v => length v = d) x
       /\ forall i c, (k <= i < n)%nat ->
            component c (nth i x [])
            = (component c (nth i rhs [])
               - sum_range (fun j => entry matrix i j * component c (nth j x []))
                           (i + 1) (n - (i + 1))) / entry matrix i i)
    (fun i dst =>
       let* rhs_i := vec_get rhs i in
       let* value :=
         for_up (fun j value =>
                   let* m_ij := Matrix.get matrix (N.of_nat i) (N.of_nat j) in
                   let* dst_j := vec_get dst j in
                   Ret (add value (- m_ij) dst_j))
                (i + 1) (n - (i + 1)) rhs_i in
       let* m_ii := Matrix.get matrix (N.of_nat i) (N.of_nat i) in
       let* dst_i := vec_get dst i in
       vec_put dst i (equ dst_i (1 / m_ii) value)) n dst) as (x & Hx & Hlen & Hdx & Hrec).
  - split; [reflexivity|]. split; [exact Hdd | intros i c Hi; lia].
  - intros k x Hk (Hlen & Hdx & Hrec).
    rewrite (vec_get_nth rhs k ([] : VectorType)) by lia. simpl.
    assert (Hrk : length (nth k rhs []) = d) by (apply nth_dim; [assumption | lia]).
    assert (Hxk : length (nth k x []) = d) by (apply nth_dim; [assumption | lia]).
    destruct (subtract_row_vectors d matrix x k (n - (k + 1)) (k + 1) (nth k rhs []))
      as (v & -> & Hv & Hcomp); auto; try lia.
    simpl. rewrite get_entry by (auto; lia). simpl.
    rewrite (vec_get_nth x k ([] : VectorType)) by lia. simpl.
    rewrite vec_put_Ret by lia. eexists. split; [reflexivity|].
    split; [rewrite length_insert; exact Hlen|].
    split; [apply Forall_insert; auto with dims|].
    intros i c Hi.
    assert (Htail : sum_range (fun j => entry matrix i j
                       * component c (nth j (<[k:=equ (nth k x []) (1 / entry matrix k k) v]> x) []))
                      (i + 1) (n - (i + 1))
                    = sum_range (fun j => entry matrix i j * component c (nth j x []))
                                (i + 1) (n - (i + 1))).
    { apply sum_range_ext. intros j Hj. rewrite nth_insert_ne by lia. reflexivity. }
    rewrite Htail. destruct (decide (i = k)) as [->|Hne].
    + rewrite nth_insert_eq by lia. rewrite component_equ by lia. rewrite Hcomp.
      unfold Rdiv. lra.
    + rewrite nth_insert_ne by lia. apply Hrec. lia.
  - exists x. split; [exact Hx|]. split; [exact Hlen|]. split; [exact Hdx|].
    intros i c Hi.
    assert (Hmap : forall j, nth j (map (component c) x) 0 = component c (nth j x [])).
    { intros j. rewrite <- (map_nth (component c)). f_equal. destruct c; reflexivity. }
    rewrite upper_triangular_row by assumption.
    unfold row_tail.
    rewrite (sum_range_ext _ (fun j => entry matrix i j * component c (nth j x []))
               (n - (i + 1)) (i + 1))
      by (intros j Hj; rewrite Hmap; reflexivity).
    rewrite Hmap. rewrite (Hrec i c) at 1 by lia. field. apply Hdiag. exact Hi.
Qed.

Lemma backward_substitution_multiple_rhs_solves_witness :
  exists x,
    backward_substitution_multiple_rhs upper_2x2 [[0; 0]; [0; 0]] [[5; 1]; [8; 2]] = Ret x
    /\ row_times upper_2x2 (map (component 1) x) 2 0 = 1.
Proof.
  destruct upper_2x2_entries as (E00 & E01 & E10 & E11).
  destruct (backward_substitution_multiple_rhs_solves 2 2 upper_2x2
              [[0; 0]; [0; 0]] [[5; 1]; [8; 2]]) as (x & Hx & _ & _ & Hsol).
  - exact upper_2x2_reachable.
  - simpl. lia.
  - simpl. lia.
  - repeat constructor.
  - repeat constructor.
  - intros i j Hij. simpl in Hij. assert (i = 1%nat /\ j = 0%nat) as [-> ->] by lia.
    exact E10.
  - intros i Hi. simpl in Hi.
    destruct i as [|[|i]]; [rewrite E00; lra | rewrite E11; lra | lia].
  - exists x. split; [exact Hx|]. apply (Hsol 0%nat 1%nat). simpl. lia.
Defined.
